(** * Consistency checker of bbolt ([tx_check.go])

    A shallow embedding of [Tx.check], [Tx.checkBucket] and
    [Tx.recursivelyCheckPagesInternal], and the properties of the checker
    that follow from it.

    Conventions of the embedding:
    - [pgid] (Go [uint64]) is [N]; additions that can leave the 64-bit range
      are reduced with [wrap64], the 32-bit loop counter with [wrap32];
    - a Go [[]byte] that may be [nil] is [option (list byte)], [None] being
      [nil]; [key()] of a page element never returns [nil];
    - the two maps are [gmap]s ([map[pgid]*page] and [map[pgid]bool]); a
      [*page] is represented by the page view it points to;
    - the channel [ch] is the list of the errors sent so far, oldest first;
    - recursion over the page graph takes fuel and returns [None] when it
      runs out: a missing result stands for a call that does not return. *)

From Stdlib Require Import NArith ZArith Strings.Byte Ascii String List Sorted Lia.
From stdpp Require Import base option list gmap strings.

Open Scope N_scope.

(** ** Data model *)

(** [type pgid uint64] *)
Abbreviation pgid := N (only parsing).

Definition wrap64 (x : N) : N := x mod 2 ^ 64.
Definition wrap32 (x : N) : N := x mod 2 ^ 32.

(** Modelled from the spec: a branch element (page.go, not part of
    [tx_check.go]), its [key()] and its child [pgid]. *)
Record branchPageElement := mkBranchElem {
  bkey : list byte;
  bpgid : pgid
}.

(** Modelled from the spec: a leaf element (page.go), its [key()] and its
    [value()]. *)
Record leafPageElement := mkLeafElem {
  lkey : list byte;
  lvalue : list byte
}.

(** Modelled from the spec: the page view (page.go), the header fields
    [id] (uint64), [flags] (uint16) and [overflow] (uint32) and the two
    typed views of the element array, [branchPageElements()] and
    [leafPageElements()].  [p.count] is the length of the view in use. *)
Record page := mkPage {
  id : pgid;
  flags : N;
  overflow : N;
  branchPageElements : list branchPageElement;
  leafPageElements : list leafPageElement
}.

(** The constants and the helper [typ()] of page.go and db.go that
    [tx_check.go] refers to, taken as parameters; [typ] is applied to the
    flags of the page. *)
Class PageConsts := {
  branchPageFlag : N;
  leafPageFlag : N;
  pgidNoFreelist : pgid;
  typ : N -> string
}.

Record meta := mkMeta {
  meta_pgid : pgid;
  meta_freelist : pgid
}.

(** Modelled from the spec: the Bucket collaborator (bucket.go), a [root]
    page id, the pairs its forward iterator [ForEach] yields, and
    [Bucket(k)], the nested bucket a key decodes to, if any.  The value
    describes a bucket whose iteration returns after finitely many pairs
    and whose nesting is finite; an iteration of bucket.go that does not
    return has no counterpart here. *)
#[warnings="-register-all"]
Inductive Bucket := mkBucket {
  root : pgid;
  ForEach : list (list byte * list byte);
  Bucket_at : list byte -> option Bucket
}.

(** Modelled from the spec: the transaction collaborator (tx.go, db.go,
    freelist.go): [tx.page] is a pure lookup, [tx.meta] the snapshot bounds,
    [tx_freelist_all] the ids that [freelist.copyall] copies out, [tx_root]
    the root bucket. *)
Record Tx := mkTx {
  tx_page : pgid -> page;
  tx_meta : meta;
  tx_freelist_all : list pgid;
  tx_root : Bucket
}.

(** [KeyValueStringer] interface. *)
Record KeyValueStringer := mkStringer {
  KeyToString : list byte -> string;
  ValueToString : list byte -> string
}.

(** One constructor per [fmt.Errorf] call site, holding the arguments of the
    format.  Page ids printed through [int(..)] are kept as the [pgid]
    (the conversion is one-to-one). *)
Inductive error :=
| ErrAlreadyFreed (i : pgid)
| ErrOutOfBounds (i : pgid) (hwm : pgid)
| ErrMultipleReferences (i : pgid)
| ErrReachableFreed (i : pgid)
| ErrInvalidType (i : pgid) (t : string)
| ErrUnreachableUnfreed (i : pgid)
| ErrBranchKeyBelowAncestor (i : nat) (k : string) (pg : pgid) (stack : list pgid)
| ErrBranchKeyAboveMax (i : nat) (k : string) (pg : pgid) (mx : string) (stack : list pgid)
| ErrLeafKeyBelowAncestor (i : nat) (k : string) (pg : pgid) (stack : list pgid)
| ErrLeafKeyLess (i : nat) (k : string) (pg : pgid) (prev : string) (stack : list pgid)
| ErrLeafKeyEqual (i : nat) (k : string) (pg : pgid) (prev : string) (stack : list pgid)
| ErrLeafKeyAboveMax (i : nat) (k : string) (pg : pgid) (mx : string) (stack : list pgid)
| ErrUnexpectedPageType (pg : pgid).

Global Instance error_eq_dec : EqDecision error.
Proof. solve_decision. Defined.
Global Arguments error_eq_dec : simpl never.

(** The state the checker threads through its calls. *)
Record CheckState := mkState {
  ch : list error;
  reachable : gmap pgid page;
  freed : gmap pgid bool
}.

(** [ch <- e] *)
Definition send (e : error) (st : CheckState) : CheckState :=
  mkState (ch st ++ [e]) (reachable st) (freed st).

(** [reachable[i] = p] *)
Definition set_reachable (i : pgid) (p : page) (st : CheckState) : CheckState :=
  mkState (ch st) (<[i := p]> (reachable st)) (freed st).

(** [freed[i] = true] *)
Definition set_freed (i : pgid) (st : CheckState) : CheckState :=
  mkState (ch st) (reachable st) (<[i := true]> (freed st)).

(** [freed[i]]: a missing key reads as [false]. *)
Definition is_freed (st : CheckState) (i : pgid) : bool :=
  default false (freed st !! i).

(** [_, ok := reachable[i]] *)
Definition is_reachable (st : CheckState) (i : pgid) : bool :=
  bool_decide (is_Some (reachable st !! i)).

(** [for i := from; <n more iterations>; i++ { body }] with a 64-bit
    counter that does not leave its range. *)
Fixpoint for_pgid {S : Type} (n : nat) (i : pgid) (body : pgid -> S -> S) (st : S) : S :=
  match n with
  | O => st
  | Datatypes.S n' => for_pgid n' (N.succ i) body (body i st)
  end.

(** ** [tx.check], lines 26-35: the free-set scan *)

Definition scan_step (st : CheckState) (i : pgid) : CheckState :=
  let st1 := if is_freed st i then send (ErrAlreadyFreed i) st else st in
  set_freed i st1.

Definition scan_freed (all : list pgid) (st : CheckState) : CheckState :=
  foldl scan_step st all.

(** ** [tx.check], lines 50-56: the final sweep *)

Definition sweep_step (i : pgid) (st : CheckState) : CheckState :=
  if negb (is_reachable st i) && negb (is_freed st i)
  then send (ErrUnreachableUnfreed i) st
  else st.

Definition sweep (hwm : pgid) (st : CheckState) : CheckState :=
  for_pgid (N.to_nat hwm) 0 sweep_step st.

(** ** [tx.check], lines 37-45: seeding the reachability map *)

Section Checker.
Context `{PageConsts}.

(** Lines 42-44.  The counter is a [uint32] compared with a [uint32] bound
    by [<=], so the loop is modelled with fuel: it does not exit when the
    bound is the largest 32-bit value. *)
Fixpoint seed_freelist (fuel : nat) (tx : Tx) (i : N) (st : CheckState) : option CheckState :=
  match fuel with
  | O => None
  | Datatypes.S fuel' =>
      let fl := meta_freelist (tx_meta tx) in
      if i <=? overflow (tx_page tx fl)
      then seed_freelist fuel' tx (wrap32 (i + 1))
             (set_reachable (wrap64 (fl + i)) (tx_page tx fl) st)
      else Some st
  end.

Definition seed_reachable (fuel : nat) (tx : Tx) (st : CheckState) : option CheckState :=
  let st0 := set_reachable 0 (tx_page tx 0) st in
  let st1 := set_reachable 1 (tx_page tx 1) st0 in
  if decide (meta_freelist (tx_meta tx) = pgidNoFreelist)
  then Some st1
  else seed_freelist fuel tx 0 st1.

(** ** [tx.checkBucket], lines 70-90: the page visitor *)

(** [p.flags&branchPageFlag != 0] and [p.flags&leafPageFlag != 0] *)
Definition is_branch (p : page) : bool := negb (N.land (flags p) branchPageFlag =? 0).
Definition is_leaf (p : page) : bool := negb (N.land (flags p) leafPageFlag =? 0).

(** Lines 77-81, the body of the loop over the span of [p]. *)
Definition claim_step (p : page) (i : pgid) (st : CheckState) : CheckState :=
  let id' := wrap64 (id p + i) in
  let st1 := if is_reachable st id' then send (ErrMultipleReferences id') st else st in
  set_reachable id' p st1.

(** Lines 76-82: [for i := pgid(0); i <= pgid(p.overflow); i++]. *)
Definition claim_span (p : page) (st : CheckState) : CheckState :=
  for_pgid (N.to_nat (overflow p) + 1) 0 (claim_step p) st.

(** The function literal passed to [forEachPage]. *)
Definition checkBucket_fn (tx : Tx) (p : page) (st : CheckState) : CheckState :=
  let hwm := meta_pgid (tx_meta tx) in
  let st1 := if hwm <? id p then send (ErrOutOfBounds (id p) hwm) st else st in
  let st2 := claim_span p st1 in
  if is_freed st2 (id p) then send (ErrReachableFreed (id p)) st2
  else if (N.land (flags p) branchPageFlag =? 0) && (N.land (flags p) leafPageFlag =? 0)
       then send (ErrInvalidType (id p) (typ (flags p))) st2
       else st2.

(** Modelled from the spec: [forEachPage] of tx.go, the pre-order,
    depth-first walk of the page tree under [pg] that calls [fn] on every
    page and descends into the children of branch pages. *)
Fixpoint forEachPage {S : Type} (fuel : nat) (tx : Tx) (pg : pgid) (depth : nat)
    (fn : page -> nat -> S -> S) (st : S) : option S :=
  match fuel with
  | O => None
  | Datatypes.S fuel' =>
      let p := tx_page tx pg in
      let st1 := fn p depth st in
      if is_branch p
      then foldl (fun acc elem =>
                    s ← acc; forEachPage fuel' tx (bpgid elem) (Datatypes.S depth) fn s)
                 (Some st1) (branchPageElements p)
      else Some st1
  end.

(** ** [tx.recursivelyCheckPagesInternal] *)

(** The bytes of a slice; [nil] has none. *)
Definition slice_bytes (k : option (list byte)) : list byte := default [] k.

(** Modelled from the spec: key comparison is byte-lexicographic over the
    raw key representation ([compareKeys], negative, zero or positive). *)
Fixpoint bytes_compare (a b : list byte) : Z :=
  match a, b with
  | [], [] => 0%Z
  | [], _ :: _ => (-1)%Z
  | _ :: _, [] => 1%Z
  | x :: a', y :: b' =>
      match N.compare (Byte.to_N x) (Byte.to_N y) with
      | Lt => (-1)%Z
      | Gt => 1%Z
      | Eq => bytes_compare a' b'
      end
  end.

Definition compareKeys (l r : option (list byte)) : Z :=
  bytes_compare (slice_bytes l) (slice_bytes r).

(** [k != nil] *)
Definition not_nil (k : option (list byte)) : bool :=
  match k with Some _ => true | None => false end.

Definition Result : Type := list error * option (list byte).

Section Validator.
Variable keyToString : list byte -> string.

(** Lines 124-132: the two checks on a branch element. *)
Definition branch_checks (pg : pgid) (maxKeyOpen : option (list byte)) (pagesStack : list pgid)
    (i : nat) (runningMin : option (list byte)) (elem : branchPageElement) : list error :=
  (if (i =? 0)%nat && not_nil runningMin
        && (0 <? compareKeys runningMin (Some (bkey elem)))%Z
   then [ErrBranchKeyBelowAncestor i (keyToString (bkey elem)) pg pagesStack] else [])
  ++
  (if not_nil maxKeyOpen && (0 <=? compareKeys (Some (bkey elem)) maxKeyOpen)%Z
   then [ErrBranchKeyAboveMax i (keyToString (bkey elem)) pg
           (keyToString (slice_bytes maxKeyOpen)) pagesStack] else []).

(** Lines 122-142: the loop over the elements of a branch page; [elems] are
    the elements from index [i] on, [rec] the recursive call. *)
Fixpoint branch_loop
    (rec : pgid -> option (list byte) -> option (list byte) -> list pgid -> option Result)
    (pg : pgid) (maxKeyOpen : option (list byte)) (pagesStack : list pgid)
    (i : nat) (elems : list branchPageElement)
    (runningMin maxKeyInSubtree : option (list byte)) : option Result :=
  match elems with
  | [] => Some ([], maxKeyInSubtree)
  | elem :: rest =>
      let errs := branch_checks pg maxKeyOpen pagesStack i runningMin elem in
      let maxKey := match rest with
                    | next :: _ => Some (bkey next)
                    | [] => maxKeyOpen
                    end in
      '(errs1, sub) ← rec (bpgid elem) (Some (bkey elem)) maxKey pagesStack;
      '(errs2, res) ← branch_loop rec pg maxKeyOpen pagesStack (Datatypes.S i) rest sub sub;
      Some (errs ++ errs1 ++ errs2, res)
  end.

(** Lines 149-164: the four checks on a leaf element. *)
Definition leaf_checks (pg : pgid) (maxKeyOpen : option (list byte)) (pagesStack : list pgid)
    (i : nat) (runningMin : option (list byte)) (elem : leafPageElement) : list error :=
  (if (i =? 0)%nat && not_nil runningMin
        && (0 <? compareKeys runningMin (Some (lkey elem)))%Z
   then [ErrLeafKeyBelowAncestor i (keyToString (lkey elem)) pg pagesStack] else [])
  ++
  (if (0 <? i)%nat && (0 <? compareKeys runningMin (Some (lkey elem)))%Z
   then [ErrLeafKeyLess i (keyToString (lkey elem)) pg
           (keyToString (slice_bytes runningMin)) pagesStack] else [])
  ++
  (if (0 <? i)%nat && (compareKeys runningMin (Some (lkey elem)) =? 0)%Z
   then [ErrLeafKeyEqual i (keyToString (lkey elem)) pg
           (keyToString (slice_bytes runningMin)) pagesStack] else [])
  ++
  (if not_nil maxKeyOpen && (0 <=? compareKeys (Some (lkey elem)) maxKeyOpen)%Z
   then [ErrLeafKeyAboveMax i (keyToString (lkey elem)) pg
           (keyToString (slice_bytes maxKeyOpen)) pagesStack] else []).

(** Lines 146-166: the loop over the elements of a leaf page. *)
Fixpoint leaf_loop (pg : pgid) (maxKeyOpen : option (list byte)) (pagesStack : list pgid)
    (i : nat) (elems : list leafPageElement) (runningMin : option (list byte)) : list error :=
  match elems with
  | [] => []
  | elem :: rest =>
      leaf_checks pg maxKeyOpen pagesStack i runningMin elem
      ++ leaf_loop pg maxKeyOpen pagesStack (Datatypes.S i) rest (Some (lkey elem))
  end.

(** Lines 167-169 and 173: [p.leafPageElement(p.count - 1).key()] when
    [p.count > 0], else [nil]. *)
Definition leaf_result (p : page) : option (list byte) :=
  let count := length (leafPageElements p) in
  if (0 <? count)%nat then lkey <$> (leafPageElements p !! (count - 1)%nat) else None.

Fixpoint recursivelyCheckPagesInternal (fuel : nat) (tx : Tx) (pg : pgid)
    (minKeyClosed maxKeyOpen : option (list byte)) (pagesStack : list pgid) : option Result :=
  match fuel with
  | O => None
  | Datatypes.S fuel' =>
      let p := tx_page tx pg in
      let pagesStack := pagesStack ++ [pg] in
      if is_branch p then
        branch_loop (recursivelyCheckPagesInternal fuel' tx) pg maxKeyOpen pagesStack
          0 (branchPageElements p) minKeyClosed None
      else if is_leaf p then
        Some (leaf_loop pg maxKeyOpen pagesStack 0 (leafPageElements p) minKeyClosed,
              leaf_result p)
      else Some ([ErrUnexpectedPageType pg], None)
  end.

Definition recursivelyCheckPages (fuel : nat) (tx : Tx) (pg : pgid) : option Result :=
  recursivelyCheckPagesInternal fuel tx pg None None [].

End Validator.

(** ** [tx.checkBucket] and [tx.check] *)

Definition sends (errs : list error) (st : CheckState) : CheckState :=
  mkState (ch st ++ errs) (reachable st) (freed st).

Fixpoint checkBucket (fuel : nat) (tx : Tx) (b : Bucket) (ks : KeyValueStringer)
    (st : CheckState) : option CheckState :=
  if root b =? 0 then Some st else
  match fuel with
  | O => None
  | Datatypes.S fuel' =>
      st1 ← forEachPage fuel' tx (root b) 0 (fun p _ => checkBucket_fn tx p) st;
      '(errs, _) ← recursivelyCheckPages (KeyToString ks) fuel' tx (root b);
      foldl (fun acc kv =>
               s ← acc;
               match Bucket_at b kv.1 with
               | Some child => checkBucket fuel' tx child ks s
               | None => Some s
               end)
            (Some (sends errs st1)) (ForEach b)
  end.

(** The errors sent on [ch] by the time it is closed. *)
Definition check (fuel : nat) (ks : KeyValueStringer) (tx : Tx) : option (list error) :=
  let st0 := scan_freed (tx_freelist_all tx) (mkState [] ∅ ∅) in
  st1 ← seed_reachable fuel tx st0;
  st2 ← checkBucket fuel tx (tx_root tx) ks st1;
  Some (ch (sweep (meta_pgid (tx_meta tx)) st2)).

End Checker.

(** ** [HexKeyValueStringer] *)

Definition hex_digit (n : N) : ascii :=
  nth (N.to_nat n) (list_ascii_of_string "0123456789abcdef") "0"%char.

(** [hex.EncodeToString] *)
Fixpoint EncodeToString (bs : list byte) : string :=
  match bs with
  | [] => EmptyString
  | b :: rest =>
      String (hex_digit (Byte.to_N b / 16))
        (String (hex_digit (Byte.to_N b mod 16)) (EncodeToString rest))
  end.

Definition hexKeyValueStringer : KeyValueStringer :=
  mkStringer EncodeToString EncodeToString.

Definition HexKeyValueStringer : KeyValueStringer := hexKeyValueStringer.

(** A stringer that echoes the raw bytes. *)
Definition rawKeyValueStringer : KeyValueStringer :=
  mkStringer string_of_list_byte string_of_list_byte.

(** ** Notions used to state the properties *)

Section Notions.
Context `{PageConsts}.

(** The errors a state transformer sent: what [ch] holds beyond [ch st]. *)
Definition sent_since (st st' : CheckState) : list error :=
  drop (length (ch st)) (ch st').

(** [n] consecutive page ids from [i]. *)
Fixpoint pgid_range (n : nat) (i : pgid) : list pgid :=
  match n with
  | O => []
  | Datatypes.S n' => i :: pgid_range n' (N.succ i)
  end.

(** [c] is referenced by an element of the branch page [p]. *)
Definition child_of (tx : Tx) (c p : pgid) : Prop :=
  is_branch (tx_page tx p) = true /\
  exists elem, In elem (branchPageElements (tx_page tx p)) /\ bpgid elem = c.

(** The page graph under [pg] is a finite tree: every chain of child
    references that starts at [pg] ends. *)
Definition page_tree (tx : Tx) (pg : pgid) : Prop := Acc (child_of tx) pg.

(** [q] is [pg] or a descendant of it. *)
Inductive reaches (tx : Tx) (pg : pgid) : pgid -> Prop :=
| reaches_refl : reaches tx pg pg
| reaches_step q c : reaches tx pg q -> child_of tx c q -> reaches tx pg c.

(** [q] lies on a cycle of child references. *)
Inductive on_cycle (tx : Tx) (q : pgid) : Prop :=
| on_cycle_intro c : child_of tx c q -> reaches tx c q -> on_cycle tx q.

(** [q] is a proper descendant of [a]. *)
Definition below (tx : Tx) (q a : pgid) : Prop :=
  exists c, child_of tx c a /\ reaches tx c q.

(** The pages under [pg] are finitely many and none of them lies on a cycle
    of child references. *)
Definition finite_acyclic (tx : Tx) (pg : pgid) : Prop :=
  (exists l : list pgid, forall q, reaches tx pg q -> q ∈ l) /\
  (forall q, reaches tx pg q -> ~ on_cycle tx q).

(** The keys of the leaf pages of the subtree under [pg], in traversal
    order. *)
Fixpoint subtree_keys (fuel : nat) (tx : Tx) (pg : pgid) : option (list (list byte)) :=
  match fuel with
  | O => None
  | Datatypes.S fuel' =>
      let p := tx_page tx pg in
      if is_branch p then
        foldr (fun elem acc =>
                 ks ← subtree_keys fuel' tx (bpgid elem); rest ← acc; Some (ks ++ rest))
              (Some []) (branchPageElements p)
      else if is_leaf p then Some (map lkey (leafPageElements p))
      else Some []
  end.

(** The last key of the rightmost leaf: follow the last element of every
    branch page; [nil] when the walk ends in a page without elements or in a
    page that is neither a branch nor a leaf. *)
Fixpoint rightmost_key (fuel : nat) (tx : Tx) (pg : pgid) : option (option (list byte)) :=
  match fuel with
  | O => None
  | Datatypes.S fuel' =>
      let p := tx_page tx pg in
      if is_branch p then
        match last (branchPageElements p) with
        | Some elem => rightmost_key fuel' tx (bpgid elem)
        | None => Some None
        end
      else if is_leaf p then Some (lkey <$> last (leafPageElements p))
      else Some None
  end.

(** [k] is a greatest element of [ks] in byte-lexicographic order. *)
Definition greatest_of (ks : list (list byte)) (k : list byte) : Prop :=
  In k ks /\ forall x, In x ks -> (bytes_compare x k <= 0)%Z.

(** [ks] ascends: every key is at most every later one. *)
Definition ascending (ks : list (list byte)) : Prop :=
  forall i j x y, (i < j)%nat -> ks !! i = Some x -> ks !! j = Some y ->
    (bytes_compare x y <= 0)%Z.

(** An error without the text the stringer produced. *)
Definition erase_text (e : error) : error :=
  match e with
  | ErrBranchKeyBelowAncestor i _ pg stack =>
      ErrBranchKeyBelowAncestor i EmptyString pg stack
  | ErrBranchKeyAboveMax i _ pg _ stack =>
      ErrBranchKeyAboveMax i EmptyString pg EmptyString stack
  | ErrLeafKeyBelowAncestor i _ pg stack =>
      ErrLeafKeyBelowAncestor i EmptyString pg stack
  | ErrLeafKeyLess i _ pg _ stack => ErrLeafKeyLess i EmptyString pg EmptyString stack
  | ErrLeafKeyEqual i _ pg _ stack => ErrLeafKeyEqual i EmptyString pg EmptyString stack
  | ErrLeafKeyAboveMax i _ pg _ stack =>
      ErrLeafKeyAboveMax i EmptyString pg EmptyString stack
  | other => other
  end.

Definition erase_state (st : CheckState) : CheckState :=
  mkState (map erase_text (ch st)) (reachable st) (freed st).

(** The stringer that formats every key and value as the empty string. *)
Definition silent : list byte -> string := fun _ => EmptyString.

Definition silentStringer : KeyValueStringer := mkStringer silent silent.

(** A page id the sweep reports: neither reachable nor freed. *)
Definition orphan (st : CheckState) (i : pgid) : bool :=
  negb (is_reachable st i) && negb (is_freed st i).

(** The physical ids of the span of [p], in the order of the loop. *)
Definition span (p : page) : list pgid :=
  (fun i => wrap64 (id p + i)) <$> pgid_range (N.to_nat (overflow p) + 1) 0.

(** Lines 78-81 for the id [x]. *)
Definition claim_id (p : page) (st : CheckState) (x : pgid) : CheckState :=
  set_reachable x p (if is_reachable st x then send (ErrMultipleReferences x) st else st).

(** What the visitor sends after the span loop (lines 85-89). *)
Definition type_checks (p : page) (st : CheckState) : list error :=
  if is_freed st (id p) then [ErrReachableFreed (id p)]
  else if (N.land (flags p) branchPageFlag =? 0) && (N.land (flags p) leafPageFlag =? 0)
       then [ErrInvalidType (id p) (typ (flags p))]
       else [].

(** The duplicate handling as a claim that the first owner is kept. *)
Definition keeps_first_owner (p : page) (st : CheckState) : Prop :=
  forall i, i <= overflow p ->
    let x := wrap64 (id p + i) in
    let st' := claim_span p st in
    match reachable st !! x with
    | Some owner =>
        In (ErrMultipleReferences x) (sent_since st st') /\ reachable st' !! x = Some owner
    | None => reachable st' !! x = Some p
    end.

(** The open upper bound of the child of an element: the key of the next
    element, or the inherited bound for the last one. *)
Definition next_bound (rest : list branchPageElement) (maxKeyOpen : option (list byte))
  : option (list byte) :=
  match rest with
  | next :: _ => Some (bkey next)
  | [] => maxKeyOpen
  end.

(** The keys of the children of a branch page, gathered as [subtree_keys]
    does. *)
Definition gather (fuel : nat) (tx : Tx) (elems : list branchPageElement)
  : option (list (list byte)) :=
  foldr (fun elem acc =>
           ks ← subtree_keys fuel tx (bpgid elem); rest ← acc; Some (ks ++ rest))
        (Some []) elems.

Definition erase_result (out : Result) : Result := (map erase_text out.1, out.2).

Section WithStringer.
Variable keyToString : list byte -> string.

(** From [fuel] on, the validation of [pg] returns for all bounds. *)
Definition returns_with (fuel : nat) (tx : Tx) (pg : pgid) : Prop :=
  forall fuel', (fuel <= fuel')%nat ->
    forall mn mx stack,
      is_Some (recursivelyCheckPagesInternal keyToString fuel' tx pg mn mx stack).

(** The claim that the validator returns the greatest key of the subtree. *)
Definition returns_greatest_key (fuel : nat) (tx : Tx) (pg : pgid) : Prop :=
  forall mn mx stack errs r ks,
    recursivelyCheckPagesInternal keyToString fuel tx pg mn mx stack = Some (errs, r) ->
    subtree_keys fuel tx pg = Some ks ->
    (ks = [] -> r = None) /\
    (ks <> [] -> exists k, r = Some k /\ greatest_of ks k).

(** The claim that the key returned for the previous sibling bounds the
    keys of the next sibling's subtree from below. *)
Definition sibling_bound_enforced (fuel : nat) (tx : Tx) (pg : pgid) : Prop :=
  forall mn mx stack errs r i prev elem errs_prev k ks x,
    is_branch (tx_page tx pg) = true ->
    recursivelyCheckPagesInternal keyToString (Datatypes.S fuel) tx pg mn mx stack
    = Some (errs, r) ->
    branchPageElements (tx_page tx pg) !! i = Some prev ->
    branchPageElements (tx_page tx pg) !! Datatypes.S i = Some elem ->
    recursivelyCheckPagesInternal keyToString fuel tx (bpgid prev)
      (Some (bkey prev)) (Some (bkey elem)) (stack ++ [pg])
    = Some (errs_prev, Some k) ->
    subtree_keys fuel tx (bpgid elem) = Some ks ->
    In x ks -> (bytes_compare x k < 0)%Z ->
    errs <> [].

End WithStringer.

End Notions.

(** ** Notions for the properties of the whole check *)

Section WalkNotions.
Context `{PageConsts}.

(** The errors the page visitor of [checkBucket] sends (lines 70-90). *)
Definition is_visit_error (e : error) : bool :=
  match e with
  | ErrOutOfBounds _ _ | ErrMultipleReferences _ | ErrReachableFreed _
  | ErrInvalidType _ _ => true
  | _ => false
  end.

(** The errors the key-order validation sends (lines 112-174). *)
Definition is_order_error (e : error) : bool :=
  match e with
  | ErrBranchKeyBelowAncestor _ _ _ _ | ErrBranchKeyAboveMax _ _ _ _ _
  | ErrLeafKeyBelowAncestor _ _ _ _ | ErrLeafKeyLess _ _ _ _ _
  | ErrLeafKeyEqual _ _ _ _ _ | ErrLeafKeyAboveMax _ _ _ _ _
  | ErrUnexpectedPageType _ => true
  | _ => false
  end.

(** [st'] comes from [st] by a part of the bucket walk: the freed set is the
    same, no key of the reachability map is lost, and [ch] has grown by
    errors of the walk. *)
Definition extends (st st' : CheckState) : Prop :=
  freed st' = freed st /\
  (forall i, is_reachable st i = true -> is_reachable st' i = true) /\
  exists new, ch st' = ch st ++ new /\
    forall e, In e new -> is_visit_error e || is_order_error e = true.

(** An error is backed by the maps: a page reported as freed is in the freed
    set, a page reported as referenced or of an invalid type is a key of the
    reachability map, a page reported as out of bounds lies beyond the
    high-water mark; an "unreachable unfreed" error is not backed before the
    sweep. *)
Definition backed (tx : Tx) (st : CheckState) (e : error) : Prop :=
  match e with
  | ErrAlreadyFreed i | ErrReachableFreed i => is_freed st i = true
  | ErrMultipleReferences i => is_reachable st i = true
  | ErrInvalidType i _ => is_reachable st (wrap64 i) = true
  | ErrOutOfBounds i h => h = meta_pgid (tx_meta tx) /\ h < i
  | ErrUnreachableUnfreed _ => False
  | _ => True
  end.

(** Every error sent so far is backed by the maps. *)
Definition accounted (tx : Tx) (st : CheckState) : Prop :=
  forall e, In e (ch st) -> backed tx st e.

End WalkNotions.

(** ** Notions for the properties of the key-order validation *)

Section OrderNotions.
Context `{PageConsts}.

(** Every key of [ks] is strictly above the one before it, the first one
    strictly above [prev]. *)
Fixpoint ascends_from (prev : list byte) (ks : list (list byte)) : Prop :=
  match ks with
  | [] => True
  | k :: rest => (bytes_compare prev k < 0)%Z /\ ascends_from k rest
  end.

Definition strictly_ascending (ks : list (list byte)) : Prop :=
  match ks with
  | [] => True
  | k :: rest => ascends_from k rest
  end.

(** The keys respect the inherited bounds as the validation reads them: the
    first key is not below the closed lower bound, every key is strictly
    below the open upper bound; a [nil] bound does not bind. *)
Definition within_bounds (mn mx : option (list byte)) (ks : list (list byte)) : Prop :=
  (forall m k, mn = Some m -> head ks = Some k -> (bytes_compare m k <= 0)%Z) /\
  (forall m k, mx = Some m -> In k ks -> (bytes_compare k m < 0)%Z).

(** The first key of a page, in the view the validation uses for it. *)
Definition first_key (p : page) : option (list byte) :=
  if is_branch p then bkey <$> head (branchPageElements p)
  else if is_leaf p then lkey <$> head (leafPageElements p)
  else None.

(** The page and the page stack an error of the key-order validation names. *)
Definition error_place (e : error) : option (pgid * list pgid) :=
  match e with
  | ErrBranchKeyBelowAncestor _ _ pg stack | ErrBranchKeyAboveMax _ _ pg _ stack
  | ErrLeafKeyBelowAncestor _ _ pg stack | ErrLeafKeyLess _ _ pg _ stack
  | ErrLeafKeyEqual _ _ pg _ stack | ErrLeafKeyAboveMax _ _ pg _ stack => Some (pg, stack)
  | _ => None
  end.

(** [path] is a chain of child references from [a] to [b], both included. *)
Inductive page_path (tx : Tx) : pgid -> list pgid -> pgid -> Prop :=
| path_end a : page_path tx a [a] a
| path_step a c path b :
    child_of tx c a -> page_path tx c path b -> page_path tx a (a :: path) b.

(** The element an error of the key-order validation names exists in the
    view of the page the error is about, and the kind of the error fits its
    index: "ancestor" errors are about element 0, "previous element" errors
    about a later one. *)
Definition names_element (tx : Tx) (e : error) : Prop :=
  match e with
  | ErrBranchKeyBelowAncestor i _ pg _ =>
      is_branch (tx_page tx pg) = true /\ i = 0%nat /\
      (i < length (branchPageElements (tx_page tx pg)))%nat
  | ErrBranchKeyAboveMax i _ pg _ _ =>
      is_branch (tx_page tx pg) = true /\
      (i < length (branchPageElements (tx_page tx pg)))%nat
  | ErrLeafKeyBelowAncestor i _ pg _ =>
      is_branch (tx_page tx pg) = false /\ is_leaf (tx_page tx pg) = true /\ i = 0%nat /\
      (i < length (leafPageElements (tx_page tx pg)))%nat
  | ErrLeafKeyLess i _ pg _ _ | ErrLeafKeyEqual i _ pg _ _ =>
      is_branch (tx_page tx pg) = false /\ is_leaf (tx_page tx pg) = true /\
      (0 < i < length (leafPageElements (tx_page tx pg)))%nat
  | ErrLeafKeyAboveMax i _ pg _ _ =>
      is_branch (tx_page tx pg) = false /\ is_leaf (tx_page tx pg) = true /\
      (i < length (leafPageElements (tx_page tx pg)))%nat
  | ErrUnexpectedPageType pg =>
      is_branch (tx_page tx pg) = false /\ is_leaf (tx_page tx pg) = false
  | _ => False
  end.

(** The running lower bound when the leaf loop reaches element [n]: the
    inherited bound for the first element, the key of the element before
    for a later one. *)
Definition running_min (mn : option (list byte)) (elems : list leafPageElement) (n : nat)
  : option (list byte) :=
  match n with
  | O => mn
  | Datatypes.S m => lkey <$> elems !! m
  end.

End OrderNotions.

(** ** Notions for the stringer and for the completion of the check *)

Section CompletionNotions.
Context `{PageConsts}.

(** The value of a hexadecimal digit, 16 for any other character. *)
Definition hex_value (c : ascii) : N :=
  match List.find (fun n => Ascii.eqb (hex_digit n) c)
                  [0; 1; 2; 3; 4; 5; 6; 7; 8; 9; 10; 11; 12; 13; 14; 15] with
  | Some n => n
  | None => 16
  end.

(** The walk of the bucket can be carried out: the bucket is inline, or the
    pages under its root form a finite tree and the same holds for every
    nested bucket its iteration finds. *)
Inductive walkable (tx : Tx) : Bucket -> Prop :=
| walkable_inline b : root b = 0 -> walkable tx b
| walkable_pages b :
    page_tree tx (root b) ->
    (forall kv child, In kv (ForEach b) -> Bucket_at b kv.1 = Some child ->
                      walkable tx child) ->
    walkable tx b.

End CompletionNotions.

(** ** Concrete pages and transactions *)

(** [fmt.Sprintf] with the verb for two or more hexadecimal digits, for
    the 16-bit flags of a page. *)
Definition hex02 (fl : N) : string :=
  let d (i : N) := hex_digit (fl / 16 ^ i mod 16) in
  String.append (if fl <? 4096 then EmptyString else String (d 3) EmptyString)
    (String.append (if fl <? 256 then EmptyString else String (d 2) EmptyString)
       (String (d 1) (String (d 0) EmptyString))).

(** The constants of page.go and its [typ()]. *)
Definition page_typ (fl : N) : string :=
  if negb (N.land fl 1 =? 0) then "branch"
  else if negb (N.land fl 2 =? 0) then "leaf"
  else if negb (N.land fl 4 =? 0) then "meta"
  else if negb (N.land fl 16 =? 0) then "freelist"
  else String.append "unknown<" (String.append (hex02 fl) ">").

Definition bbolt_consts : PageConsts :=
  {| branchPageFlag := 1; leafPageFlag := 2;
     pgidNoFreelist := 18446744073709551615; typ := page_typ |}.

Definition key_of (s : string) : list byte := list_byte_of_string s.

Definition leaf_page (i : pgid) (ov : N) (keys : list string) : page :=
  mkPage i 2 ov [] (map (fun k => mkLeafElem (key_of k) []) keys).

Definition branch_page (i : pgid) (elems : list (string * pgid)) : page :=
  mkPage i 1 0 (map (fun e => mkBranchElem (key_of e.1) e.2) elems) [].

Definition meta_page (i : pgid) : page := mkPage i 4 0 [] [].

(** The page accessor of a file that holds the pages [l]. *)
Definition pages_of (l : list page) (i : pgid) : page :=
  match List.find (fun p => id p =? i) l with
  | Some p => p
  | None => mkPage i 0 0 [] []
  end.

Definition plain_bucket (r : pgid) : Bucket := mkBucket r [] (fun _ => None).

(** An empty database: the two meta pages, an inline root bucket. *)
Definition tx_empty : Tx :=
  mkTx (pages_of [meta_page 0; meta_page 1]) (mkMeta 2 18446744073709551615) []
       (plain_bucket 0).

(** A root leaf page with the keys "b", "a". *)
Definition tx_unsorted : Tx :=
  mkTx (pages_of [meta_page 0; meta_page 1; leaf_page 2 0 ["b"; "a"]])
       (mkMeta 3 18446744073709551615) [] (plain_bucket 2).

(** A branch page whose second child is a branch page over an empty leaf
    and a leaf that holds "b". *)
Definition tx_siblings : Tx :=
  mkTx (pages_of [meta_page 0; meta_page 1;
                  branch_page 2 [("a", 3); ("m", 4)];
                  leaf_page 3 0 ["a"; "c"];
                  branch_page 4 [("m", 5); ("b", 6)];
                  leaf_page 5 0 [];
                  leaf_page 6 0 ["b"]])
       (mkMeta 7 18446744073709551615) [] (plain_bucket 2).

(** A branch page over two leaves. *)
Definition tx_tree : Tx :=
  mkTx (pages_of [meta_page 0; meta_page 1;
                  branch_page 2 [("a", 3); ("m", 4)];
                  leaf_page 3 0 ["a"; "c"];
                  leaf_page 4 0 ["m"; "z"]])
       (mkMeta 5 18446744073709551615) [] (plain_bucket 2).

(** A branch page over two leaves, the first with a key beyond the next
    separator. *)
Definition tx_above : Tx :=
  mkTx (pages_of [meta_page 0; meta_page 1;
                  branch_page 2 [("a", 3); ("m", 4)];
                  leaf_page 3 0 ["a"; "z"];
                  leaf_page 4 0 ["m"]])
       (mkMeta 5 18446744073709551615) [] (plain_bucket 2).

(** A branch page that refers to itself. *)
Definition tx_cycle : Tx :=
  mkTx (pages_of [meta_page 0; meta_page 1; branch_page 2 [("a", 2)]])
       (mkMeta 3 18446744073709551615) [] (plain_bucket 2).

(** A meta snapshot whose free list is said to start at page 0, with one
    overflow page. *)
Definition tx_freelist_at_0 : Tx :=
  mkTx (pages_of [mkPage 0 16 1 [] []; meta_page 1]) (mkMeta 2 0) [] (plain_bucket 0).

(** A high-water mark of 10 and a leaf page with that id. *)
Definition tx_hwm_10 : Tx :=
  mkTx (pages_of [meta_page 0; meta_page 1; leaf_page 10 0 ["a"]])
       (mkMeta 10 18446744073709551615) [] (plain_bucket 10).

Definition st_empty : CheckState := mkState [] ∅ ∅.

(** Pages 0 to 8 reachable, nothing freed. *)
Definition st_below_9 : CheckState :=
  for_pgid 9 0 (fun i => set_reachable i (meta_page i)) st_empty.

(** Page 5 with one overflow page claimed: ids 5 and 6 are owned by it. *)
Definition st_span_5 : CheckState := claim_span (leaf_page 5 1 []) st_empty.

(** A free list with page 5 listed twice; pages 3, 4 and 6 are lost. *)
Definition tx_double_free : Tx :=
  mkTx (pages_of [meta_page 0; meta_page 1; leaf_page 2 0 ["a"]])
       (mkMeta 8 18446744073709551615) [5; 5; 7] (plain_bucket 2).

(** A branch page whose only child carries the meta flag. *)
Definition tx_bad_type : Tx :=
  mkTx (pages_of [meta_page 0; meta_page 1; branch_page 2 [("a", 3)]; meta_page 3])
       (mkMeta 4 18446744073709551615) [] (plain_bucket 2).

(** * Properties *)

(** ** Shared lemmas on the state and the counting loops *)

Lemma is_freed_set_freed a st x :
  is_freed (set_freed a st) x = if decide (a = x) then true else is_freed st x.
Proof.
  unfold is_freed, set_freed; simpl. rewrite lookup_insert.
  destruct (decide (a = x)); reflexivity.
Qed.

Lemma count_occ_singleton_error (e e' : error) :
  count_occ error_eq_dec [e] e' = if decide (e = e') then 1%nat else 0%nat.
Proof.
  simpl. destruct (error_eq_dec e e'), (decide (e = e')); congruence.
Qed.

Lemma for_pgid_range {S : Type} n i (body : pgid -> S -> S) st :
  for_pgid n i body st = foldl (fun s j => body j s) st (pgid_range n i).
Proof.
  revert i st. induction n as [|n IH]; intros i st; simpl; [reflexivity|apply IH].
Qed.

Lemma elem_of_pgid_range n i x :
  x ∈ pgid_range n i <-> i <= x /\ x < i + N.of_nat n.
Proof.
  revert i. induction n as [|n IH]; intros i; simpl.
  - rewrite elem_of_nil. lia.
  - rewrite elem_of_cons, IH. lia.
Qed.

Lemma NoDup_pgid_range n i : NoDup (pgid_range n i).
Proof.
  revert i. induction n as [|n IH]; intros i; simpl; constructor.
  - rewrite elem_of_pgid_range. lia.
  - apply IH.
Qed.

(** Counting the images of a duplicate-free list under an injective error
    constructor. *)
Lemma count_occ_map_filter (f : pgid -> error) (P : pgid -> bool) l x :
  (forall a b, f a = f b -> a = b) -> NoDup l ->
  count_occ error_eq_dec (map f (List.filter P l)) (f x)
  = if bool_decide (x ∈ l) && P x then 1%nat else 0%nat.
Proof.
  intros Hinj Hnd. induction Hnd as [|a l Hnotin Hnd IH]; simpl; [reflexivity|].
  destruct (decide (a = x)) as [->|Hne].
  - rewrite (bool_decide_eq_true_2 (x ∈ x :: l)) by left. simpl.
    assert (Hx : bool_decide (x ∈ l) = false) by (apply bool_decide_eq_false_2; exact Hnotin).
    rewrite Hx in IH. simpl in IH.
    destruct (P x); simpl; [|exact IH].
    destruct (error_eq_dec (f x) (f x)); [|congruence]. rewrite IH. reflexivity.
  - assert (Hx : bool_decide (x ∈ a :: l) = bool_decide (x ∈ l)).
    { apply bool_decide_ext. rewrite elem_of_cons. intuition congruence. }
    rewrite Hx. destruct (P a); simpl; [|exact IH].
    destruct (error_eq_dec (f a) (f x)) as [Heq|_]; [apply Hinj in Heq; congruence|exact IH].
Qed.

(** ** The free-set scan *)

Lemma scan_step_ch st a :
  ch (scan_step st a) = ch st ++ (if is_freed st a then [ErrAlreadyFreed a] else []).
Proof.
  unfold scan_step. destruct (is_freed st a); simpl; [reflexivity|].
  rewrite app_nil_r. reflexivity.
Qed.

Lemma scan_step_freed st a x :
  is_freed (scan_step st a) x = if decide (a = x) then true else is_freed st x.
Proof.
  unfold scan_step. rewrite is_freed_set_freed.
  destruct (is_freed st a); reflexivity.
Qed.

Lemma scan_step_reachable st a : reachable (scan_step st a) = reachable st.
Proof. unfold scan_step. destruct (is_freed st a); reflexivity. Qed.

Lemma scan_freed_spec all st :
  reachable (scan_freed all st) = reachable st /\
  (forall x, is_freed (scan_freed all st) x = is_freed st x || bool_decide (x ∈ all)) /\
  exists new, ch (scan_freed all st) = ch st ++ new /\
    (forall e, In e new -> exists x, e = ErrAlreadyFreed x) /\
    (forall x, count_occ error_eq_dec new (ErrAlreadyFreed x)
               = if is_freed st x then count_occ N.eq_dec all x
                 else Nat.pred (count_occ N.eq_dec all x)).
Proof.
  revert st. induction all as [|a all IH]; intros st.
  - split; [reflexivity|]. split.
    + intros x. simpl. rewrite orb_false_r. reflexivity.
    + exists []. simpl. rewrite app_nil_r. split; [reflexivity|].
      split; [intros e []|]. intros x. destruct (is_freed st x); reflexivity.
  - unfold scan_freed in *. simpl foldl.
    destruct (IH (scan_step st a)) as (Hr & Hf & new & Hch & Hall & Hcount).
    split; [rewrite Hr; apply scan_step_reachable|]. split.
    + intros x. rewrite Hf, scan_step_freed.
      destruct (decide (a = x)) as [->|Hne].
      * rewrite (bool_decide_eq_true_2 (x ∈ x :: all)) by left.
        rewrite orb_true_r. reflexivity.
      * f_equal. apply bool_decide_ext. rewrite elem_of_cons. intuition congruence.
    + exists ((if is_freed st a then [ErrAlreadyFreed a] else []) ++ new).
      split; [rewrite Hch, scan_step_ch, <- app_assoc; reflexivity|]. split.
      * intros e He. apply in_app_or in He. destruct He as [He|He]; [|auto].
        destruct (is_freed st a); [|destruct He].
        destruct He as [<-|[]]. eauto.
      * intros x. rewrite count_occ_app, Hcount, scan_step_freed.
        assert (Hone : count_occ error_eq_dec
                         (if is_freed st a then [ErrAlreadyFreed a] else [])
                         (ErrAlreadyFreed x)
                       = if is_freed st a && bool_decide (a = x) then 1%nat else 0%nat).
        { destruct (is_freed st a); [|reflexivity].
          rewrite count_occ_singleton_error. simpl.
          destruct (decide (a = x)) as [->|Hne].
          - rewrite decide_True, bool_decide_eq_true_2 by reflexivity. reflexivity.
          - rewrite decide_False, bool_decide_eq_false_2 by congruence. reflexivity. }
        rewrite Hone. destruct (decide (a = x)) as [->|Hne].
        -- rewrite count_occ_cons_eq by reflexivity.
           rewrite bool_decide_eq_true_2 by reflexivity.
           destruct (is_freed st x); simpl; reflexivity.
        -- rewrite count_occ_cons_neq by exact Hne.
           rewrite bool_decide_eq_false_2 by exact Hne.
           rewrite andb_false_r. reflexivity.
Qed.

(** C5. For every page id [x] that occurs [k] times in the id list copied
    out of the free list, the scan sends [k - 1] "already freed" errors for
    [x] when [k > 1] and none when [k <= 1]; it sends nothing else, and the
    freed set holds exactly the ids that occur in the list. *)
Theorem scan_freed_double_freed (all : list pgid) :
  let st := scan_freed all (mkState [] ∅ ∅) in
  (forall x, count_occ error_eq_dec (ch st) (ErrAlreadyFreed x)
             = (count_occ N.eq_dec all x - 1)%nat) /\
  (forall e, In e (ch st) -> exists x, e = ErrAlreadyFreed x) /\
  (forall x, is_freed st x = bool_decide (x ∈ all)).
Proof.
  destruct (scan_freed_spec all (mkState [] ∅ ∅)) as (_ & Hf & new & Hch & Hall & Hcount).
  simpl in Hch. cbv zeta. rewrite Hch. split; [|split].
  - intros x. rewrite Hcount. unfold is_freed. simpl. rewrite lookup_empty. simpl. lia.
  - exact Hall.
  - intros x. rewrite Hf. unfold is_freed. simpl. rewrite lookup_empty. reflexivity.
Qed.

(** ** The final sweep *)

Lemma sweep_fold l st :
  let st' := foldl (fun s j => sweep_step j s) st l in
  reachable st' = reachable st /\ freed st' = freed st /\
  ch st' = ch st ++ map ErrUnreachableUnfreed (List.filter (orphan st) l).
Proof.
  revert st. induction l as [|a l IH]; intros st; simpl.
  - rewrite app_nil_r. auto.
  - destruct (IH (sweep_step a st)) as (Hr & Hf & Hch).
    assert (Hmaps : reachable (sweep_step a st) = reachable st
                    /\ freed (sweep_step a st) = freed st).
    { unfold sweep_step. destruct (negb _ && negb _); auto. }
    destruct Hmaps as [Hr1 Hf1].
    assert (Horph : forall j, orphan (sweep_step a st) j = orphan st j).
    { intros j. unfold orphan, is_reachable, is_freed. rewrite Hr1, Hf1. reflexivity. }
    rewrite Hr, Hf, Hch. repeat split; auto.
    rewrite (filter_ext _ _ Horph).
    unfold sweep_step. fold (orphan st a).
    destruct (orphan st a); simpl; [|reflexivity].
    rewrite <- app_assoc. reflexivity.
Qed.

Lemma sweep_ch hwm st :
  ch (sweep hwm st)
  = ch st ++ map ErrUnreachableUnfreed
               (List.filter (orphan st) (pgid_range (N.to_nat hwm) 0)).
Proof.
  unfold sweep. rewrite for_pgid_range.
  apply (sweep_fold (pgid_range (N.to_nat hwm) 0) st).
Qed.

Lemma filter_none {A : Type} (P : A -> bool) (l : list A) :
  (forall x, In x l -> P x = false) -> List.filter P l = [].
Proof.
  induction l as [|a l IH]; intros Hall; simpl; [reflexivity|].
  rewrite (Hall a) by (left; reflexivity). apply IH.
  intros x Hx. apply Hall. right. exact Hx.
Qed.

(** C1. The final sweep sends "unreachable unfreed" for a page id [i] exactly
    when [i] is below the high-water mark and is neither a key of the
    reachability map nor freed; it sends it once for such an id, sends
    nothing else and leaves both maps as they are. *)
Theorem sweep_unreachable_unfreed (hwm : pgid) (st : CheckState) :
  reachable (sweep hwm st) = reachable st /\
  freed (sweep hwm st) = freed st /\
  exists new, ch (sweep hwm st) = ch st ++ new /\
    (forall e, In e new -> exists i, e = ErrUnreachableUnfreed i) /\
    (forall i, count_occ error_eq_dec new (ErrUnreachableUnfreed i)
               = if (i <? hwm) && negb (is_reachable st i) && negb (is_freed st i)
                 then 1%nat else 0%nat).
Proof.
  unfold sweep. rewrite for_pgid_range.
  destruct (sweep_fold (pgid_range (N.to_nat hwm) 0) st) as (Hr & Hf & Hch).
  split; [exact Hr|]. split; [exact Hf|].
  eexists. split; [exact Hch|]. split.
  - intros e He. apply in_map_iff in He. destruct He as (i & <- & _). eauto.
  - intros i. rewrite count_occ_map_filter.
    + assert (Hin : bool_decide (i ∈ pgid_range (N.to_nat hwm) 0) = (i <? hwm)).
      { destruct (N.ltb_spec i hwm).
        - apply bool_decide_eq_true_2. apply elem_of_pgid_range. lia.
        - apply bool_decide_eq_false_2. rewrite elem_of_pgid_range. lia. }
      rewrite Hin. unfold orphan. rewrite andb_assoc. reflexivity.
    + intros a b Hab. congruence.
    + apply NoDup_pgid_range.
Qed.

(** ** The page visitor of [checkBucket] *)

Section Visitor.
Context `{PageConsts}.

Lemma wrap64_add_inj a i j :
  i < 2 ^ 64 -> j < 2 ^ 64 -> wrap64 (a + i) = wrap64 (a + j) -> i = j.
Proof.
  unfold wrap64. change (2 ^ 64) with 18446744073709551616. intros Hi Hj Heq.
  pose proof (N.div_mod (a + i) 18446744073709551616 ltac:(lia)) as H1.
  pose proof (N.div_mod (a + j) 18446744073709551616 ltac:(lia)) as H2.
  rewrite Heq in H1.
  generalize dependent ((a + i) / 18446744073709551616).
  generalize dependent ((a + j) / 18446744073709551616).
  generalize dependent ((a + j) mod 18446744073709551616).
  intros. lia.
Qed.

Lemma elem_of_span p x :
  x ∈ span p <-> exists i, i <= overflow p /\ x = wrap64 (id p + i).
Proof.
  unfold span. rewrite list_elem_of_fmap. split.
  - intros (i & -> & Hi). apply elem_of_pgid_range in Hi. exists i. split; [lia|reflexivity].
  - intros (i & Hi & ->). exists i. split; [reflexivity|].
    apply elem_of_pgid_range. lia.
Qed.

Lemma NoDup_span p : overflow p < 2 ^ 32 -> NoDup (span p).
Proof.
  intros Hov. unfold span. apply NoDup_fmap_2_strong; [|apply NoDup_pgid_range].
  intros i j Hi Hj. apply elem_of_pgid_range in Hi, Hj.
  assert (2 ^ 32 < 2 ^ 64) by reflexivity.
  apply wrap64_add_inj; lia.
Qed.

Lemma claim_span_fold p st : claim_span p st = foldl (claim_id p) st (span p).
Proof.
  unfold claim_span, span. rewrite for_pgid_range.
  generalize (pgid_range (N.to_nat (overflow p) + 1) 0). intros l. revert st.
  induction l as [|a l IH]; intros st; simpl; [reflexivity|]. rewrite IH. reflexivity.
Qed.

Lemma is_reachable_claim_id p st a x :
  is_reachable (claim_id p st a) x = bool_decide (a = x) || is_reachable st x.
Proof.
  unfold claim_id, is_reachable, set_reachable. simpl. rewrite lookup_insert.
  destruct (decide (a = x)) as [->|Hne].
  - rewrite (bool_decide_eq_true_2 (x = x)) by reflexivity. reflexivity.
  - rewrite (bool_decide_eq_false_2 (a = x)) by exact Hne. simpl.
    destruct (bool_decide (is_Some (reachable st !! a))); reflexivity.
Qed.

Lemma claim_fold p l st :
  NoDup l ->
  let st' := foldl (claim_id p) st l in
  freed st' = freed st /\
  (forall x, reachable st' !! x = if bool_decide (x ∈ l) then Some p else reachable st !! x) /\
  ch st' = ch st ++ map ErrMultipleReferences (List.filter (is_reachable st) l).
Proof.
  intros Hnd. revert st. induction Hnd as [|a l Hnotin Hnd IH]; intros st; simpl.
  - rewrite app_nil_r. repeat split.
  - destruct (IH (claim_id p st a)) as (Hf & Hr & Hch). split; [|split].
    + rewrite Hf. unfold claim_id. destruct (is_reachable st a); reflexivity.
    + intros x. rewrite Hr. destruct (decide (x = a)) as [->|Hne].
      * rewrite (bool_decide_eq_false_2 (a ∈ l)) by exact Hnotin.
        rewrite (bool_decide_eq_true_2 (a ∈ a :: l)) by left.
        unfold claim_id, set_reachable. simpl. apply lookup_insert_eq.
      * assert (Hb : bool_decide (x ∈ a :: l) = bool_decide (x ∈ l)).
        { apply bool_decide_ext. rewrite elem_of_cons. intuition congruence. }
        rewrite Hb. destruct (bool_decide (x ∈ l)); [reflexivity|].
        unfold claim_id, set_reachable. simpl. rewrite lookup_insert_ne by congruence.
        destruct (is_reachable st a); reflexivity.
    + rewrite Hch.
      assert (Hfil : List.filter (is_reachable (claim_id p st a)) l
                     = List.filter (is_reachable st) l).
      { apply filter_ext_in. intros x Hx. rewrite is_reachable_claim_id.
        rewrite bool_decide_eq_false_2; [reflexivity|].
        intros ->. apply Hnotin. apply list_elem_of_In. exact Hx. }
      rewrite Hfil. unfold claim_id.
      destruct (is_reachable st a); simpl; [|reflexivity].
      rewrite <- app_assoc. reflexivity.
Qed.

Lemma checkBucket_fn_spec tx p st :
  overflow p < 2 ^ 32 ->
  let hwm := meta_pgid (tx_meta tx) in
  let st' := checkBucket_fn tx p st in
  freed st' = freed st /\
  (forall x, reachable st' !! x
             = if bool_decide (x ∈ span p) then Some p else reachable st !! x) /\
  ch st' = ch st
           ++ (if hwm <? id p then [ErrOutOfBounds (id p) hwm] else [])
           ++ map ErrMultipleReferences (List.filter (is_reachable st) (span p))
           ++ type_checks p st.
Proof.
  intros Hov hwm. unfold checkBucket_fn. fold hwm.
  set (st1 := if hwm <? id p then send (ErrOutOfBounds (id p) hwm) st else st).
  assert (H1 : freed st1 = freed st /\ reachable st1 = reachable st /\
               ch st1 = ch st ++ (if hwm <? id p then [ErrOutOfBounds (id p) hwm] else [])).
  { unfold st1. destruct (hwm <? id p); simpl; [auto|]. rewrite app_nil_r. auto. }
  destruct H1 as (Hf1 & Hr1 & Hch1).
  rewrite claim_span_fold.
  destruct (claim_fold p (span p) st1 (NoDup_span p Hov)) as (Hf2 & Hr2 & Hch2).
  set (st2 := foldl (claim_id p) st1 (span p)) in *.
  assert (Hreach : forall x, is_reachable st1 x = is_reachable st x).
  { intros x. unfold is_reachable. rewrite Hr1. reflexivity. }
  rewrite (filter_ext _ _ Hreach) in Hch2.
  assert (Hfr : is_freed st2 (id p) = is_freed st (id p)).
  { unfold is_freed. rewrite Hf2, Hf1. reflexivity. }
  unfold type_checks. rewrite Hfr. cbv zeta.
  assert (Hr : forall x, reachable st2 !! x
                = if bool_decide (x ∈ span p) then Some p else reachable st !! x).
  { intros x. rewrite Hr2, Hr1. reflexivity. }
  destruct (is_freed st (id p)); [|destruct (_ && _)]; simpl;
    (split; [congruence|]); (split; [exact Hr|]);
    rewrite Hch2, Hch1, <- ?app_assoc, ?app_nil_r; reflexivity.
Qed.

End Visitor.

Lemma sent_since_app st st' new : ch st' = ch st ++ new -> sent_since st st' = new.
Proof. intros Hch. unfold sent_since. rewrite Hch. apply drop_app_length. Qed.

Section VisitorClaims.
Context `{PageConsts}.

(** C2 (amended). For every physical id in the span of a visited page, the
    visitor makes the visited page the owner of the id, whether or not the
    id already had an owner, and sends "multiple references" for the id
    once when it had one and not at all when it had none. *)
Theorem claim_span_overwrites (p : page) (st : CheckState) (i : N) :
  overflow p < 2 ^ 32 -> i <= overflow p ->
  let x := wrap64 (id p + i) in
  let st' := claim_span p st in
  reachable st' !! x = Some p /\
  count_occ error_eq_dec (sent_since st st') (ErrMultipleReferences x)
  = if is_reachable st x then 1%nat else 0%nat.
Proof.
  intros Hov Hi x st'. unfold st'. rewrite claim_span_fold.
  destruct (claim_fold p (span p) st (NoDup_span p Hov)) as (_ & Hr & Hch).
  assert (Hx : x ∈ span p) by (apply elem_of_span; eauto).
  split.
  - rewrite Hr. rewrite bool_decide_eq_true_2 by exact Hx. reflexivity.
  - rewrite (sent_since_app _ _ _ Hch).
    rewrite count_occ_map_filter.
    + rewrite bool_decide_eq_true_2 by exact Hx. reflexivity.
    + intros a b Hab. congruence.
    + apply NoDup_span. exact Hov.
Qed.

(** The "out of bounds" errors of one visit. *)
Lemma checkBucket_fn_out_of_bounds tx p st a b :
  overflow p < 2 ^ 32 ->
  In (ErrOutOfBounds a b) (sent_since st (checkBucket_fn tx p st))
  <-> a = id p /\ b = meta_pgid (tx_meta tx) /\ meta_pgid (tx_meta tx) < id p.
Proof.
  intros Hov. destruct (checkBucket_fn_spec tx p st Hov) as (_ & _ & Hch).
  rewrite (sent_since_app _ _ _ Hch). rewrite !in_app_iff. split.
  - intros [Hin|[Hin|Hin]].
    + destruct (N.ltb_spec (meta_pgid (tx_meta tx)) (id p)); [|destruct Hin].
      destruct Hin as [Heq|[]]. inversion Heq. auto.
    + apply in_map_iff in Hin. destruct Hin as (? & Heq & _). discriminate.
    + unfold type_checks in Hin.
      destruct (is_freed st (id p)); [|destruct (_ && _)]; simpl in Hin;
        intuition discriminate.
  - intros (-> & -> & Hlt). left. apply N.ltb_lt in Hlt. rewrite Hlt. left. reflexivity.
Qed.

(** An inline bucket is skipped. *)
Lemma checkBucket_inline fuel tx b ks st :
  root b = 0 -> checkBucket fuel tx b ks st = Some st.
Proof. intros Hroot. destruct fuel; simpl; rewrite Hroot; reflexivity. Qed.

(** C8. [checkBucket] returns at once on a bucket whose root page id is 0:
    it sends nothing and leaves the reachability map and the freed set as
    they are.  Hence the check of an empty database (an inline root bucket,
    no page besides the two meta pages, an empty free list that is not
    persisted) sends nothing. *)
Theorem inline_bucket_skipped (fuel : nat) (tx : Tx) (ks : KeyValueStringer) :
  (forall b st, root b = 0 -> checkBucket fuel tx b ks st = Some st) /\
  (root (tx_root tx) = 0 ->
   tx_freelist_all tx = [] ->
   meta_freelist (tx_meta tx) = pgidNoFreelist ->
   meta_pgid (tx_meta tx) <= 2 ->
   check fuel ks tx = Some []).
Proof.
  split; [intros b st; apply checkBucket_inline|].
  intros Hroot Hfree Hfl Hhwm. unfold check. rewrite Hfree. simpl scan_freed.
  unfold seed_reachable. rewrite decide_True by exact Hfl. simpl.
  rewrite checkBucket_inline by exact Hroot. simpl. f_equal.
  rewrite sweep_ch. simpl ch. rewrite filter_none; [reflexivity|].
  intros x Hx. apply list_elem_of_In, elem_of_pgid_range in Hx.
  unfold orphan. apply andb_false_intro1, negb_false_iff.
  apply bool_decide_eq_true_2. simpl.
  assert (Hcases : x = 0 \/ x = 1) by lia.
  destruct Hcases as [->| ->].
  - rewrite lookup_insert_ne by discriminate. rewrite lookup_insert_eq. eauto.
  - rewrite lookup_insert_eq. eauto.
Qed.

End VisitorClaims.

(** ** Seeding the reachability map *)

Section Seeding.
Context `{PageConsts}.

Lemma wrap32_le x : wrap32 x <= x.
Proof. unfold wrap32. apply N.Div0.mod_le. Qed.

Lemma seed_freelist_post fuel tx i st st' :
  let fl := meta_freelist (tx_meta tx) in
  seed_freelist fuel tx i st = Some st' ->
  ch st' = ch st /\ freed st' = freed st /\
  (forall j, i <= j -> j <= overflow (tx_page tx fl) ->
             reachable st' !! wrap64 (fl + j) = Some (tx_page tx fl)) /\
  (forall x, reachable st' !! x = reachable st !! x \/
             (reachable st' !! x = Some (tx_page tx fl) /\
              exists j, j <= overflow (tx_page tx fl) /\ x = wrap64 (fl + j))).
Proof.
  intros fl. revert i st. induction fuel as [|fuel IH]; intros i st; simpl; [discriminate|].
  fold fl. destruct (N.leb_spec i (overflow (tx_page tx fl))) as [Hle|Hgt].
  - intros Hrun. apply IH in Hrun. destruct Hrun as (Hch & Hfr & Hspan & Hrest).
    assert (Hhere : reachable st' !! wrap64 (fl + i) = Some (tx_page tx fl)).
    { destruct (Hrest (wrap64 (fl + i))) as [Heq|[Heq _]]; [|exact Heq].
      rewrite Heq. simpl. apply lookup_insert_eq. }
    split; [exact Hch|]. split; [exact Hfr|]. split.
    + intros j Hij Hj. destruct (N.eq_dec i j) as [<-|Hne]; [exact Hhere|].
      apply Hspan; [|exact Hj]. pose proof (wrap32_le (i + 1)). lia.
    + intros x. destruct (N.eq_dec x (wrap64 (fl + i))) as [->|Hne].
      * right. split; [exact Hhere|]. exists i. auto.
      * destruct (Hrest x) as [Heq|Hin]; [|right; exact Hin].
        left. rewrite Heq. simpl. apply lookup_insert_ne. congruence.
  - intros [= <-]. repeat split; [intros; lia|auto].
Qed.

Lemma seed_freelist_returns fuel tx i st :
  let ov := overflow (tx_page tx (meta_freelist (tx_meta tx))) in
  ov < 2 ^ 32 - 1 -> i <= ov + 1 -> (N.to_nat (ov + 2 - i) <= fuel)%nat ->
  is_Some (seed_freelist fuel tx i st).
Proof.
  intros ov Hov. revert i st. induction fuel as [|fuel IH]; intros i st Hi Hfuel.
  - lia.
  - simpl. fold ov. destruct (N.leb_spec i ov) as [Hle|Hgt]; [|eauto].
    assert (Hw : wrap32 (i + 1) = i + 1).
    { unfold wrap32. apply N.mod_small.
      change (2 ^ 32) with 4294967296 in *. lia. }
    rewrite Hw. apply IH; lia.
Qed.

(** With the largest 32-bit overflow the loop of lines 42-44 does not end. *)
Lemma seed_freelist_diverges fuel tx i st :
  2 ^ 32 - 1 <= overflow (tx_page tx (meta_freelist (tx_meta tx))) ->
  i < 2 ^ 32 -> seed_freelist fuel tx i st = None.
Proof.
  intros Hov. revert i st. induction fuel as [|fuel IH]; intros i st Hi; simpl; [reflexivity|].
  destruct (N.leb_spec i (overflow (tx_page tx (meta_freelist (tx_meta tx))))) as [_|Hgt].
  - apply IH. unfold wrap32. apply N.mod_lt. discriminate.
  - change (2 ^ 32) with 4294967296 in *. lia.
Qed.

(** C10. Seeding makes page 0 and page 1 and, when the free list is
    persisted, every id of the span of the free-list page keys of the
    reachability map, whatever the map held before: the entries are written
    without a test for presence, so an id of the span that is 0 or 1 ends up
    owned by the free-list page.  Seeding sends no error and does not touch
    the freed set.  It returns whenever the overflow of the free-list page
    is not the largest 32-bit value. *)
Theorem seeding_is_silent (tx : Tx) (st : CheckState) :
  let fl := meta_freelist (tx_meta tx) in
  let pfl := tx_page tx fl in
  (forall fuel st', seed_reachable fuel tx st = Some st' ->
     ch st' = ch st /\ freed st' = freed st /\
     is_Some (reachable st' !! 0) /\ is_Some (reachable st' !! 1) /\
     (fl <> pgidNoFreelist ->
      forall j, j <= overflow pfl -> reachable st' !! wrap64 (fl + j) = Some pfl) /\
     (forall x, (fl = pgidNoFreelist \/ forall j, j <= overflow pfl -> x <> wrap64 (fl + j)) ->
                reachable st' !! x
                = <[1 := tx_page tx 1]> (<[0 := tx_page tx 0]> (reachable st)) !! x)) /\
  (fl = pgidNoFreelist \/ overflow pfl < 2 ^ 32 - 1 ->
   is_Some (seed_reachable (N.to_nat (overflow pfl) + 2) tx st)).
Proof.
  intros fl pfl. unfold seed_reachable. fold fl.
  set (st1 := set_reachable 1 (tx_page tx 1) (set_reachable 0 (tx_page tx 0) st)).
  assert (H0 : is_Some (reachable st1 !! 0)).
  { simpl. rewrite lookup_insert_ne by discriminate. rewrite lookup_insert_eq. eauto. }
  assert (H1 : is_Some (reachable st1 !! 1)).
  { simpl. rewrite lookup_insert_eq. eauto. }
  split.
  - intros fuel st' Hrun. destruct (decide (fl = pgidNoFreelist)) as [Heq|Hne].
    + injection Hrun as <-. repeat split; auto. intros Hne. contradiction.
    + apply seed_freelist_post in Hrun. destruct Hrun as (Hch & Hfr & Hspan & Hrest).
      split; [exact Hch|]. split; [exact Hfr|].
      assert (Hkeep : forall x, is_Some (reachable st1 !! x) -> is_Some (reachable st' !! x)).
      { intros x Hx. destruct (Hrest x) as [Heq|[Heq _]]; rewrite Heq; eauto. }
      split; [auto|]. split; [auto|]. split.
      * intros _ j Hj. apply Hspan; [lia|exact Hj].
      * intros x [Heq|Hout]; [contradiction|].
        destruct (Hrest x) as [Heq|(_ & j & Hj & ->)]; [exact Heq|].
        exfalso. exact (Hout j Hj eq_refl).
  - intros Hterm. destruct (decide (fl = pgidNoFreelist)) as [Heq|Hne]; [eauto|].
    destruct Hterm as [Heq|Hov]; [contradiction|].
    apply seed_freelist_returns; [exact Hov|cbv zeta; lia|cbv zeta; unfold pfl, fl; lia].
Qed.

End Seeding.

(** ** The key-order validator: shape of the recursion *)

Section ValidatorFacts.
Context `{PageConsts}.
Variable keyToString : list byte -> string.

Abbreviation rcpi := (recursivelyCheckPagesInternal keyToString).
Abbreviation bloop := (branch_loop keyToString).

(** One iteration of the branch loop, read backwards. *)
Lemma branch_loop_cons_inv rec pg mx stack i elem rest rm res errs r :
  bloop rec pg mx stack i (elem :: rest) rm res = Some (errs, r) ->
  exists errs1 sub errs2,
    rec (bpgid elem) (Some (bkey elem)) (next_bound rest mx) stack = Some (errs1, sub) /\
    bloop rec pg mx stack (Datatypes.S i) rest sub sub = Some (errs2, r) /\
    errs = branch_checks keyToString pg mx stack i rm elem ++ errs1 ++ errs2.
Proof.
  simpl. fold (next_bound rest mx).
  destruct (rec (bpgid elem) (Some (bkey elem)) (next_bound rest mx) stack)
    as [[errs1 sub]|] eqn:Hcall; simpl; [|discriminate].
  destruct (bloop rec pg mx stack (Datatypes.S i) rest sub sub) as [[errs2 res']|] eqn:Hrest;
    simpl; [|discriminate].
  intros [= <- <-]. exists errs1, sub, errs2. auto.
Qed.

(** The loop returns as soon as every recursive call does. *)
Lemma branch_loop_returns rec pg mx stack i elems rm res :
  (forall elem, In elem elems ->
     forall mn mx' stack', is_Some (rec (bpgid elem) mn mx' stack')) ->
  is_Some (bloop rec pg mx stack i elems rm res).
Proof.
  revert i rm res. induction elems as [|elem rest IH]; intros i rm res Hrec; simpl; [eauto|].
  destruct (Hrec elem (or_introl eq_refl) (Some (bkey elem))
              (match rest with next :: _ => Some (bkey next) | [] => mx end) stack)
    as [[errs1 sub] ->]. simpl.
  destruct (IH (Datatypes.S i) sub sub) as [[errs2 r] ->];
    [intros e He; apply Hrec; right; exact He|]. simpl. eauto.
Qed.

(** A loop that returns made every recursive call return. *)
Lemma branch_loop_calls rec pg mx stack i elems rm res out :
  bloop rec pg mx stack i elems rm res = Some out ->
  forall n elem, elems !! n = Some elem ->
    exists errs_n r_n,
      rec (bpgid elem) (Some (bkey elem)) (next_bound (drop (Datatypes.S n) elems) mx) stack
      = Some (errs_n, r_n) /\
      (forall e, In e errs_n -> In e out.1) /\
      (drop (Datatypes.S n) elems = [] -> out.2 = r_n).
Proof.
  revert i rm res out. induction elems as [|elem0 rest IH]; intros i rm res [errs r] Hrun n elem Hn.
  - rewrite lookup_nil in Hn. discriminate.
  - apply branch_loop_cons_inv in Hrun.
    destruct Hrun as (errs1 & sub & errs2 & Hcall & Hrest & ->).
    destruct n as [|n]; simpl in Hn.
    + injection Hn as <-. simpl drop. rewrite drop_0. exists errs1, sub.
      split; [exact Hcall|]. split.
      * intros e He. simpl. rewrite !in_app_iff. auto.
      * intros ->. simpl in Hrest. injection Hrest as _ <-. reflexivity.
    + destruct (IH _ _ _ _ Hrest n elem Hn) as (errs_n & r_n & Hcall_n & Hincl & Hlast).
      exists errs_n, r_n. split; [exact Hcall_n|]. split.
      * intros e He. simpl. rewrite !in_app_iff. right. right. apply Hincl. exact He.
      * exact Hlast.
Qed.

(** More fuel does not change a result. *)
Lemma branch_loop_mono rec rec' pg mx stack i elems rm res out :
  (forall c mn mx' stack' o, rec c mn mx' stack' = Some o -> rec' c mn mx' stack' = Some o) ->
  bloop rec pg mx stack i elems rm res = Some out ->
  bloop rec' pg mx stack i elems rm res = Some out.
Proof.
  intros Hrec. revert i rm res out.
  induction elems as [|elem rest IH]; intros i rm res [errs r] Hrun; [exact Hrun|].
  apply branch_loop_cons_inv in Hrun.
  destruct Hrun as (errs1 & sub & errs2 & Hcall & Hrest & ->).
  simpl. fold (next_bound rest mx). rewrite (Hrec _ _ _ _ _ Hcall). simpl.
  rewrite (IH _ _ _ _ Hrest). reflexivity.
Qed.

Lemma rcpi_fuel_S fuel tx pg mn mx stack out :
  rcpi fuel tx pg mn mx stack = Some out -> rcpi (Datatypes.S fuel) tx pg mn mx stack = Some out.
Proof.
  revert pg mn mx stack out. induction fuel as [|fuel IH]; intros pg mn mx stack out;
    [discriminate|].
  intros Hrun. simpl in Hrun. change (rcpi (Datatypes.S (Datatypes.S fuel)) tx pg mn mx stack)
    with (let p := tx_page tx pg in
          let pagesStack := stack ++ [pg] in
          if is_branch p then
            bloop (rcpi (Datatypes.S fuel) tx) pg mx pagesStack 0 (branchPageElements p) mn None
          else if is_leaf p then
            Some (leaf_loop keyToString pg mx pagesStack 0 (leafPageElements p) mn,
                  leaf_result p)
          else Some ([ErrUnexpectedPageType pg], None)).
  cbv zeta. destruct (is_branch (tx_page tx pg)); [|exact Hrun].
  eapply branch_loop_mono; [|exact Hrun]. intros c mn' mx' stack' o. apply IH.
Qed.

Lemma rcpi_fuel_mono fuel fuel' tx pg mn mx stack out :
  (fuel <= fuel')%nat ->
  rcpi fuel tx pg mn mx stack = Some out -> rcpi fuel' tx pg mn mx stack = Some out.
Proof.
  induction 1 as [|fuel' _ IH]; [auto|]. intros Hrun. apply rcpi_fuel_S, IH, Hrun.
Qed.

(** ** Termination *)

Lemma page_tree_of_result fuel tx pg mn mx stack out :
  rcpi fuel tx pg mn mx stack = Some out -> page_tree tx pg.
Proof.
  revert pg mn mx stack out. induction fuel as [|fuel IH]; intros pg mn mx stack out;
    [discriminate|].
  simpl. intros Hrun. constructor. intros c [Hbr (elem & Hin & <-)].
  rewrite Hbr in Hrun.
  apply list_elem_of_In, list_elem_of_lookup in Hin. destruct Hin as [n Hn].
  destruct (branch_loop_calls _ _ _ _ _ _ _ _ _ Hrun n elem Hn) as (errs_n & r_n & Hcall & _).
  exact (IH _ _ _ _ _ Hcall).
Qed.

Lemma returns_with_all tx (elems : list branchPageElement) :
  (forall elem, In elem elems -> exists fuel, returns_with keyToString fuel tx (bpgid elem)) ->
  exists fuel, forall elem, In elem elems -> returns_with keyToString fuel tx (bpgid elem).
Proof.
  induction elems as [|elem rest IH]; intros Hall.
  - exists 0%nat. intros elem [].
  - destruct (Hall elem (or_introl eq_refl)) as [f1 H1].
    destruct IH as [f2 H2]; [intros e He; apply Hall; right; exact He|].
    exists (Nat.max f1 f2). intros e [<-|He] fuel' Hle.
    + apply H1. lia.
    + apply (H2 e He). lia.
Qed.

Lemma result_of_page_tree tx pg :
  page_tree tx pg -> exists fuel, returns_with keyToString fuel tx pg.
Proof.
  induction 1 as [pg _ IH].
  destruct (is_branch (tx_page tx pg)) eqn:Hbr.
  - destruct (returns_with_all tx (branchPageElements (tx_page tx pg))) as [fuel Hfuel].
    { intros elem Hin. apply IH. split; [exact Hbr|]. eauto. }
    exists (Datatypes.S fuel). intros fuel' Hle mn mx stack.
    destruct fuel' as [|fuel']; [lia|]. simpl. rewrite Hbr.
    apply branch_loop_returns. intros elem Hin mn' mx' stack'.
    apply (Hfuel elem Hin). lia.
  - exists 1%nat. intros fuel' Hle mn mx stack.
    destruct fuel' as [|fuel']; [lia|]. simpl. rewrite Hbr.
    destruct (is_leaf (tx_page tx pg)); eauto.
Qed.

Lemma page_tree_reaches tx pg q : page_tree tx pg -> reaches tx pg q -> page_tree tx q.
Proof.
  intros Htree. induction 1 as [|q c _ IH Hchild]; [exact Htree|].
  exact (Acc_inv IH Hchild).
Qed.

Lemma reaches_first_step tx a b :
  reaches tx a b -> a = b \/ exists c, child_of tx c a /\ reaches tx c b.
Proof.
  induction 1 as [|q c _ IH Hchild]; [left; reflexivity|]. right.
  destruct IH as [->|(c' & Hc' & Hreach)].
  - exists c. split; [exact Hchild|constructor].
  - exists c'. split; [exact Hc'|]. econstructor; eassumption.
Qed.

Lemma page_tree_no_cycle tx q : page_tree tx q -> ~ on_cycle tx q.
Proof.
  intros Htree [c Hchild Hreach]. revert c Hchild Hreach.
  induction Htree as [q _ IH]. intros c Hchild Hreach.
  destruct (reaches_first_step _ _ _ Hreach) as [->|(c' & Hc' & Hreach')].
  - exact (IH q Hchild q Hchild (reaches_refl tx q)).
  - apply (IH c Hchild c' Hc'). econstructor; eassumption.
Qed.

Lemma reaches_children tx (elems : list branchPageElement) :
  (forall elem, In elem elems ->
     exists l : list pgid, forall q, reaches tx (bpgid elem) q -> q ∈ l) ->
  exists l : list pgid, forall elem, In elem elems ->
    forall q, reaches tx (bpgid elem) q -> q ∈ l.
Proof.
  induction elems as [|elem rest IH]; intros Hall.
  - exists []. intros elem [].
  - destruct (Hall elem (or_introl eq_refl)) as [l1 H1].
    destruct IH as [l2 H2]; [intros e He; apply Hall; right; exact He|].
    exists (l1 ++ l2). intros e [<-|He] q Hq; apply elem_of_app.
    + left. exact (H1 q Hq).
    + right. exact (H2 e He q Hq).
Qed.

(** A finite tree has finitely many pages. *)
Lemma page_tree_finite tx pg :
  page_tree tx pg -> exists l : list pgid, forall q, reaches tx pg q -> q ∈ l.
Proof.
  induction 1 as [pg _ IH].
  destruct (is_branch (tx_page tx pg)) eqn:Hbr.
  - destruct (reaches_children tx (branchPageElements (tx_page tx pg))) as [l Hl].
    { intros elem Hin. apply IH. split; [exact Hbr|]. eauto. }
    exists (pg :: l). intros q Hq. apply elem_of_cons.
    destruct (reaches_first_step _ _ _ Hq) as [->|(c & (_ & elem & Hin & <-) & Hreach)].
    + left. reflexivity.
    + right. exact (Hl elem Hin q Hreach).
  - exists [pg]. intros q Hq.
    destruct (reaches_first_step _ _ _ Hq) as [->|(c & (Hbr' & _) & _)].
    + left.
    + congruence.
Qed.

(** Among finitely many pages without a cycle every chain of child
    references ends: a chain cannot be longer than the list of the pages. *)
Lemma acyclic_chain_ends tx pg (l : list pgid) :
  (forall q, reaches tx pg q -> q ∈ l) ->
  (forall q, reaches tx pg q -> ~ on_cycle tx q) ->
  forall (k : nat) q (above : list pgid),
    NoDup above -> (forall a, a ∈ above -> a ∈ l) ->
    (forall a, a ∈ above -> below tx q a) ->
    reaches tx pg q -> (length l - length above <= k)%nat ->
    page_tree tx q.
Proof.
  intros Hfin Hacyc. induction k as [|k IH]; intros q above Hnd Hsub Hbelow Hreach Hlen;
    constructor; intros c Hchild.
  all: assert (Hfresh : q ∉ above).
  all: try (intros Hin; destruct (Hbelow q Hin) as (c0 & Hc0 & Hreach0);
            apply (Hacyc q Hreach); econstructor; eassumption).
  all: assert (Hnd' : NoDup (q :: above)) by (constructor; assumption).
  all: assert (Hsub' : forall a, a ∈ q :: above -> a ∈ l)
         by (intros a Ha; apply elem_of_cons in Ha; destruct Ha as [->|Ha]; auto).
  all: pose proof (submseteq_length _ _ (NoDup_submseteq _ _ Hnd' Hsub')) as Hle;
       simpl in Hle.
  - lia.
  - apply (IH c (q :: above)); [exact Hnd'|exact Hsub'| |econstructor; eassumption|simpl; lia].
    intros a Ha. apply elem_of_cons in Ha. destruct Ha as [->|Ha].
    + exists c. split; [exact Hchild|constructor].
    + destruct (Hbelow a Ha) as (c0 & Hc0 & Hreach0).
      exists c0. split; [exact Hc0|]. econstructor; eassumption.
Qed.

Lemma finite_acyclic_iff_page_tree tx pg : finite_acyclic tx pg <-> page_tree tx pg.
Proof.
  split.
  - intros [[l Hfin] Hacyc].
    apply (acyclic_chain_ends tx pg l Hfin Hacyc (length l) pg []).
    + constructor.
    + intros a Ha. apply elem_of_nil in Ha. destruct Ha.
    + intros a Ha. apply elem_of_nil in Ha. destruct Ha.
    + constructor.
    + lia.
  - intros Htree. split; [apply page_tree_finite; exact Htree|].
    intros q Hreach. apply page_tree_no_cycle. eapply page_tree_reaches; eassumption.
Qed.

(** C9. The recursive key-order validation returns from a starting page
    exactly when the child references under it form a finite acyclic graph
    (finitely many pages, none on a cycle of child references): then some
    amount of fuel, and every larger one, gives a result for every pair of
    bounds.  The recursion has no guard of its own: when a page on a cycle
    of child references is reachable from the starting page, no amount of
    fuel gives a result. *)
Theorem validation_terminates_iff_tree (tx : Tx) (pg : pgid) :
  (finite_acyclic tx pg <->
   exists fuel, forall fuel', (fuel <= fuel')%nat ->
     forall mn mx stack, is_Some (rcpi fuel' tx pg mn mx stack)) /\
  (forall q, reaches tx pg q -> on_cycle tx q ->
     forall fuel mn mx stack, rcpi fuel tx pg mn mx stack = None).
Proof.
  split; [split|].
  - intros Hfa. apply result_of_page_tree, finite_acyclic_iff_page_tree, Hfa.
  - intros [fuel Hfuel]. apply finite_acyclic_iff_page_tree.
    destruct (Hfuel fuel (le_n fuel) None None []) as [out Hout].
    exact (page_tree_of_result _ _ _ _ _ _ _ Hout).
  - intros q Hreach Hcycle fuel mn mx stack.
    destruct (rcpi fuel tx pg mn mx stack) as [out|] eqn:Hrun; [|reflexivity].
    exfalso. apply (page_tree_no_cycle tx q); [|exact Hcycle].
    eapply page_tree_reaches; [|exact Hreach].
    exact (page_tree_of_result _ _ _ _ _ _ _ Hrun).
Qed.

(** ** The returned key *)

Lemma leaf_result_last p : leaf_result p = lkey <$> last (leafPageElements p).
Proof.
  unfold leaf_result. rewrite last_lookup.
  destruct (leafPageElements p) as [|e l]; [reflexivity|]. simpl length.
  replace (Datatypes.S (length l) - 1)%nat with (Nat.pred (Datatypes.S (length l))) by lia.
  reflexivity.
Qed.

Lemma last_lookup_drop {A : Type} (l : list A) (x : A) :
  last l = Some x ->
  l !! (length l - 1)%nat = Some x /\ drop (Datatypes.S (length l - 1)) l = [].
Proof.
  intros Hlast. rewrite last_lookup in Hlast.
  destruct l as [|a l]; [discriminate|]. simpl length in *.
  replace (Datatypes.S (length l) - 1)%nat with (length l) by lia.
  split; [exact Hlast|]. apply (drop_all (a :: l)).
Qed.

Lemma rcpi_rightmost fuel tx pg mn mx stack errs r :
  rcpi fuel tx pg mn mx stack = Some (errs, r) -> rightmost_key fuel tx pg = Some r.
Proof.
  revert pg mn mx stack errs r. induction fuel as [|fuel IH]; intros pg mn mx stack errs r;
    [discriminate|].
  simpl. destruct (is_branch (tx_page tx pg)).
  - intros Hrun. destruct (last (branchPageElements (tx_page tx pg))) as [elem|] eqn:Hlast.
    + destruct (last_lookup_drop _ _ Hlast) as [Hn Hdrop].
      destruct (branch_loop_calls _ _ _ _ _ _ _ _ _ Hrun _ _ Hn)
        as (errs_n & r_n & Hcall & _ & Hres).
      simpl in Hres. rewrite (Hres Hdrop). exact (IH _ _ _ _ _ _ Hcall).
    + apply last_None in Hlast. rewrite Hlast in Hrun. injection Hrun as _ <-. reflexivity.
  - destruct (is_leaf (tx_page tx pg)).
    + intros [= _ <-]. rewrite leaf_result_last. reflexivity.
    + intros [= _ <-]. reflexivity.
Qed.

Lemma gather_cons_inv fuel tx elem rest ks :
  gather fuel tx (elem :: rest) = Some ks ->
  exists ks1 ks2, subtree_keys fuel tx (bpgid elem) = Some ks1 /\
                  gather fuel tx rest = Some ks2 /\ ks = ks1 ++ ks2.
Proof.
  unfold gather. simpl.
  destruct (subtree_keys fuel tx (bpgid elem)) as [ks1|]; simpl; [|discriminate].
  destruct (foldr _ _ rest) as [ks2|]; simpl; [|discriminate].
  intros [= <-]. eauto.
Qed.

Lemma gather_children fuel tx elems ks elem :
  gather fuel tx elems = Some ks -> In elem elems ->
  exists ks_e, subtree_keys fuel tx (bpgid elem) = Some ks_e /\
               forall k, In k ks_e -> In k ks.
Proof.
  revert ks. induction elems as [|e0 rest IH]; intros ks Hg Hin; [destruct Hin|].
  apply gather_cons_inv in Hg. destruct Hg as (ks1 & ks2 & H1 & H2 & ->).
  destruct Hin as [->|Hin].
  - exists ks1. split; [exact H1|]. intros k Hk. apply in_or_app. auto.
  - destruct (IH _ H2 Hin) as (ks_e & He & Hincl). exists ks_e. split; [exact He|].
    intros k Hk. apply in_or_app. auto.
Qed.

Lemma gather_last fuel tx elems ks elem :
  gather fuel tx elems = Some ks -> last elems = Some elem ->
  exists pre ks_e, subtree_keys fuel tx (bpgid elem) = Some ks_e /\ ks = pre ++ ks_e.
Proof.
  revert ks. induction elems as [|e0 rest IH]; intros ks Hg Hlast; [discriminate|].
  apply gather_cons_inv in Hg. destruct Hg as (ks1 & ks2 & H1 & H2 & ->).
  destruct rest as [|e1 rest].
  - injection Hlast as <-. exists []. exists ks1. split; [exact H1|].
    unfold gather in H2. simpl in H2. injection H2 as <-. rewrite app_nil_r. reflexivity.
  - destruct (IH _ H2 Hlast) as (pre & ks_e & He & ->).
    exists (ks1 ++ pre), ks_e. split; [exact He|]. rewrite app_assoc. reflexivity.
Qed.

Lemma subtree_keys_unfold fuel tx pg :
  subtree_keys (Datatypes.S fuel) tx pg
  = if is_branch (tx_page tx pg) then gather fuel tx (branchPageElements (tx_page tx pg))
    else if is_leaf (tx_page tx pg) then Some (map lkey (leafPageElements (tx_page tx pg)))
    else Some [].
Proof. reflexivity. Qed.

Lemma last_map_lkey (l : list leafPageElement) : last (map lkey l) = lkey <$> last l.
Proof.
  induction l as [|a l IH]; [reflexivity|].
  destruct l as [|b l]; [reflexivity|]. exact IH.
Qed.

Lemma rightmost_is_last fuel tx pg ks r :
  subtree_keys fuel tx pg = Some ks -> rightmost_key fuel tx pg = Some r ->
  (ks = [] -> r = None) /\ (forall k, r = Some k -> last ks = Some k).
Proof.
  revert pg ks r. induction fuel as [|fuel IH]; intros pg ks r; [discriminate|].
  rewrite subtree_keys_unfold. simpl rightmost_key.
  destruct (is_branch (tx_page tx pg)).
  - intros Hg Hr. destruct (last (branchPageElements (tx_page tx pg))) as [elem|] eqn:Hlast.
    + destruct (gather_last _ _ _ _ _ Hg Hlast) as (pre & ks_e & He & ->).
      destruct (IH _ _ _ He Hr) as [Hnil Hsome]. split.
      * intros Happ. apply app_eq_nil in Happ. apply Hnil, Happ.
      * intros k Hk. rewrite last_app, (Hsome k Hk). reflexivity.
    + injection Hr as <-. split; [reflexivity|discriminate].
  - destruct (is_leaf (tx_page tx pg)).
    + intros [= <-] [= <-]. rewrite last_map_lkey. split; [|auto].
      intros Hnil. apply map_eq_nil in Hnil. rewrite Hnil. reflexivity.
    + intros [= <-] [= <-]. split; [reflexivity|discriminate].
Qed.

Lemma subtree_keys_returns fuel tx pg ks mn mx stack :
  subtree_keys fuel tx pg = Some ks -> is_Some (rcpi fuel tx pg mn mx stack).
Proof.
  revert pg ks mn mx stack. induction fuel as [|fuel IH]; intros pg ks mn mx stack;
    [discriminate|].
  rewrite subtree_keys_unfold. simpl.
  destruct (is_branch (tx_page tx pg)).
  - intros Hg. apply branch_loop_returns. intros elem Hin mn' mx' stack'.
    destruct (gather_children _ _ _ _ _ Hg Hin) as (ks_e & He & _).
    exact (IH _ _ _ _ _ He).
  - destruct (is_leaf (tx_page tx pg)); eauto.
Qed.

Lemma bytes_compare_refl k : bytes_compare k k = 0%Z.
Proof.
  induction k as [|b k IH]; [reflexivity|]. simpl. rewrite N.compare_refl. exact IH.
Qed.

Lemma ascending_last_greatest ks k : last ks = Some k -> ascending ks -> greatest_of ks k.
Proof.
  intros Hlast Hasc. rewrite last_lookup in Hlast. split.
  - apply list_elem_of_In. eapply list_elem_of_lookup_2. exact Hlast.
  - intros x Hx. apply list_elem_of_In, list_elem_of_lookup in Hx. destruct Hx as [i Hi].
    pose proof (lookup_lt_Some _ _ _ Hi) as Hlt.
    destruct (decide (i = Nat.pred (length ks))) as [->|Hne].
    + rewrite Hlast in Hi. injection Hi as <-. rewrite bytes_compare_refl. lia.
    + apply (Hasc i (Nat.pred (length ks))); [lia|exact Hi|exact Hlast].
Qed.

(** C6 (amended). On a finite page tree the key-order validation returns
    the last key of the rightmost leaf of the subtree (the page reached by
    following the last element of every branch page), and nil when that
    page has no elements or is neither a branch nor a leaf; it returns nil
    when the subtree holds no key.  A returned key is the last key of the
    subtree in traversal order, hence the greatest key of the subtree when
    the keys of the subtree ascend. *)
Theorem validation_returns_rightmost_key (fuel : nat) (tx : Tx) (pg : pgid)
    (mn mx : option (list byte)) (stack : list pgid) (ks : list (list byte)) :
  subtree_keys fuel tx pg = Some ks ->
  exists errs r,
    rcpi fuel tx pg mn mx stack = Some (errs, r) /\
    rightmost_key fuel tx pg = Some r /\
    (ks = [] -> r = None) /\
    (forall k, r = Some k -> last ks = Some k /\ (ascending ks -> greatest_of ks k)).
Proof.
  intros Hks. destruct (subtree_keys_returns _ _ _ _ mn mx stack Hks) as [[errs r] Hrun].
  exists errs, r. split; [exact Hrun|].
  pose proof (rcpi_rightmost _ _ _ _ _ _ _ _ Hrun) as Hright.
  split; [exact Hright|].
  destruct (rightmost_is_last _ _ _ _ _ Hks Hright) as [Hnil Hlast].
  split; [exact Hnil|]. intros k Hk. split; [auto|].
  apply ascending_last_greatest. auto.
Qed.

(** ** Bounds handed to the children of a branch page *)

Lemma leaf_checks_above_max pg m stack i rm elem :
  (0 <= bytes_compare (lkey elem) m)%Z ->
  In (ErrLeafKeyAboveMax i (keyToString (lkey elem)) pg (keyToString m) stack)
     (leaf_checks keyToString pg (Some m) stack i rm elem).
Proof.
  intros Hcmp. unfold leaf_checks. rewrite !in_app_iff. do 3 right.
  unfold compareKeys. simpl. apply Z.leb_le in Hcmp. rewrite Hcmp. left. reflexivity.
Qed.

Lemma leaf_loop_above_max pg m stack i elems rm elem :
  last elems = Some elem -> (0 <= bytes_compare (lkey elem) m)%Z ->
  leaf_loop keyToString pg (Some m) stack i elems rm <> [].
Proof.
  revert i rm. induction elems as [|a rest IH]; intros i rm Hlast Hcmp; [discriminate|].
  simpl leaf_loop. destruct rest as [|b rest].
  - injection Hlast as ->. intros Hnil.
    pose proof (leaf_checks_above_max pg m stack i rm elem Hcmp) as Hin.
    apply app_eq_nil in Hnil. destruct Hnil as [Hnil _]. rewrite Hnil in Hin. destruct Hin.
  - intros Hnil. apply app_eq_nil in Hnil. destruct Hnil as [_ Hnil].
    exact (IH _ _ Hlast Hcmp Hnil).
Qed.

(** A returned key that is not below the open upper bound is reported. *)
Lemma above_max_reported fuel tx pg mn m stack errs k :
  rcpi fuel tx pg mn (Some m) stack = Some (errs, Some k) ->
  (0 <= bytes_compare k m)%Z -> errs <> [].
Proof.
  revert pg mn stack errs. induction fuel as [|fuel IH]; intros pg mn stack errs;
    [discriminate|].
  simpl. destruct (is_branch (tx_page tx pg)).
  - intros Hrun Hcmp.
    destruct (last (branchPageElements (tx_page tx pg))) as [elem|] eqn:Hlast.
    + destruct (last_lookup_drop _ _ Hlast) as [Hn Hdrop].
      destruct (branch_loop_calls _ _ _ _ _ _ _ _ _ Hrun _ _ Hn)
        as (errs_n & r_n & Hcall & Hincl & Hres).
      simpl in Hres, Hincl. rewrite Hdrop in Hcall. simpl in Hcall.
      rewrite <- (Hres Hdrop) in Hcall.
      pose proof (IH _ _ _ _ Hcall Hcmp) as Hne.
      destruct errs_n as [|e errs_n]; [congruence|].
      intros ->. exact (Hincl e (or_introl eq_refl)).
    + apply last_None in Hlast. rewrite Hlast in Hrun. discriminate.
  - destruct (is_leaf (tx_page tx pg)); [|discriminate].
    intros [= <- Hres] Hcmp. rewrite leaf_result_last in Hres.
    destruct (last (leafPageElements (tx_page tx pg))) as [elem|] eqn:Hlast; [|discriminate].
    injection Hres as <-. eapply leaf_loop_above_max; eassumption.
Qed.

Lemma bytes_compare_trans a b c :
  (bytes_compare a b < 0)%Z -> (bytes_compare b c < 0)%Z -> (bytes_compare a c < 0)%Z.
Proof.
  revert b c. induction a as [|x a IH]; intros [|y b] [|z c]; simpl; try lia.
  destruct (N.compare_spec (Byte.to_N x) (Byte.to_N y)),
           (N.compare_spec (Byte.to_N y) (Byte.to_N z)),
           (N.compare_spec (Byte.to_N x) (Byte.to_N z));
    intros Hab Hbc; try lia; eapply IH; eassumption.
Qed.

Lemma leaf_loop_nil_below pg m stack i elems rm elem :
  leaf_loop keyToString pg (Some m) stack i elems rm = [] ->
  In elem elems -> (bytes_compare (lkey elem) m < 0)%Z.
Proof.
  revert i rm. induction elems as [|a rest IH]; intros i rm Hnil Hin; [destruct Hin|].
  simpl in Hnil. apply app_eq_nil in Hnil. destruct Hnil as [Hhere Hrest].
  destruct Hin as [->|Hin]; [|exact (IH _ _ Hrest Hin)].
  destruct (Z.lt_ge_cases (bytes_compare (lkey elem) m) 0) as [Hlt|Hge]; [exact Hlt|].
  pose proof (leaf_checks_above_max pg m stack i rm elem Hge) as Habs.
  rewrite Hhere in Habs. destruct Habs.
Qed.

Lemma branch_checks_nil_below pg m stack i rm elem :
  branch_checks keyToString pg (Some m) stack i rm elem = [] ->
  (bytes_compare (bkey elem) m < 0)%Z.
Proof.
  unfold branch_checks. intros Hnil. apply app_eq_nil in Hnil. destruct Hnil as [_ Hnil].
  unfold compareKeys in Hnil. simpl in Hnil.
  destruct (Z.leb_spec 0 (bytes_compare (bkey elem) m)); [discriminate|assumption].
Qed.

(** The keys gathered under a branch loop that reports nothing lie below
    the open upper bound, when that holds for the recursive calls. *)
Lemma branch_loop_keys_below fuel tx rec pg m stack i elems rm res r ks x :
  (forall c mn' m' stack' r' ks' x',
     rec c mn' (Some m') stack' = Some ([], r') ->
     subtree_keys fuel tx c = Some ks' -> In x' ks' -> (bytes_compare x' m' < 0)%Z) ->
  bloop rec pg (Some m) stack i elems rm res = Some ([], r) ->
  gather fuel tx elems = Some ks -> In x ks -> (bytes_compare x m < 0)%Z.
Proof.
  intros Hrec. revert i rm res ks.
  induction elems as [|elem rest IH]; intros i rm res ks Hrun Hg Hin.
  - unfold gather in Hg. simpl in Hg. injection Hg as <-. destruct Hin.
  - apply branch_loop_cons_inv in Hrun.
    destruct Hrun as (errs1 & sub & errs2 & Hcall & Hrest & Herrs).
    symmetry in Herrs. apply app_eq_nil in Herrs. destruct Herrs as [_ Herrs].
    apply app_eq_nil in Herrs. destruct Herrs as [-> ->].
    apply gather_cons_inv in Hg. destruct Hg as (ks1 & ks2 & H1 & H2 & ->).
    apply in_app_or in Hin. destruct Hin as [Hin|Hin]; [|exact (IH _ _ _ _ Hrest H2 Hin)].
    destruct rest as [|next rest']; simpl in Hcall.
    + exact (Hrec _ _ _ _ _ _ _ Hcall H1 Hin).
    + apply (bytes_compare_trans _ (bkey next)); [exact (Hrec _ _ _ _ _ _ _ Hcall H1 Hin)|].
      apply branch_loop_cons_inv in Hrest.
      destruct Hrest as (e1 & s1 & e2 & _ & _ & Herrs).
      symmetry in Herrs. apply app_eq_nil in Herrs. destruct Herrs as [Hchecks _].
      exact (branch_checks_nil_below _ _ _ _ _ _ Hchecks).
Qed.

(** Every key of a subtree that is validated without a finding lies
    strictly below the open upper bound of the validation. *)
Lemma keys_below_upper_bound fuel tx pg mn m stack r ks x :
  rcpi fuel tx pg mn (Some m) stack = Some ([], r) ->
  subtree_keys fuel tx pg = Some ks -> In x ks -> (bytes_compare x m < 0)%Z.
Proof.
  revert pg mn m stack r ks x. induction fuel as [|fuel IH]; intros pg mn m stack r ks x;
    [discriminate|].
  rewrite subtree_keys_unfold. simpl rcpi.
  destruct (is_branch (tx_page tx pg)).
  - intros Hrun Hg Hin. eapply branch_loop_keys_below; [|exact Hrun|exact Hg|exact Hin].
    intros c mn' m' stack' r' ks' x'. apply IH.
  - destruct (is_leaf (tx_page tx pg)); [|discriminate].
    intros [= Hnil _] [= <-] Hin. apply in_map_iff in Hin. destruct Hin as (elem & <- & Hin).
    eapply leaf_loop_nil_below; eassumption.
Qed.

(** From the second element on the running lower bound is not read. *)
Lemma branch_loop_running_min rec pg mx stack i elems rm rm' res :
  bloop rec pg mx stack (Datatypes.S i) elems rm res
  = bloop rec pg mx stack (Datatypes.S i) elems rm' res.
Proof. destruct elems as [|elem rest]; reflexivity. Qed.

(** What the branch loop does enforce for the children of a page.  In the
    key-order validation of a branch page, the subtree
    of element [i] is validated with the key of element [i] as its closed
    lower bound and the key of element [i+1] (the inherited bound for the
    last element) as its open upper bound, and what that validation reports
    is reported for the page.  A key of the subtree of element [i], and in
    particular the key returned for that subtree, that is not strictly
    below the key of element [i+1] therefore produces a finding. *)
Theorem branch_children_bounds (fuel : nat) (tx : Tx) (pg : pgid)
    (mn mx : option (list byte)) (stack : list pgid) (errs : list error)
    (r : option (list byte)) (i : nat) (elem : branchPageElement) :
  is_branch (tx_page tx pg) = true ->
  rcpi (Datatypes.S fuel) tx pg mn mx stack = Some (errs, r) ->
  branchPageElements (tx_page tx pg) !! i = Some elem ->
  let upper := match branchPageElements (tx_page tx pg) !! Datatypes.S i with
               | Some next => Some (bkey next)
               | None => mx
               end in
  exists errs_i r_i,
    rcpi fuel tx (bpgid elem) (Some (bkey elem)) upper (stack ++ [pg]) = Some (errs_i, r_i) /\
    (forall e, In e errs_i -> In e errs) /\
    (forall k next, r_i = Some k ->
       branchPageElements (tx_page tx pg) !! Datatypes.S i = Some next ->
       (0 <= bytes_compare k (bkey next))%Z -> errs <> []) /\
    (forall ks x next, subtree_keys fuel tx (bpgid elem) = Some ks -> In x ks ->
       branchPageElements (tx_page tx pg) !! Datatypes.S i = Some next ->
       (0 <= bytes_compare x (bkey next))%Z -> errs <> []).
Proof.
  intros Hbr Hrun Hi upper. simpl in Hrun. rewrite Hbr in Hrun.
  destruct (branch_loop_calls _ _ _ _ _ _ _ _ _ Hrun _ _ Hi)
    as (errs_i & r_i & Hcall & Hincl & _).
  assert (Hupper : next_bound (drop (Datatypes.S i) (branchPageElements (tx_page tx pg))) mx
                   = upper).
  { unfold upper.
    assert (Hl : branchPageElements (tx_page tx pg) !! Datatypes.S i
                 = drop (Datatypes.S i) (branchPageElements (tx_page tx pg)) !! 0%nat).
    { rewrite lookup_drop, Nat.add_0_r. reflexivity. }
    rewrite Hl. destruct (drop _ _); reflexivity. }
  rewrite Hupper in Hcall. exists errs_i, r_i. split; [exact Hcall|]. split; [exact Hincl|].
  split.
  - intros k next -> Hnext Hcmp. unfold upper in Hcall. rewrite Hnext in Hcall.
    pose proof (above_max_reported _ _ _ _ _ _ _ _ Hcall Hcmp) as Hne.
    destruct errs_i as [|e errs_i]; [congruence|].
    intros ->. exact (Hincl e (or_introl eq_refl)).
  - intros ks x next Hks Hin Hnext Hcmp. unfold upper in Hcall. rewrite Hnext in Hcall.
    destruct errs_i as [|e errs_i].
    + pose proof (keys_below_upper_bound _ _ _ _ _ _ _ _ _ Hcall Hks Hin). lia.
    + intros ->. exact (Hincl e (or_introl eq_refl)).
Qed.

End ValidatorFacts.

(** ** The stringer only writes text *)

Section Stringer.
Context `{PageConsts}.

Lemma branch_checks_erase k2s pg mx stack i rm elem :
  map erase_text (branch_checks k2s pg mx stack i rm elem)
  = branch_checks silent pg mx stack i rm elem.
Proof.
  unfold branch_checks. rewrite map_app.
  destruct (_ && _ && _), (_ && _); reflexivity.
Qed.

Lemma leaf_checks_erase k2s pg mx stack i rm elem :
  map erase_text (leaf_checks k2s pg mx stack i rm elem)
  = leaf_checks silent pg mx stack i rm elem.
Proof.
  unfold leaf_checks. rewrite !map_app.
  destruct (_ && _ && _), ((0 <? i)%nat && (0 <? _)%Z), ((0 <? i)%nat && (_ =? 0)%Z),
    (not_nil mx && _); reflexivity.
Qed.

Lemma leaf_loop_erase k2s pg mx stack i elems rm :
  map erase_text (leaf_loop k2s pg mx stack i elems rm)
  = leaf_loop silent pg mx stack i elems rm.
Proof.
  revert i rm. induction elems as [|elem rest IH]; intros i rm; [reflexivity|].
  simpl. rewrite map_app, leaf_checks_erase, IH. reflexivity.
Qed.

Lemma branch_loop_erase k2s rec rec' pg mx stack i elems rm res :
  (forall c mn mx' stack', erase_result <$> rec c mn mx' stack' = rec' c mn mx' stack') ->
  erase_result <$> branch_loop k2s rec pg mx stack i elems rm res
  = branch_loop silent rec' pg mx stack i elems rm res.
Proof.
  intros Hrec. revert i rm res. induction elems as [|elem rest IH]; intros i rm res;
    [reflexivity|].
  simpl. rewrite <- Hrec.
  destruct (rec (bpgid elem) _ _ stack) as [[errs1 sub]|]; simpl; [|reflexivity].
  rewrite <- IH.
  destruct (branch_loop k2s rec pg mx stack (Datatypes.S i) rest sub sub) as [[errs2 r]|];
    simpl; [|reflexivity].
  unfold erase_result. simpl. rewrite !map_app, branch_checks_erase. reflexivity.
Qed.

Lemma rcpi_erase k2s fuel tx pg mn mx stack :
  erase_result <$> recursivelyCheckPagesInternal k2s fuel tx pg mn mx stack
  = recursivelyCheckPagesInternal silent fuel tx pg mn mx stack.
Proof.
  revert pg mn mx stack. induction fuel as [|fuel IH]; intros pg mn mx stack; [reflexivity|].
  simpl. destruct (is_branch (tx_page tx pg)).
  - apply branch_loop_erase. intros c mn' mx' stack'. apply IH.
  - destruct (is_leaf (tx_page tx pg)); simpl; [|reflexivity].
    unfold erase_result. simpl. rewrite leaf_loop_erase. reflexivity.
Qed.

Lemma for_pgid_natural {S T : Type} (h : S -> T) body body' n i st :
  (forall j s, h (body j s) = body' j (h s)) ->
  h (for_pgid n i body st) = for_pgid n i body' (h st).
Proof.
  intros Hbody. revert i st. induction n as [|n IH]; intros i st; simpl; [reflexivity|].
  rewrite IH, Hbody. reflexivity.
Qed.

Lemma forEachPage_natural {S T : Type} (h : S -> T) fn fn' fuel tx pg depth st :
  (forall p d s, h (fn p d s) = fn' p d (h s)) ->
  h <$> forEachPage fuel tx pg depth fn st = forEachPage fuel tx pg depth fn' (h st).
Proof.
  intros Hfn. revert pg depth st. induction fuel as [|fuel IH]; intros pg depth st;
    [reflexivity|].
  simpl. destruct (is_branch (tx_page tx pg)); [|simpl; rewrite Hfn; reflexivity].
  rewrite <- Hfn.
  assert (Hfold : forall elems acc,
    h <$> foldl (fun acc elem =>
                   s ← acc; forEachPage fuel tx (bpgid elem) (Datatypes.S depth) fn s)
                acc elems
    = foldl (fun acc elem =>
               s ← acc; forEachPage fuel tx (bpgid elem) (Datatypes.S depth) fn' s)
            (h <$> acc) elems).
  { induction elems as [|elem rest IHl]; intros acc; [reflexivity|].
    simpl. rewrite IHl. f_equal. destruct acc as [s|]; simpl; [apply IH|reflexivity]. }
  apply Hfold.
Qed.

Lemma erase_state_send e st :
  erase_text e = e -> erase_state (send e st) = send e (erase_state st).
Proof.
  intros He. unfold erase_state, send. simpl. rewrite map_app. simpl. rewrite He. reflexivity.
Qed.

Lemma claim_step_erase p i st :
  erase_state (claim_step p i st) = claim_step p i (erase_state st).
Proof.
  unfold claim_step.
  change (is_reachable (erase_state st)) with (is_reachable st).
  destruct (is_reachable st _); [|reflexivity].
  unfold erase_state, set_reachable, send. simpl. rewrite map_app. reflexivity.
Qed.

Lemma checkBucket_fn_erase tx p st :
  erase_state (checkBucket_fn tx p st) = checkBucket_fn tx p (erase_state st).
Proof.
  unfold checkBucket_fn.
  set (st1 := if _ <? id p then _ else st).
  set (st1' := if _ <? id p then _ else erase_state st).
  assert (H1 : erase_state st1 = st1').
  { unfold st1, st1'. destruct (_ <? id p); [|reflexivity].
    apply erase_state_send. reflexivity. }
  assert (H2 : erase_state (claim_span p st1) = claim_span p st1').
  { rewrite <- H1. unfold claim_span. apply for_pgid_natural. apply claim_step_erase. }
  rewrite <- H2.
  change (is_freed (erase_state (claim_span p st1))) with (is_freed (claim_span p st1)).
  destruct (is_freed _ (id p)); [apply erase_state_send; reflexivity|].
  destruct (_ && _); [apply erase_state_send; reflexivity|reflexivity].
Qed.

Lemma sends_erase errs st :
  erase_state (sends errs st) = sends (map erase_text errs) (erase_state st).
Proof. unfold erase_state, sends. simpl. rewrite map_app. reflexivity. Qed.

Lemma checkBucket_erase fuel tx b ks st :
  erase_state <$> checkBucket fuel tx b ks st
  = checkBucket fuel tx b silentStringer (erase_state st).
Proof.
  revert b st. induction fuel as [|fuel IH]; intros b st; simpl.
  - destruct (root b =? 0); reflexivity.
  - destruct (root b =? 0); [reflexivity|].
    rewrite <- (forEachPage_natural erase_state (fun p _ => checkBucket_fn tx p)
                  (fun p _ => checkBucket_fn tx p))
      by (intros p d s; apply checkBucket_fn_erase).
    destruct (forEachPage fuel tx (root b) 0 _ st) as [st1|]; simpl; [|reflexivity].
    unfold recursivelyCheckPages. rewrite <- (rcpi_erase (KeyToString ks)).
    destruct (recursivelyCheckPagesInternal (KeyToString ks) fuel tx (root b) None None [])
      as [[errs r]|]; simpl; [|reflexivity].
    rewrite <- sends_erase. generalize (sends errs st1). intros st2.
    assert (Hfold : forall (kvs : list (list byte * list byte)) acc,
      erase_state <$> foldl (fun acc kv =>
                     s ← acc;
                     match Bucket_at b kv.1 with
                     | Some child => checkBucket fuel tx child ks s
                     | None => Some s
                     end) acc kvs
      = foldl (fun acc kv =>
                 s ← acc;
                 match Bucket_at b kv.1 with
                 | Some child => checkBucket fuel tx child silentStringer s
                 | None => Some s
                 end) (erase_state <$> acc) kvs).
    { induction kvs as [|kv rest IHl]; intros acc; [reflexivity|].
      simpl. rewrite IHl. f_equal. destruct acc as [s|]; simpl; [|reflexivity].
      destruct (Bucket_at b kv.1); [apply IH|reflexivity]. }
    apply (Hfold (ForEach b) (Some st2)).
Qed.

Lemma scan_freed_erase all st :
  erase_state (scan_freed all st) = scan_freed all (erase_state st).
Proof.
  unfold scan_freed. revert st. induction all as [|a all IH]; intros st; [reflexivity|].
  simpl. rewrite IH. f_equal. unfold scan_step.
  change (is_freed (erase_state st)) with (is_freed st).
  destruct (is_freed st a); [|reflexivity].
  unfold erase_state, set_freed, send. simpl. rewrite map_app. reflexivity.
Qed.

Lemma seed_freelist_erase fuel tx i st :
  erase_state <$> seed_freelist fuel tx i st = seed_freelist fuel tx i (erase_state st).
Proof.
  revert i st. induction fuel as [|fuel IH]; intros i st; [reflexivity|].
  simpl. destruct (i <=? _); [|reflexivity]. rewrite IH. reflexivity.
Qed.

Lemma seed_reachable_erase fuel tx st :
  erase_state <$> seed_reachable fuel tx st = seed_reachable fuel tx (erase_state st).
Proof.
  unfold seed_reachable. destruct (decide _); [reflexivity|].
  rewrite seed_freelist_erase. reflexivity.
Qed.

Lemma sweep_erase hwm st : erase_state (sweep hwm st) = sweep hwm (erase_state st).
Proof.
  unfold sweep. apply for_pgid_natural. intros j s. unfold sweep_step.
  change (is_reachable (erase_state s)) with (is_reachable s).
  change (is_freed (erase_state s)) with (is_freed s).
  destruct (_ && _); [|reflexivity]. apply erase_state_send. reflexivity.
Qed.

Lemma check_erase fuel ks tx :
  map erase_text <$> check fuel ks tx = check fuel silentStringer tx.
Proof.
  unfold check.
  change (scan_freed (tx_freelist_all tx) (mkState [] ∅ ∅))
    with (scan_freed (tx_freelist_all tx) (erase_state (mkState [] ∅ ∅))) at 2.
  rewrite <- scan_freed_erase, <- seed_reachable_erase.
  destruct (seed_reachable fuel tx _) as [st1|]; simpl; [|reflexivity].
  rewrite <- (checkBucket_erase fuel tx (tx_root tx) ks).
  destruct (checkBucket fuel tx (tx_root tx) ks st1) as [st2|]; simpl; [|reflexivity].
  rewrite <- sweep_erase. reflexivity.
Qed.

(** C7. For any two stringers and the same transaction the check either
    returns for both or for neither, and then sends the same errors in the
    same order up to the text the stringer produced: the same number of
    errors, of the same kinds, with the same page ids, element indices and
    page stacks. *)
Theorem stringer_only_formats (fuel : nat) (ks1 ks2 : KeyValueStringer) (tx : Tx) :
  map erase_text <$> check fuel ks1 tx = map erase_text <$> check fuel ks2 tx.
Proof. rewrite !check_erase. reflexivity. Qed.

End Stringer.

(** * Further properties *)

(** ** What the bucket walk does to the state *)

Section WalkFacts.
Context `{PageConsts}.

Lemma extends_refl st : extends st st.
Proof.
  split; [reflexivity|]. split; [auto|]. exists []. rewrite app_nil_r.
  split; [reflexivity|]. intros e [].
Qed.

Lemma extends_trans st1 st2 st3 : extends st1 st2 -> extends st2 st3 -> extends st1 st3.
Proof.
  intros (Hf1 & Hr1 & new1 & Hch1 & Hk1) (Hf2 & Hr2 & new2 & Hch2 & Hk2).
  split; [congruence|]. split; [auto|]. exists (new1 ++ new2).
  split; [rewrite Hch2, Hch1, app_assoc; reflexivity|].
  intros e He. apply in_app_or in He. destruct He; auto.
Qed.

Lemma extends_send e st : is_visit_error e || is_order_error e = true -> extends st (send e st).
Proof.
  intros He. split; [reflexivity|]. split; [auto|]. exists [e].
  split; [reflexivity|]. intros e' [<-|[]]. exact He.
Qed.

Lemma is_reachable_set_reachable i p st x :
  is_reachable st x = true -> is_reachable (set_reachable i p st) x = true.
Proof.
  unfold is_reachable, set_reachable. simpl. intros Hx.
  apply bool_decide_eq_true_2. apply bool_decide_eq_true_1 in Hx.
  rewrite lookup_insert. destruct (decide (i = x)); eauto.
Qed.

Lemma is_reachable_set_reachable_eq i p st : is_reachable (set_reachable i p st) i = true.
Proof.
  unfold is_reachable, set_reachable. simpl. apply bool_decide_eq_true_2.
  rewrite lookup_insert_eq. eauto.
Qed.

Lemma extends_set_reachable i p st : extends st (set_reachable i p st).
Proof.
  split; [reflexivity|]. split; [intros x; apply is_reachable_set_reachable|].
  exists []. simpl. rewrite app_nil_r. split; [reflexivity|]. intros e [].
Qed.

Lemma claim_step_extends p i st : extends st (claim_step p i st).
Proof.
  unfold claim_step. eapply extends_trans; [|apply extends_set_reachable].
  destruct (is_reachable st _); [apply extends_send; reflexivity|apply extends_refl].
Qed.

(** A counting loop keeps what each of its iterations keeps. *)
Lemma for_pgid_rel {S : Type} (R : S -> S -> Prop) body n i st :
  (forall s, R s s) -> (forall s1 s2 s3, R s1 s2 -> R s2 s3 -> R s1 s3) ->
  (forall j s, R s (body j s)) -> R st (for_pgid n i body st).
Proof.
  intros Hrefl Htrans Hbody. revert i st. induction n as [|n IH]; intros i st; simpl; [auto|].
  eapply Htrans; [apply Hbody|apply IH].
Qed.

Lemma checkBucket_fn_extends tx p st : extends st (checkBucket_fn tx p st).
Proof.
  unfold checkBucket_fn.
  set (st1 := if _ <? id p then _ else st).
  assert (H1 : extends st st1).
  { unfold st1. destruct (_ <? id p); [apply extends_send; reflexivity|apply extends_refl]. }
  assert (H2 : extends st1 (claim_span p st1)).
  { unfold claim_span. apply for_pgid_rel;
      [apply extends_refl|apply extends_trans|apply claim_step_extends]. }
  eapply extends_trans; [exact H1|]. eapply extends_trans; [exact H2|].
  destruct (is_freed _ (id p)); [apply extends_send; reflexivity|].
  destruct (_ && _); [apply extends_send; reflexivity|apply extends_refl].
Qed.

(** The page walk keeps what the visitor keeps. *)
Lemma forEachPage_rel {S : Type} (R : S -> S -> Prop) (fn : page -> nat -> S -> S) :
  (forall s, R s s) -> (forall s1 s2 s3, R s1 s2 -> R s2 s3 -> R s1 s3) ->
  (forall p d s, R s (fn p d s)) ->
  forall fuel tx pg depth st st',
    forEachPage fuel tx pg depth fn st = Some st' -> R st st'.
Proof.
  intros Hrefl Htrans Hfn. induction fuel as [|fuel IH]; intros tx pg depth st st';
    [discriminate|].
  simpl. destruct (is_branch (tx_page tx pg)).
  - assert (Hfold : forall elems (acc : option S) s',
      foldl (fun acc elem =>
               s ← acc; forEachPage fuel tx (bpgid elem) (Datatypes.S depth) fn s)
            acc elems = Some s' ->
      exists s0, acc = Some s0 /\ R s0 s').
    { induction elems as [|elem rest IHl]; intros acc s' Hrun; simpl in Hrun.
      - exists s'. auto.
      - apply IHl in Hrun. destruct Hrun as (s1 & Hs1 & HR).
        destruct acc as [s0|]; [|discriminate]. simpl in Hs1.
        exists s0. split; [reflexivity|]. eapply Htrans; [|exact HR]. eapply IH, Hs1. }
    intros Hrun. apply Hfold in Hrun. destruct Hrun as (s0 & [= <-] & HR).
    eapply Htrans; [apply Hfn|exact HR].
  - intros [= <-]. apply Hfn.
Qed.

(** The key-order validation sends errors of its own kinds only. *)
Lemma branch_checks_order k2s pg mx stack i rm elem e :
  In e (branch_checks k2s pg mx stack i rm elem) -> is_order_error e = true.
Proof.
  unfold branch_checks. intros He. apply in_app_or in He.
  destruct (_ && _ && _), (_ && _); simpl in He; intuition (subst; reflexivity).
Qed.

Lemma leaf_checks_order k2s pg mx stack i rm elem e :
  In e (leaf_checks k2s pg mx stack i rm elem) -> is_order_error e = true.
Proof.
  unfold leaf_checks. rewrite !in_app_iff.
  destruct (_ && _ && _), ((0 <? i)%nat && (0 <? _)%Z), ((0 <? i)%nat && (_ =? 0)%Z),
    (not_nil mx && _); simpl; intuition (subst; reflexivity).
Qed.

Lemma leaf_loop_order k2s pg mx stack i elems rm e :
  In e (leaf_loop k2s pg mx stack i elems rm) -> is_order_error e = true.
Proof.
  revert i rm. induction elems as [|elem rest IH]; intros i rm; simpl; [intros []|].
  intros He. apply in_app_or in He. destruct He as [He|He]; [|eauto].
  eapply leaf_checks_order, He.
Qed.

Lemma rcpi_errors_order k2s fuel tx pg mn mx stack errs r e :
  recursivelyCheckPagesInternal k2s fuel tx pg mn mx stack = Some (errs, r) ->
  In e errs -> is_order_error e = true.
Proof.
  revert pg mn mx stack errs r. induction fuel as [|fuel IH]; intros pg mn mx stack errs r;
    [discriminate|].
  simpl. destruct (is_branch (tx_page tx pg)).
  - generalize (stack ++ [pg]) (branchPageElements (tx_page tx pg)) 0%nat mn (@None (list byte)).
    intros stack' elems. revert errs r.
    induction elems as [|elem rest IHl]; intros errs r i rm res Hrun He.
    + injection Hrun as <- _. destruct He.
    + apply branch_loop_cons_inv in Hrun.
      destruct Hrun as (errs1 & sub & errs2 & Hcall & Hrest & ->).
      apply in_app_or in He. destruct He as [He|He]; [eapply branch_checks_order, He|].
      apply in_app_or in He. destruct He as [He|He]; [exact (IH _ _ _ _ _ _ Hcall He)|].
      exact (IHl _ _ _ _ _ Hrest He).
  - destruct (is_leaf (tx_page tx pg)).
    + intros [= <- _]. apply leaf_loop_order.
    + intros [= <- _] [<-|[]]. reflexivity.
Qed.

(** [checkBucket] keeps what the visitor and the sending of validation
    errors keep. *)
Lemma checkBucket_rel (R : CheckState -> CheckState -> Prop) tx :
  (forall s, R s s) -> (forall s1 s2 s3, R s1 s2 -> R s2 s3 -> R s1 s3) ->
  (forall p s, R s (checkBucket_fn tx p s)) ->
  (forall errs s, (forall e, In e errs -> is_order_error e = true) -> R s (sends errs s)) ->
  forall fuel b ks st st', checkBucket fuel tx b ks st = Some st' -> R st st'.
Proof.
  intros Hrefl Htrans Hvisit Hsends. induction fuel as [|fuel IH]; intros b ks st st'; simpl.
  - destruct (root b =? 0); [intros [= <-]; apply Hrefl|discriminate].
  - destruct (root b =? 0); [intros [= <-]; apply Hrefl|].
    destruct (forEachPage fuel tx (root b) 0 _ st) as [st1|] eqn:Hwalk; simpl; [|discriminate].
    apply (forEachPage_rel R (fun p _ => checkBucket_fn tx p) Hrefl Htrans) in Hwalk;
      [|intros p d s; apply Hvisit].
    unfold recursivelyCheckPages.
    destruct (recursivelyCheckPagesInternal _ fuel tx (root b) None None [])
      as [[errs r]|] eqn:Hval; simpl; [|discriminate].
    assert (H2 : R st (sends errs st1)).
    { eapply Htrans; [exact Hwalk|]. apply Hsends. intros e He.
      exact (rcpi_errors_order _ _ _ _ _ _ _ _ _ _ Hval He). }
    revert H2. generalize (sends errs st1). intros st2 H2.
    assert (Hfold : forall (kvs : list (list byte * list byte)) acc s',
      foldl (fun acc kv =>
               s ← acc;
               match Bucket_at b kv.1 with
               | Some child => checkBucket fuel tx child ks s
               | None => Some s
               end) acc kvs = Some s' ->
      exists s0, acc = Some s0 /\ R s0 s').
    { induction kvs as [|kv rest IHl]; intros acc s' Hrun; simpl in Hrun.
      - exists s'. auto.
      - apply IHl in Hrun. destruct Hrun as (s1 & Hs1 & HR).
        destruct acc as [s0|]; [|discriminate]. simpl in Hs1.
        exists s0. split; [reflexivity|]. eapply Htrans; [|exact HR].
        destruct (Bucket_at b kv.1); [eapply IH, Hs1|].
        injection Hs1 as <-. apply Hrefl. }
    intros Hrun. apply Hfold in Hrun. destruct Hrun as (s0 & [= <-] & HR).
    eapply Htrans; eassumption.
Qed.

Lemma extends_sends errs st :
  (forall e, In e errs -> is_order_error e = true) -> extends st (sends errs st).
Proof.
  intros Hk. split; [reflexivity|]. split; [auto|]. exists errs.
  split; [reflexivity|]. intros e He. rewrite (Hk e He). apply orb_true_r.
Qed.

(** X1. The walk of a bucket, its pages, its key order and its nested
    buckets, never changes the freed set, never removes a key from the
    reachability map and never takes back an error: it only appends errors
    of the walk, never "already freed" or "unreachable unfreed". *)
Theorem checkBucket_only_extends (fuel : nat) (tx : Tx) (b : Bucket) (ks : KeyValueStringer)
    (st st' : CheckState) :
  checkBucket fuel tx b ks st = Some st' ->
  freed st' = freed st /\
  (forall i, is_reachable st i = true -> is_reachable st' i = true) /\
  exists new, ch st' = ch st ++ new /\
    forall e, In e new -> is_visit_error e || is_order_error e = true.
Proof.
  apply (checkBucket_rel extends tx extends_refl extends_trans).
  - intros p s. apply checkBucket_fn_extends.
  - apply extends_sends.
Qed.

End WalkFacts.

(** ** The findings of one page visit *)

Section VisitFacts.
Context `{PageConsts}.

(** X2. A visited page is reported as "reachable freed" exactly when its id
    is in the freed set, and as of an "invalid type" exactly when it is not
    freed and carries neither the branch nor the leaf flag; never as
    both, and each at most once. *)
Theorem visit_type_findings (tx : Tx) (p : page) (st : CheckState) :
  overflow p < 2 ^ 32 ->
  let new := sent_since st (checkBucket_fn tx p st) in
  (forall i, count_occ error_eq_dec new (ErrReachableFreed i)
             = if is_freed st (id p) && bool_decide (i = id p) then 1%nat else 0%nat) /\
  (forall i t, count_occ error_eq_dec new (ErrInvalidType i t)
               = if negb (is_freed st (id p)) && negb (is_branch p) && negb (is_leaf p)
                    && bool_decide (i = id p /\ t = typ (flags p))
                 then 1%nat else 0%nat).
Proof.
  intros Hov new. destruct (checkBucket_fn_spec tx p st Hov) as (_ & _ & Hch).
  unfold new. rewrite (sent_since_app _ _ _ Hch).
  assert (Hoob : forall e, is_visit_error e = true ->
            (forall a b, e <> ErrOutOfBounds a b) ->
            count_occ error_eq_dec
              (if meta_pgid (tx_meta tx) <? id p
               then [ErrOutOfBounds (id p) (meta_pgid (tx_meta tx))] else []) e = 0%nat).
  { intros e _ Hne. destruct (_ <? id p); [|reflexivity].
    rewrite count_occ_singleton_error. apply decide_False. intros Heq. eapply Hne. eauto. }
  assert (Hmr : forall e l, (forall a, e <> ErrMultipleReferences a) ->
            count_occ error_eq_dec (map ErrMultipleReferences l) e = 0%nat).
  { intros e l Hne. apply count_occ_not_In. intros Hin. apply in_map_iff in Hin.
    destruct Hin as (a & Ha & _). eapply Hne. eauto. }
  split.
  - intros i. rewrite !count_occ_app, Hoob, Hmr by (reflexivity || discriminate).
    rewrite !Nat.add_0_l. unfold type_checks. destruct (is_freed st (id p)); cbn [andb].
    + rewrite count_occ_singleton_error.
      destruct (decide (i = id p)) as [->|Hne].
      * rewrite decide_True, bool_decide_eq_true_2 by reflexivity. reflexivity.
      * rewrite decide_False, bool_decide_eq_false_2 by congruence. reflexivity.
    + destruct (_ && _); [|reflexivity].
      rewrite count_occ_singleton_error. apply decide_False. discriminate.
  - intros i t. rewrite !count_occ_app, Hoob, Hmr by (reflexivity || discriminate).
    rewrite !Nat.add_0_l. unfold type_checks, is_branch, is_leaf.
    destruct (is_freed st (id p)); cbn [andb negb].
    + rewrite count_occ_singleton_error. apply decide_False. discriminate.
    + rewrite !negb_involutive.
      destruct (_ && _); cbn [andb]; [|reflexivity].
      rewrite count_occ_singleton_error.
      destruct (decide (i = id p /\ t = typ (flags p))) as [[-> ->]|Hne].
      * rewrite decide_True, bool_decide_eq_true_2 by auto. reflexivity.
      * rewrite decide_False, bool_decide_eq_false_2; [reflexivity|exact Hne|].
        intros [= Hi Ht]. apply Hne. split; congruence.
Qed.

(** X3. When two pages are visited one after the other, every physical id
    that lies in the spans of both is reported once as "multiple references"
    by the second visit. *)
Theorem overlapping_spans_reported (tx : Tx) (p q : page) (st : CheckState) (x : pgid) :
  overflow p < 2 ^ 32 -> overflow q < 2 ^ 32 ->
  x ∈ span p -> x ∈ span q ->
  let st1 := checkBucket_fn tx p st in
  count_occ error_eq_dec (sent_since st1 (checkBucket_fn tx q st1)) (ErrMultipleReferences x)
  = 1%nat.
Proof.
  intros Hp Hq Hxp Hxq st1.
  destruct (checkBucket_fn_spec tx p st Hp) as (_ & Hr1 & _). fold st1 in Hr1.
  destruct (checkBucket_fn_spec tx q st1 Hq) as (_ & _ & Hch).
  rewrite (sent_since_app _ _ _ Hch). rewrite !count_occ_app.
  assert (Hreach : is_reachable st1 x = true).
  { unfold is_reachable. apply bool_decide_eq_true_2. rewrite Hr1.
    rewrite bool_decide_eq_true_2 by exact Hxp. eauto. }
  rewrite count_occ_map_filter;
    [|intros a b Hab; congruence|apply NoDup_span; exact Hq].
  rewrite bool_decide_eq_true_2 by exact Hxq. rewrite Hreach. simpl.
  assert (H1 : count_occ error_eq_dec
                 (if meta_pgid (tx_meta tx) <? id q
                  then [ErrOutOfBounds (id q) (meta_pgid (tx_meta tx))] else [])
                 (ErrMultipleReferences x) = 0%nat).
  { destruct (_ <? id q); [|reflexivity].
    rewrite count_occ_singleton_error. apply decide_False. discriminate. }
  assert (H2 : count_occ error_eq_dec (type_checks q st1) (ErrMultipleReferences x) = 0%nat).
  { unfold type_checks. destruct (is_freed st1 (id q)); [|destruct (_ && _)];
      try reflexivity; rewrite count_occ_singleton_error; apply decide_False; discriminate. }
  rewrite H1, H2. reflexivity.
Qed.

End VisitFacts.

(** ** The findings of the whole check *)

Section CheckFacts.
Context `{PageConsts}.

Lemma count_occ_absent (l : list error) (e : error) :
  ~ In e l -> count_occ error_eq_dec l e = 0%nat.
Proof. apply count_occ_not_In. Qed.

Lemma backed_mono tx st st' e :
  (forall i, is_freed st i = true -> is_freed st' i = true) ->
  (forall i, is_reachable st i = true -> is_reachable st' i = true) ->
  backed tx st e -> backed tx st' e.
Proof. intros Hf Hr. destruct e; simpl; auto. Qed.

Lemma accounted_step tx st st' :
  (forall i, is_freed st i = true -> is_freed st' i = true) ->
  (forall i, is_reachable st i = true -> is_reachable st' i = true) ->
  (forall e, In e (ch st') -> In e (ch st) \/ backed tx st' e) ->
  accounted tx st -> accounted tx st'.
Proof.
  intros Hf Hr Hch Hacc e He. destruct (Hch e He) as [Hold|Hnew]; [|exact Hnew].
  eapply backed_mono; [exact Hf|exact Hr|]. apply Hacc, Hold.
Qed.

Lemma accounted_send tx e st : backed tx st e -> accounted tx st -> accounted tx (send e st).
Proof.
  intros He. apply accounted_step; auto.
  intros e' Hin. simpl in Hin. apply in_app_or in Hin.
  destruct Hin as [Hin|[<-|[]]]; [left; exact Hin|right; exact He].
Qed.

Lemma accounted_set_reachable tx i p st :
  accounted tx st -> accounted tx (set_reachable i p st).
Proof.
  apply accounted_step; auto. intros x. apply is_reachable_set_reachable.
Qed.

Lemma accounted_claim_step tx p i st :
  accounted tx st -> accounted tx (claim_step p i st).
Proof.
  intros Hacc. unfold claim_step. apply accounted_set_reachable.
  destruct (is_reachable st _) eqn:Hr; [|exact Hacc].
  apply accounted_send; [exact Hr|exact Hacc].
Qed.

(** The span loop makes the id of the page a key of the map. *)
Lemma claim_span_reaches_id p st : is_reachable (claim_span p st) (wrap64 (id p)) = true.
Proof.
  unfold claim_span. rewrite Nat.add_1_r. simpl.
  destruct (for_pgid_rel extends (claim_step p) (N.to_nat (overflow p)) (N.succ 0)
              (claim_step p 0 st) extends_refl extends_trans (claim_step_extends p))
    as (_ & Hr & _).
  apply Hr. unfold claim_step. rewrite N.add_0_r. apply is_reachable_set_reachable_eq.
Qed.

Lemma accounted_checkBucket_fn tx p st :
  accounted tx st -> accounted tx (checkBucket_fn tx p st).
Proof.
  intros Hacc. unfold checkBucket_fn.
  set (st1 := if _ <? id p then _ else st).
  assert (H1 : accounted tx st1).
  { unfold st1. destruct (N.ltb_spec (meta_pgid (tx_meta tx)) (id p)); [|exact Hacc].
    apply accounted_send; [|exact Hacc]. simpl. auto. }
  assert (H2 : accounted tx (claim_span p st1)).
  { unfold claim_span.
    apply (for_pgid_rel (fun s s' => accounted tx s -> accounted tx s') (claim_step p));
      [auto|auto| |exact H1].
    intros j s. apply accounted_claim_step. }
  destruct (is_freed _ (id p)) eqn:Hfr; [apply accounted_send; [exact Hfr|exact H2]|].
  destruct (_ && _); [|exact H2].
  apply accounted_send; [|exact H2]. simpl. apply claim_span_reaches_id.
Qed.

Lemma accounted_sends tx errs st :
  (forall e, In e errs -> is_order_error e = true) ->
  accounted tx st -> accounted tx (sends errs st).
Proof.
  intros Hk. apply accounted_step; auto.
  intros e Hin. simpl in Hin. apply in_app_or in Hin.
  destruct Hin as [Hin|Hin]; [left; exact Hin|right].
  specialize (Hk e Hin). destruct e; try discriminate; exact I.
Qed.

Lemma accounted_checkBucket fuel tx b ks st st' :
  checkBucket fuel tx b ks st = Some st' -> accounted tx st -> accounted tx st'.
Proof.
  apply (checkBucket_rel (fun s s' => accounted tx s -> accounted tx s') tx); auto.
  - intros p s. apply accounted_checkBucket_fn.
  - intros errs s. apply accounted_sends.
Qed.

Lemma accounted_scan tx all st : accounted tx st -> accounted tx (scan_freed all st).
Proof.
  unfold scan_freed. revert st. induction all as [|a all IH]; intros st Hacc; [exact Hacc|].
  simpl. apply IH. unfold scan_step.
  assert (Hset : forall s, accounted tx s -> accounted tx (set_freed a s)).
  { intros s. apply accounted_step; auto.
    intros i Hi. rewrite is_freed_set_freed. destruct (decide (a = i)); auto. }
  apply Hset. destruct (is_freed st a) eqn:Hfr; [|exact Hacc].
  apply accounted_send; [exact Hfr|exact Hacc].
Qed.

(** What seeding leaves behind. *)
Lemma seed_reachable_post fuel tx st st' :
  let fl := meta_freelist (tx_meta tx) in
  seed_reachable fuel tx st = Some st' ->
  ch st' = ch st /\ freed st' = freed st /\
  (forall i, is_reachable st i = true -> is_reachable st' i = true) /\
  is_reachable st' 0 = true /\ is_reachable st' 1 = true /\
  (fl <> pgidNoFreelist ->
   forall j, j <= overflow (tx_page tx fl) -> is_reachable st' (wrap64 (fl + j)) = true).
Proof.
  intros fl. unfold seed_reachable. fold fl.
  set (st1 := set_reachable 1 (tx_page tx 1) (set_reachable 0 (tx_page tx 0) st)).
  assert (Hr1 : forall i, is_reachable st i = true -> is_reachable st1 i = true).
  { intros i Hi. unfold st1. do 2 apply is_reachable_set_reachable. exact Hi. }
  assert (H0 : is_reachable st1 0 = true).
  { unfold st1. apply is_reachable_set_reachable, is_reachable_set_reachable_eq. }
  assert (H1 : is_reachable st1 1 = true) by apply is_reachable_set_reachable_eq.
  destruct (decide (fl = pgidNoFreelist)) as [Heq|Hne].
  - intros [= <-]. repeat split; auto; intros; contradiction.
  - intros Hrun. apply seed_freelist_post in Hrun. destruct Hrun as (Hch & Hfr & Hspan & Hrest).
    assert (Hkeep : forall x, is_reachable st1 x = true -> is_reachable st' x = true).
    { intros x Hx. unfold is_reachable in *. apply bool_decide_eq_true_1 in Hx.
      apply bool_decide_eq_true_2.
      destruct (Hrest x) as [Heq|[Heq _]]; rewrite Heq; eauto. }
    repeat split; auto.
    intros _ j Hj. unfold is_reachable, fl. apply bool_decide_eq_true_2.
    rewrite (Hspan j); [eauto|lia|exact Hj].
Qed.

(** The state before the sweep and what the check returns from it. *)
Lemma check_final fuel ks tx errs :
  let fl := meta_freelist (tx_meta tx) in
  let st0 := scan_freed (tx_freelist_all tx) (mkState [] ∅ ∅) in
  check fuel ks tx = Some errs ->
  exists st2,
    errs = ch st2 ++ map ErrUnreachableUnfreed
                       (List.filter (orphan st2)
                          (pgid_range (N.to_nat (meta_pgid (tx_meta tx))) 0)) /\
    accounted tx st2 /\
    (exists walk, ch st2 = ch st0 ++ walk /\
       forall e, In e walk -> is_visit_error e || is_order_error e = true) /\
    (forall x, is_freed st2 x = bool_decide (x ∈ tx_freelist_all tx)) /\
    is_reachable st2 0 = true /\ is_reachable st2 1 = true /\
    (fl <> pgidNoFreelist ->
     forall j, j <= overflow (tx_page tx fl) -> is_reachable st2 (wrap64 (fl + j)) = true).
Proof.
  intros fl st0. unfold check. fold st0.
  destruct (seed_reachable fuel tx st0) as [st1|] eqn:Hseed; simpl; [|discriminate].
  destruct (checkBucket fuel tx (tx_root tx) ks st1) as [st2|] eqn:Hwalk; simpl;
    [|discriminate].
  intros [= <-]. exists st2.
  destruct (seed_reachable_post _ _ _ _ Hseed) as (Hch1 & Hfr1 & _ & H0 & H1 & Hspan).
  assert (Hext : extends st1 st2).
  { revert Hwalk. apply (checkBucket_rel extends tx extends_refl extends_trans).
    - intros p s. apply checkBucket_fn_extends.
    - apply extends_sends. }
  destruct Hext as (Hfr2 & Hr2 & walk & Hch2 & Hkinds).
  split; [apply sweep_ch|]. split.
  { eapply accounted_checkBucket; [exact Hwalk|].
    eapply accounted_step;
      [| | |apply (accounted_scan tx (tx_freelist_all tx) (mkState [] ∅ ∅))].
    - intros i. unfold is_freed. rewrite Hfr1. auto.
    - fold st0. apply (seed_reachable_post _ _ _ _ Hseed).
    - intros e He. left. fold st0. rewrite <- Hch1. exact He.
    - intros e []. }
  split; [exists walk; rewrite Hch2, Hch1; auto|]. split.
  { intros x. unfold is_freed. rewrite Hfr2, Hfr1.
    destruct (scan_freed_spec (tx_freelist_all tx) (mkState [] ∅ ∅)) as (_ & Hf & _).
    fold st0 in Hf. unfold is_freed in Hf. rewrite Hf. simpl. rewrite lookup_empty. reflexivity. }
  repeat split; auto.
Qed.

Lemma StronglySorted_filter {A : Type} (R : A -> A -> Prop) (f : A -> bool) l :
  StronglySorted R l -> StronglySorted R (List.filter f l).
Proof.
  induction 1 as [|a l Hs IH Hall]; simpl; [constructor|].
  destruct (f a); [|exact IH]. constructor; [exact IH|].
  rewrite List.Forall_forall in *. intros x Hx. apply filter_In in Hx. apply Hall, Hx.
Qed.

Lemma StronglySorted_pgid_range n i : StronglySorted N.lt (pgid_range n i).
Proof.
  revert i. induction n as [|n IH]; intros i; simpl; constructor; [apply IH|].
  rewrite List.Forall_forall. intros x Hx.
  apply list_elem_of_In, elem_of_pgid_range in Hx. lia.
Qed.

(** X4. An id the check reports as "unreachable unfreed" is below the
    high-water mark, is not page 0 or 1, is not in the free list and, when
    the free list is persisted, is not in the span of the free-list page;
    it is reported once. *)
Theorem unreachable_unfreed_is_unaccounted (fuel : nat) (ks : KeyValueStringer) (tx : Tx)
    (errs : list error) (i : pgid) :
  check fuel ks tx = Some errs ->
  In (ErrUnreachableUnfreed i) errs ->
  i < meta_pgid (tx_meta tx) /\ i <> 0 /\ i <> 1 /\
  (i ∉ tx_freelist_all tx) /\
  (meta_freelist (tx_meta tx) <> pgidNoFreelist ->
   forall j, j <= overflow (tx_page tx (meta_freelist (tx_meta tx))) ->
             i <> wrap64 (meta_freelist (tx_meta tx) + j)) /\
  count_occ error_eq_dec errs (ErrUnreachableUnfreed i) = 1%nat.
Proof.
  intros Hrun Hin.
  destruct (check_final _ _ _ _ Hrun) as (st2 & -> & Hacc & _ & Hfr & H0 & H1 & Hspan).
  apply in_app_or in Hin. destruct Hin as [Hin|Hin]; [destruct (Hacc _ Hin)|].
  apply in_map_iff in Hin. destruct Hin as (i' & [= ->] & Hin).
  apply filter_In in Hin. destruct Hin as [Hrange Horph].
  apply list_elem_of_In, elem_of_pgid_range in Hrange.
  unfold orphan in Horph. apply andb_prop in Horph. destruct Horph as [Hnr Hnf].
  apply negb_true_iff in Hnr, Hnf.
  split; [lia|]. split; [intros ->; congruence|]. split; [intros ->; congruence|]. split.
  { intros Hfree. rewrite Hfr in Hnf. apply bool_decide_eq_false_1 in Hnf. auto. }
  split.
  { intros Hne j Hj ->. rewrite (Hspan Hne j Hj) in Hnr. discriminate. }
  rewrite count_occ_app, (count_occ_absent (ch st2));
    [|intros Hold; destruct (Hacc _ Hold)].
  rewrite count_occ_map_filter;
    [|intros a b Hab; congruence|apply NoDup_pgid_range].
  rewrite bool_decide_eq_true_2 by (apply elem_of_pgid_range; lia).
  unfold orphan. rewrite Hnr, Hnf. reflexivity.
Qed.

(** X5. The findings of one check about one page id exclude each other: an
    id reported as "unreachable unfreed" is not reported as already freed,
    as referenced more than once, as reachable and freed, as out of bounds
    or as of an invalid type. *)
Theorem unreachable_unfreed_exclusive (fuel : nat) (ks : KeyValueStringer) (tx : Tx)
    (errs : list error) (i : pgid) :
  meta_pgid (tx_meta tx) < 2 ^ 64 ->
  check fuel ks tx = Some errs ->
  In (ErrUnreachableUnfreed i) errs ->
  ~ In (ErrAlreadyFreed i) errs /\
  ~ In (ErrMultipleReferences i) errs /\
  ~ In (ErrReachableFreed i) errs /\
  (forall h, ~ In (ErrOutOfBounds i h) errs) /\
  (forall t, ~ In (ErrInvalidType i t) errs).
Proof.
  intros Hhwm Hrun Hin.
  destruct (check_final _ _ _ _ Hrun) as (st2 & -> & Hacc & _).
  assert (Hsplit : forall e, (forall x, e <> ErrUnreachableUnfreed x) ->
            In e (ch st2 ++ map ErrUnreachableUnfreed
                    (List.filter (orphan st2)
                       (pgid_range (N.to_nat (meta_pgid (tx_meta tx))) 0))) ->
            backed tx st2 e).
  { intros e Hne He. apply in_app_or in He. destruct He as [He|He]; [exact (Hacc _ He)|].
    apply in_map_iff in He. destruct He as (x & <- & _). exfalso. exact (Hne x eq_refl). }
  apply in_app_or in Hin. destruct Hin as [Hin|Hin]; [destruct (Hacc _ Hin)|].
  apply in_map_iff in Hin. destruct Hin as (i' & [= ->] & Hin).
  apply filter_In in Hin. destruct Hin as [Hrange Horph].
  apply list_elem_of_In, elem_of_pgid_range in Hrange.
  unfold orphan in Horph. apply andb_prop in Horph. destruct Horph as [Hnr Hnf].
  apply negb_true_iff in Hnr, Hnf.
  repeat split.
  - intros He. apply Hsplit in He; [|discriminate]. simpl in He. congruence.
  - intros He. apply Hsplit in He; [|discriminate]. simpl in He. congruence.
  - intros He. apply Hsplit in He; [|discriminate]. simpl in He. congruence.
  - intros h He. apply Hsplit in He; [|discriminate]. simpl in He. lia.
  - intros t He. apply Hsplit in He; [|discriminate]. simpl in He.
    assert (Hw : wrap64 i = i) by (apply N.mod_small; lia).
    rewrite Hw in He. congruence.
Qed.


(** X7. The errors of a check come in three runs: first the "already freed"
    errors of the scan, then the errors of the bucket walk, last the
    "unreachable unfreed" errors of the sweep, in ascending order of the
    page id. *)
Theorem check_sends_in_phases (fuel : nat) (ks : KeyValueStringer) (tx : Tx)
    (errs : list error) :
  check fuel ks tx = Some errs ->
  exists scan walk ids,
    errs = scan ++ walk ++ map ErrUnreachableUnfreed ids /\
    scan = ch (scan_freed (tx_freelist_all tx) (mkState [] ∅ ∅)) /\
    (forall e, In e scan -> exists x, e = ErrAlreadyFreed x) /\
    (forall e, In e walk -> is_visit_error e || is_order_error e = true) /\
    StronglySorted N.lt ids.
Proof.
  intros Hrun.
  destruct (check_final _ _ _ _ Hrun) as (st2 & -> & _ & (walk & Hch & Hkinds) & _).
  eexists _, walk, _. split; [rewrite Hch, <- app_assoc; reflexivity|].
  split; [reflexivity|]. split.
  - destruct (scan_freed_spec (tx_freelist_all tx) (mkState [] ∅ ∅))
      as (_ & _ & new & Hscan & Hall & _).
    simpl in Hscan. rewrite Hscan. exact Hall.
  - split; [exact Hkinds|]. apply StronglySorted_filter, StronglySorted_pgid_range.
Qed.

(** X8. Once the reachability map is seeded, a page visited at any later
    point of the walk whose span holds page 0, page 1 or an id of the span
    of the persisted free-list page is reported once as "multiple
    references" for that id. *)
Theorem seeded_ids_reported (fuel : nat) (tx : Tx) (st st1 st2 : CheckState)
    (p : page) (x : pgid) :
  overflow p < 2 ^ 32 ->
  seed_reachable fuel tx st = Some st1 ->
  (forall i, is_reachable st1 i = true -> is_reachable st2 i = true) ->
  x ∈ span p ->
  x = 0 \/ x = 1 \/
  (meta_freelist (tx_meta tx) <> pgidNoFreelist /\
   exists j, j <= overflow (tx_page tx (meta_freelist (tx_meta tx))) /\
             x = wrap64 (meta_freelist (tx_meta tx) + j)) ->
  count_occ error_eq_dec (sent_since st2 (checkBucket_fn tx p st2)) (ErrMultipleReferences x)
  = 1%nat.
Proof.
  intros Hov Hseed Hlater Hx Hseeded.
  destruct (seed_reachable_post _ _ _ _ Hseed) as (_ & _ & _ & H0 & H1 & Hspan).
  assert (Hreach : is_reachable st2 x = true).
  { apply Hlater. destruct Hseeded as [->|[->|(Hne & j & Hj & ->)]]; auto. }
  destruct (checkBucket_fn_spec tx p st2 Hov) as (_ & _ & Hch).
  rewrite (sent_since_app _ _ _ Hch). rewrite !count_occ_app.
  rewrite count_occ_map_filter;
    [|intros a b Hab; congruence|apply NoDup_span; exact Hov].
  rewrite bool_decide_eq_true_2 by exact Hx. rewrite Hreach. simpl.
  rewrite (count_occ_absent (if _ <? id p then _ else [])).
  - rewrite (count_occ_absent (type_checks p st2)); [reflexivity|].
    unfold type_checks. destruct (is_freed st2 (id p)); [|destruct (_ && _)];
      simpl; intuition discriminate.
  - destruct (_ <? id p); simpl; intuition discriminate.
Qed.

End CheckFacts.

(** ** What a validation without findings establishes *)

Section OrderFacts.
Context `{PageConsts}.
Variable keyToString : list byte -> string.

Abbreviation rcpi := (recursivelyCheckPagesInternal keyToString).
Abbreviation bloop := (branch_loop keyToString).

Lemma singleton_if_nil (b : bool) (e : error) : (if b then [e] else []) = [] <-> b = false.
Proof. destruct b; split; intros; try reflexivity; discriminate. Qed.

Lemma below_bound_iff (mx : option (list byte)) (k : list byte) :
  not_nil mx && (0 <=? compareKeys (Some k) mx)%Z = false <->
  forall m, mx = Some m -> (bytes_compare k m < 0)%Z.
Proof.
  destruct mx as [m|]; simpl.
  - unfold compareKeys. simpl. rewrite Z.leb_gt. split.
    + intros Hlt m' [= <-]. exact Hlt.
    + intros Hall. apply Hall. reflexivity.
  - split; [intros _ m Hm; discriminate|reflexivity].
Qed.

Lemma leaf_checks_nil_0 pg mx stack rm elem :
  leaf_checks keyToString pg mx stack 0 rm elem = [] <->
  (forall m, rm = Some m -> (bytes_compare m (lkey elem) <= 0)%Z) /\
  (forall m, mx = Some m -> (bytes_compare (lkey elem) m < 0)%Z).
Proof.
  unfold leaf_checks. rewrite !app_nil, !singleton_if_nil, below_bound_iff.
  cbn [Nat.eqb Nat.ltb Nat.leb andb].
  destruct rm as [m|]; simpl.
  - unfold compareKeys. simpl. rewrite Z.ltb_ge. split.
    + intros (Hle & _ & _ & Hmx). split; [intros m' [= <-]; exact Hle|exact Hmx].
    + intros [Hle Hmx]. repeat split; auto.
  - split.
    + intros (_ & _ & _ & Hmx). split; [intros m Hm; discriminate|exact Hmx].
    + intros [_ Hmx]. repeat split; auto.
Qed.

Lemma leaf_checks_nil_S pg mx stack i rm elem :
  leaf_checks keyToString pg mx stack (Datatypes.S i) rm elem = [] <->
  (bytes_compare (slice_bytes rm) (lkey elem) < 0)%Z /\
  (forall m, mx = Some m -> (bytes_compare (lkey elem) m < 0)%Z).
Proof.
  unfold leaf_checks. rewrite !app_nil, !singleton_if_nil, below_bound_iff.
  cbn [Nat.eqb Nat.ltb Nat.leb andb].
  unfold compareKeys at 1 2. change (slice_bytes (Some (lkey elem))) with (lkey elem).
  rewrite Z.ltb_ge, Z.eqb_neq. split.
  - intros (_ & Hle & Hne & Hmx). split; [lia|exact Hmx].
  - intros [Hlt Hmx]. repeat split; auto; lia.
Qed.

Lemma leaf_loop_nil_S pg mx stack i elems rm :
  leaf_loop keyToString pg mx stack (Datatypes.S i) elems rm = [] <->
  ascends_from (slice_bytes rm) (map lkey elems) /\
  (forall m k, mx = Some m -> In k (map lkey elems) -> (bytes_compare k m < 0)%Z).
Proof.
  revert i rm. induction elems as [|elem rest IH]; intros i rm; simpl.
  - split; [intros _; split; [exact I|intros m k _ []]|reflexivity].
  - rewrite app_nil, leaf_checks_nil_S, IH. simpl. split.
    + intros [[H1 H2] [H3 H4]]. split; [auto|].
      intros m k Hm [<-|Hk]; eauto.
    + intros [[H1 H3] H4]. repeat split; eauto.
Qed.

Lemma leaf_loop_nil_0 pg mx stack elems mn :
  leaf_loop keyToString pg mx stack 0 elems mn = [] <->
  strictly_ascending (map lkey elems) /\ within_bounds mn mx (map lkey elems).
Proof.
  unfold within_bounds. destruct elems as [|elem rest]; simpl.
  - split; [|reflexivity]. intros _. split; [exact I|].
    split; [intros m k _ Hk; discriminate|intros m k _ []].
  - rewrite app_nil, leaf_checks_nil_0, leaf_loop_nil_S. simpl. split.
    + intros [[H1 H2] [H3 H4]]. split; [exact H3|]. split.
      * intros m k Hm [= <-]. eauto.
      * intros m k Hm [<-|Hk]; eauto.
    + intros [H3 [H1 H4]]. repeat split; eauto.
Qed.

(** X9. The validation of a leaf page returns with the key of its last
    element and sends nothing exactly when the keys of the page ascend
    strictly, the first key is not below the inherited closed lower bound
    and every key is strictly below the inherited open upper bound. *)
Theorem leaf_page_clean_iff_in_order (fuel : nat) (tx : Tx) (pg : pgid)
    (mn mx : option (list byte)) (stack : list pgid) :
  is_branch (tx_page tx pg) = false -> is_leaf (tx_page tx pg) = true ->
  let keys := map lkey (leafPageElements (tx_page tx pg)) in
  exists errs,
    rcpi (Datatypes.S fuel) tx pg mn mx stack = Some (errs, last keys) /\
    (errs = [] <-> strictly_ascending keys /\ within_bounds mn mx keys).
Proof.
  intros Hbr Hleaf keys. simpl. rewrite Hbr, Hleaf. eexists. split.
  - rewrite leaf_result_last. unfold keys. rewrite last_map_lkey. reflexivity.
  - apply leaf_loop_nil_0.
Qed.

(** Where the errors of a branch loop come from. *)
Lemma branch_loop_errors_inv rec pg mx stack i elems rm res out e :
  bloop rec pg mx stack i elems rm res = Some out -> In e out.1 ->
  (exists n rm' elem, elems !! n = Some elem /\
     In e (branch_checks keyToString pg mx stack (i + n) rm' elem)) \/
  (exists elem mn' mx' errs' r', In elem elems /\
     rec (bpgid elem) mn' mx' stack = Some (errs', r') /\ In e errs').
Proof.
  revert i rm res out. induction elems as [|elem rest IH]; intros i rm res [errs r] Hrun He.
  - injection Hrun as <- _. destruct He.
  - apply branch_loop_cons_inv in Hrun.
    destruct Hrun as (errs1 & sub & errs2 & Hcall & Hrest & ->).
    simpl in He. apply in_app_or in He. destruct He as [He|He].
    { left. exists 0%nat, rm, elem. rewrite Nat.add_0_r. auto. }
    apply in_app_or in He. destruct He as [He|He].
    { right. exists elem. do 4 eexists. split; [left; reflexivity|]. eauto. }
    destruct (IH _ _ _ _ Hrest He)
      as [(n & rm' & el & Hn & Hin)|(el & a & b & c & d & Hel & Hc & Hin)].
    + left. exists (Datatypes.S n), rm', el. rewrite <- Nat.add_succ_comm. auto.
    + right. exists el, a, b, c, d. split; [right; exact Hel|]. auto.
Qed.

Lemma branch_checks_inv pg mx stack i rm elem e :
  In e (branch_checks keyToString pg mx stack i rm elem) ->
  (exists k, e = ErrBranchKeyBelowAncestor i k pg stack /\ i = 0%nat) \/
  (exists k m, e = ErrBranchKeyAboveMax i k pg m stack).
Proof.
  unfold branch_checks. intros He. apply in_app_or in He. destruct He as [He|He].
  - destruct (i =? 0)%nat eqn:Hi; [|destruct He]. apply Nat.eqb_eq in Hi.
    destruct (_ && _); [|destruct He]. destruct He as [<-|[]]. left. eauto.
  - destruct (_ && _); [|destruct He]. destruct He as [<-|[]]. right. eauto.
Qed.

Lemma leaf_checks_inv pg mx stack i rm elem e :
  In e (leaf_checks keyToString pg mx stack i rm elem) ->
  (exists k, e = ErrLeafKeyBelowAncestor i k pg stack /\ i = 0%nat) \/
  (exists k m, (e = ErrLeafKeyLess i k pg m stack \/ e = ErrLeafKeyEqual i k pg m stack)
               /\ (0 < i)%nat) \/
  (exists k m, e = ErrLeafKeyAboveMax i k pg m stack).
Proof.
  unfold leaf_checks. rewrite !in_app_iff. intros [He|[He|[He|He]]].
  - destruct (i =? 0)%nat eqn:Hi; [|destruct He]. apply Nat.eqb_eq in Hi.
    destruct (_ && _); [|destruct He]. destruct He as [<-|[]]. left. eauto.
  - destruct (0 <? i)%nat eqn:Hi; [|destruct He]. apply Nat.ltb_lt in Hi.
    destruct (_ && _); [|destruct He]. destruct He as [<-|[]]. right. left. eauto 6.
  - destruct (0 <? i)%nat eqn:Hi; [|destruct He]. apply Nat.ltb_lt in Hi.
    destruct (_ && _); [|destruct He]. destruct He as [<-|[]]. right. left. eauto 6.
  - destruct (_ && _); [|destruct He]. destruct He as [<-|[]]. right. right. eauto.
Qed.

Lemma leaf_loop_inv pg mx stack i elems rm e :
  In e (leaf_loop keyToString pg mx stack i elems rm) ->
  exists n rm' elem, elems !! n = Some elem /\
    In e (leaf_checks keyToString pg mx stack (i + n) rm' elem).
Proof.
  revert i rm. induction elems as [|elem rest IH]; intros i rm; simpl; [intros []|].
  intros He. apply in_app_or in He. destruct He as [He|He].
  - exists 0%nat, rm, elem. rewrite Nat.add_0_r. auto.
  - destruct (IH _ _ He) as (n & rm' & el & Hn & Hin).
    exists (Datatypes.S n), rm', el. rewrite <- Nat.add_succ_comm. auto.
Qed.

Lemma reaches_child tx pg c q : child_of tx c pg -> reaches tx c q -> reaches tx pg q.
Proof.
  intros Hchild. induction 1 as [|q' c' _ IH Hc']; [|econstructor; eassumption].
  econstructor; [constructor|exact Hchild].
Qed.

Lemma child_of_elem tx pg elem :
  is_branch (tx_page tx pg) = true -> In elem (branchPageElements (tx_page tx pg)) ->
  child_of tx (bpgid elem) pg.
Proof. intros Hbr Hin. split; [exact Hbr|]. eauto. Qed.

(** The validation of a page contains the validation of every page under
    it, with its errors. *)
Lemma rcpi_descends fuel tx pg mn mx stack errs r q :
  rcpi fuel tx pg mn mx stack = Some (errs, r) -> reaches tx pg q ->
  exists mn' mx' stack' errs' r',
    rcpi fuel tx q mn' mx' stack' = Some (errs', r') /\ forall e, In e errs' -> In e errs.
Proof.
  intros Hrun. induction 1 as [|q' c _ IH Hchild].
  - exists mn, mx, stack, errs, r. auto.
  - destruct IH as (mn' & mx' & stack' & errs' & r' & Hq' & Hincl).
    destruct Hchild as (Hbr & elem & Hin & <-).
    destruct fuel as [|fuel]; [discriminate|]. simpl in Hq'. rewrite Hbr in Hq'.
    apply list_elem_of_In, list_elem_of_lookup in Hin. destruct Hin as [n Hn].
    destruct (branch_loop_calls _ _ _ _ _ _ _ _ _ _ Hq' n elem Hn)
      as (errs_n & r_n & Hcall & Hincl_n & _).
    do 3 eexists. exists errs_n, r_n. split; [apply rcpi_fuel_S; exact Hcall|].
    intros e He. apply Hincl, Hincl_n, He.
Qed.

(** X10. A validation that sends nothing vouches for every page under the
    starting page: each is a branch or a leaf page, and the keys of each
    leaf page ascend strictly. *)
Theorem clean_validation_pages (fuel : nat) (tx : Tx) (pg : pgid)
    (mn mx : option (list byte)) (stack : list pgid) (r : option (list byte)) (q : pgid) :
  rcpi fuel tx pg mn mx stack = Some ([], r) ->
  reaches tx pg q ->
  (is_branch (tx_page tx q) = true \/ is_leaf (tx_page tx q) = true) /\
  (is_branch (tx_page tx q) = false ->
   strictly_ascending (map lkey (leafPageElements (tx_page tx q)))).
Proof.
  intros Hrun Hreach.
  destruct (rcpi_descends _ _ _ _ _ _ _ _ _ Hrun Hreach)
    as (mn' & mx' & stack' & errs' & r' & Hq & Hincl).
  assert (Hnil : errs' = []).
  { destruct errs' as [|e l]; [reflexivity|]. destruct (Hincl e (or_introl eq_refl)). }
  subst errs'. destruct fuel as [|fuel]; [discriminate|]. simpl in Hq.
  destruct (is_branch (tx_page tx q)); [split; [auto|discriminate]|].
  destruct (is_leaf (tx_page tx q)); [|discriminate].
  split; [auto|]. intros _. injection Hq as Hq _.
  apply leaf_loop_nil_0 in Hq. apply Hq.
Qed.

(** X11. The validation reports a page as of an "unexpected page type"
    exactly when the page is the starting page or lies under it and carries
    neither the branch nor the leaf flag. *)
Theorem unexpected_page_type_iff (fuel : nat) (tx : Tx) (pg : pgid)
    (mn mx : option (list byte)) (stack : list pgid) (errs : list error)
    (r : option (list byte)) (q : pgid) :
  rcpi fuel tx pg mn mx stack = Some (errs, r) ->
  (In (ErrUnexpectedPageType q) errs <->
   reaches tx pg q /\ is_branch (tx_page tx q) = false /\ is_leaf (tx_page tx q) = false).
Proof.
  intros Hrun. split.
  - revert pg mn mx stack errs r Hrun.
    induction fuel as [|fuel IH]; intros pg mn mx stack errs r; [discriminate|].
    simpl. destruct (is_branch (tx_page tx pg)) eqn:Hbr.
    + intros Hrun He.
      destruct (branch_loop_errors_inv _ _ _ _ _ _ _ _ _ _ Hrun He)
        as [(n & rm' & elem & _ & Hin)|(elem & a & b & c & d & Hel & Hcall & Hin)].
      * apply branch_checks_inv in Hin.
        destruct Hin as [(k & Heq & _)|(k & m & Heq)]; discriminate.
      * destruct (IH _ _ _ _ _ _ Hcall Hin) as (Hreach & Hq).
        split; [|exact Hq]. eapply reaches_child; [|exact Hreach].
        apply child_of_elem; assumption.
    + destruct (is_leaf (tx_page tx pg)) eqn:Hleaf.
      * intros [= <- _] He. apply leaf_loop_inv in He.
        destruct He as (n & rm' & elem & _ & Hin). apply leaf_checks_inv in Hin.
        destruct Hin as [(k & Heq & _)|[(k & m & [Heq|Heq] & _)|(k & m & Heq)]];
          discriminate.
      * intros [= <- _] [[= <-]|[]]. split; [constructor|auto].
  - intros (Hreach & Hbr & Hleaf).
    destruct (rcpi_descends _ _ _ _ _ _ _ _ _ Hrun Hreach)
      as (mn' & mx' & stack' & errs' & r' & Hq & Hincl).
    apply Hincl. destruct fuel as [|fuel]; [discriminate|]. simpl in Hq.
    rewrite Hbr, Hleaf in Hq. injection Hq as <- _. left. reflexivity.
Qed.

Lemma gather_is_Some fuel tx (elems : list branchPageElement) :
  (forall elem, In elem elems -> is_Some (subtree_keys fuel tx (bpgid elem))) ->
  is_Some (gather fuel tx elems).
Proof.
  induction elems as [|elem rest IH]; intros Hall; [unfold gather; simpl; eauto|].
  destruct (Hall elem (or_introl eq_refl)) as [ks1 H1].
  destruct IH as [ks2 H2]; [intros e He; apply Hall; right; exact He|].
  unfold gather in *. simpl. rewrite H1. simpl. rewrite H2. simpl. eauto.
Qed.

(** Where the validation returns, the keys of the subtree can be listed. *)
Lemma rcpi_subtree_keys fuel tx pg mn mx stack out :
  rcpi fuel tx pg mn mx stack = Some out -> is_Some (subtree_keys fuel tx pg).
Proof.
  revert pg mn mx stack out. induction fuel as [|fuel IH]; intros pg mn mx stack out;
    [discriminate|].
  rewrite subtree_keys_unfold. simpl.
  destruct (is_branch (tx_page tx pg)).
  - intros Hrun. apply gather_is_Some. intros elem Hin.
    apply list_elem_of_In, list_elem_of_lookup in Hin. destruct Hin as [n Hn].
    destruct (branch_loop_calls _ _ _ _ _ _ _ _ _ _ Hrun n elem Hn)
      as (errs_n & r_n & Hcall & _).
    exact (IH _ _ _ _ _ Hcall).
  - destruct (is_leaf (tx_page tx pg)); eauto.
Qed.

Lemma branch_checks_nil_0 pg mx stack rm elem :
  branch_checks keyToString pg mx stack 0 rm elem = [] ->
  forall m, rm = Some m -> (bytes_compare m (bkey elem) <= 0)%Z.
Proof.
  unfold branch_checks. rewrite app_nil, !singleton_if_nil. intros [Hlow _] m ->.
  simpl in Hlow. unfold compareKeys in Hlow. simpl in Hlow. apply Z.ltb_ge in Hlow. exact Hlow.
Qed.

(** X12. A validation that sends nothing has checked the inherited bounds:
    the first key of the starting page is not below the closed lower bound,
    and every key of every leaf page of the subtree, the returned key among
    them, is strictly below the open upper bound. *)
Theorem clean_validation_bounds (fuel : nat) (tx : Tx) (pg : pgid)
    (mn mx : option (list byte)) (stack : list pgid) (r : option (list byte)) :
  rcpi fuel tx pg mn mx stack = Some ([], r) ->
  (forall m k, mn = Some m -> first_key (tx_page tx pg) = Some k ->
               (bytes_compare m k <= 0)%Z) /\
  exists ks, subtree_keys fuel tx pg = Some ks /\
    (forall m x, mx = Some m -> In x ks -> (bytes_compare x m < 0)%Z) /\
    (forall m k, mx = Some m -> r = Some k -> (bytes_compare k m < 0)%Z).
Proof.
  intros Hrun. split.
  - destruct fuel as [|fuel]; [discriminate|]. simpl in Hrun. unfold first_key.
    destruct (is_branch (tx_page tx pg)).
    + destruct (branchPageElements (tx_page tx pg)) as [|elem rest]; [discriminate|].
      intros m k Hm [= <-]. apply branch_loop_cons_inv in Hrun.
      destruct Hrun as (errs1 & sub & errs2 & _ & _ & Herrs).
      symmetry in Herrs. apply app_nil in Herrs. destruct Herrs as [Hchecks _].
      exact (branch_checks_nil_0 _ _ _ _ _ Hchecks m Hm).
    + destruct (is_leaf (tx_page tx pg)); [|discriminate].
      injection Hrun as Hloop _. apply leaf_loop_nil_0 in Hloop.
      destruct Hloop as [_ [Hlow _]]. intros m k Hm Hk. apply (Hlow m k Hm).
      destruct (leafPageElements (tx_page tx pg)); [discriminate|exact Hk].
  - destruct (rcpi_subtree_keys _ _ _ _ _ _ _ Hrun) as [ks Hks]. exists ks.
    split; [exact Hks|]. split.
    + intros m x -> Hx. exact (keys_below_upper_bound _ _ _ _ _ _ _ _ _ _ Hrun Hks Hx).
    + intros m k -> ->.
      destruct (Z.lt_ge_cases (bytes_compare k m) 0) as [Hlt|Hge]; [exact Hlt|].
      destruct (above_max_reported _ _ _ _ _ _ _ _ _ Hrun Hge eq_refl).
Qed.

(** X13. The page stack of a finding of the validation is the stack the
    validation was started with, followed by the chain of child references
    from the starting page to the page the finding is about. *)
Theorem finding_stack_is_path (fuel : nat) (tx : Tx) (pg : pgid)
    (mn mx : option (list byte)) (stack : list pgid) (errs : list error)
    (r : option (list byte)) (e : error) (q : pgid) (st : list pgid) :
  rcpi fuel tx pg mn mx stack = Some (errs, r) ->
  In e errs -> error_place e = Some (q, st) ->
  exists path, st = stack ++ path /\ page_path tx pg path q.
Proof.
  revert pg mn mx stack errs r. induction fuel as [|fuel IH]; intros pg mn mx stack errs r;
    [discriminate|].
  simpl. destruct (is_branch (tx_page tx pg)) eqn:Hbr.
  - intros Hrun He Hplace.
    destruct (branch_loop_errors_inv _ _ _ _ _ _ _ _ _ _ Hrun He)
      as [(n & rm' & elem & _ & Hin)|(elem & a & b & c & d & Hel & Hcall & Hin)].
    + apply branch_checks_inv in Hin.
      destruct Hin as [(k & -> & _)|(k & m & ->)]; injection Hplace as <- <-;
        exists [pg]; (split; [reflexivity|constructor]).
    + destruct (IH _ _ _ _ _ _ Hcall Hin Hplace) as (path & -> & Hpath).
      exists (pg :: path). split; [rewrite <- app_assoc; reflexivity|].
      econstructor; [|exact Hpath]. apply child_of_elem; assumption.
  - destruct (is_leaf (tx_page tx pg)).
    + intros [= <- _] He Hplace. apply leaf_loop_inv in He.
      destruct He as (n & rm' & elem & _ & Hin). apply leaf_checks_inv in Hin.
      destruct Hin as [(k & -> & _)|[(k & m & [->| ->] & _)|(k & m & ->)]];
        injection Hplace as <- <-; exists [pg]; (split; [reflexivity|constructor]).
    + intros [= <- _] [<-|[]] Hplace. discriminate.
Qed.

(** X14. Every finding of the validation names an element that exists: the
    page is a branch page for a branch finding and a leaf page that is not
    a branch page for a leaf finding, the index is below the number of
    elements, an "ancestor" finding is about element 0 and a "previous
    element" finding about a later one. *)
Theorem findings_name_elements (fuel : nat) (tx : Tx) (pg : pgid)
    (mn mx : option (list byte)) (stack : list pgid) (errs : list error)
    (r : option (list byte)) (e : error) :
  rcpi fuel tx pg mn mx stack = Some (errs, r) -> In e errs -> names_element tx e.
Proof.
  revert pg mn mx stack errs r. induction fuel as [|fuel IH]; intros pg mn mx stack errs r;
    [discriminate|].
  simpl. destruct (is_branch (tx_page tx pg)) eqn:Hbr.
  - intros Hrun He.
    destruct (branch_loop_errors_inv _ _ _ _ _ _ _ _ _ _ Hrun He)
      as [(n & rm' & elem & Hn & Hin)|(elem & a & b & c & d & Hel & Hcall & Hin)];
      [|exact (IH _ _ _ _ _ _ Hcall Hin)].
    apply lookup_lt_Some in Hn. apply branch_checks_inv in Hin.
    destruct Hin as [(k & -> & Hi)|(k & m & ->)]; simpl in *; repeat split; auto; lia.
  - destruct (is_leaf (tx_page tx pg)) eqn:Hleaf.
    + intros [= <- _] He. apply leaf_loop_inv in He.
      destruct He as (n & rm' & elem & Hn & Hin).
      apply lookup_lt_Some in Hn. apply leaf_checks_inv in Hin.
      destruct Hin as [(k & -> & Hi)|[(k & m & [->| ->] & Hi)|(k & m & ->)]];
        simpl in *; repeat split; auto; lia.
    + intros [= <- _] [<-|[]]. simpl. auto.
Qed.

(** ** The findings about the elements of one page *)

Lemma In_singleton_if (b : bool) (x e : error) :
  In e (if b then [x] else []) <-> b = true /\ e = x.
Proof.
  destruct b; simpl; split.
  - intros [<-|[]]. auto.
  - intros [_ ->]. auto.
  - intros [].
  - intros [Hb _]. discriminate.
Qed.

(** The errors of the leaf loop are those of its elements, each checked
    against the running lower bound of its index. *)
Lemma leaf_loop_In pg mx stack i elems rm e :
  In e (leaf_loop keyToString pg mx stack i elems rm) <->
  exists n elem, elems !! n = Some elem /\
    In e (leaf_checks keyToString pg mx stack (i + n) (running_min rm elems n) elem).
Proof.
  revert i rm. induction elems as [|a rest IH]; intros i rm; simpl.
  - split; [intros []|]. intros (n & elem & Hn & _). rewrite lookup_nil in Hn. discriminate.
  - rewrite in_app_iff, IH. split.
    + intros [He|(n & elem & Hn & He)].
      * exists 0%nat, a. rewrite Nat.add_0_r. auto.
      * exists (Datatypes.S n), elem. split; [exact Hn|].
        rewrite <- Nat.add_succ_comm. destruct n; exact He.
    + intros (n & elem & Hn & He). destruct n as [|n].
      * left. injection Hn as <-. rewrite Nat.add_0_r in He. exact He.
      * right. exists n, elem. split; [exact Hn|].
        rewrite <- Nat.add_succ_comm in He. destruct n; exact He.
Qed.

(** X15. On a leaf page the validation sends, for the element with index [n]
    and key [k]: "below ancestor" exactly when [n = 0] and [k] is below the
    inherited lower bound; "found <" exactly when [n > 0] and [k] is below
    the key of the element before; "found =" exactly when [n > 0] and [k]
    equals that key; "above max" exactly when [k] is not below the inherited
    upper bound. *)
Theorem leaf_findings_exact (fuel : nat) (tx : Tx) (pg : pgid)
    (mn mx : option (list byte)) (stack : list pgid) (errs : list error)
    (r : option (list byte)) (n : nat) (elem : leafPageElement) :
  is_branch (tx_page tx pg) = false -> is_leaf (tx_page tx pg) = true ->
  rcpi (Datatypes.S fuel) tx pg mn mx stack = Some (errs, r) ->
  leafPageElements (tx_page tx pg) !! n = Some elem ->
  let k := keyToString (lkey elem) in
  let prev := running_min mn (leafPageElements (tx_page tx pg)) n in
  let stk := stack ++ [pg] in
  (In (ErrLeafKeyBelowAncestor n k pg stk) errs <->
   n = 0%nat /\ exists m, mn = Some m /\ (0 < bytes_compare m (lkey elem))%Z) /\
  (In (ErrLeafKeyLess n k pg (keyToString (slice_bytes prev)) stk) errs <->
   (0 < n)%nat /\ (0 < bytes_compare (slice_bytes prev) (lkey elem))%Z) /\
  (In (ErrLeafKeyEqual n k pg (keyToString (slice_bytes prev)) stk) errs <->
   (0 < n)%nat /\ bytes_compare (slice_bytes prev) (lkey elem) = 0%Z) /\
  (In (ErrLeafKeyAboveMax n k pg (keyToString (slice_bytes mx)) stk) errs <->
   exists m, mx = Some m /\ (0 <= bytes_compare (lkey elem) m)%Z).
Proof.
  intros Hbr Hleaf Hrun Hn k prev stk. simpl in Hrun. rewrite Hbr, Hleaf in Hrun.
  injection Hrun as <- _. fold stk.
  assert (Hhere : forall e,
            (exists n' elem', leafPageElements (tx_page tx pg) !! n' = Some elem' /\
               In e (leaf_checks keyToString pg mx stk (0 + n')
                       (running_min mn (leafPageElements (tx_page tx pg)) n') elem') /\
               n' = n) <->
            In e (leaf_checks keyToString pg mx stk n prev elem)).
  { intros e. split.
    - intros (n' & elem' & Hn' & He & ->). rewrite Hn in Hn'. injection Hn' as <-. exact He.
    - intros He. exists n, elem. auto. }
  assert (Hidx : forall e,
            (forall n' rm' elem', In e (leaf_checks keyToString pg mx stk n' rm' elem') ->
                                  n' = n) ->
            (In e (leaf_loop keyToString pg mx stk 0 (leafPageElements (tx_page tx pg)) mn)
             <-> In e (leaf_checks keyToString pg mx stk n prev elem))).
  { intros e Hsame. rewrite leaf_loop_In, <- Hhere. split.
    - intros (n' & elem' & Hn' & He). exists n', elem'. repeat split; auto.
      exact (Hsame _ _ _ He).
    - intros (n' & elem' & Hn' & He & _). eauto. }
  assert (Hkind : forall e n' rm' elem',
            In e (leaf_checks keyToString pg mx stk n' rm' elem') ->
            match e with
            | ErrLeafKeyBelowAncestor i _ _ _ | ErrLeafKeyLess i _ _ _ _
            | ErrLeafKeyEqual i _ _ _ _ | ErrLeafKeyAboveMax i _ _ _ _ => i = n'
            | _ => False
            end).
  { intros e n' rm' elem' He. apply leaf_checks_inv in He.
    destruct He as [(? & -> & _)|[(? & ? & [->| ->] & _)|(? & ? & ->)]]; reflexivity. }
  unfold leaf_checks in Hidx. unfold compareKeys.
  change (slice_bytes (Some (lkey elem))) with (lkey elem).
  split; [|split; [|split]].
  - rewrite Hidx by (intros n' rm' elem' He; exact (eq_sym (Hkind _ _ _ _ He))).
    rewrite !in_app_iff, !In_singleton_if. split.
    + intros [[Hc _]|[[_ He]|[[_ He]|[_ He]]]]; try discriminate.
      apply andb_prop in Hc. destruct Hc as [Hc Hlt]. apply andb_prop in Hc.
      destruct Hc as [H0 Hnn]. apply Nat.eqb_eq in H0. subst n. simpl in prev.
      destruct mn as [m|]; [|discriminate]. split; [reflexivity|]. exists m.
      split; [reflexivity|]. apply Z.ltb_lt in Hlt. exact Hlt.
    + intros (-> & m & -> & Hlt). left. split; [|reflexivity].
      simpl. apply Z.ltb_lt. exact Hlt.
  - rewrite Hidx by (intros n' rm' elem' He; exact (eq_sym (Hkind _ _ _ _ He))).
    rewrite !in_app_iff, !In_singleton_if. split.
    + intros [[_ He]|[[Hc _]|[[_ He]|[_ He]]]]; try discriminate.
      apply andb_prop in Hc. destruct Hc as [H0 Hlt].
      apply Nat.ltb_lt in H0. apply Z.ltb_lt in Hlt. auto.
    + intros [H0 Hlt]. right. left. split; [|reflexivity].
      apply andb_true_intro. split; [apply Nat.ltb_lt; exact H0|apply Z.ltb_lt; exact Hlt].
  - rewrite Hidx by (intros n' rm' elem' He; exact (eq_sym (Hkind _ _ _ _ He))).
    rewrite !in_app_iff, !In_singleton_if. split.
    + intros [[_ He]|[[_ He]|[[Hc _]|[_ He]]]]; try discriminate.
      apply andb_prop in Hc. destruct Hc as [H0 Heq].
      apply Nat.ltb_lt in H0. apply Z.eqb_eq in Heq. auto.
    + intros [H0 Heq]. right. right. left. split; [|reflexivity].
      apply andb_true_intro. split; [apply Nat.ltb_lt; exact H0|apply Z.eqb_eq; exact Heq].
  - rewrite Hidx by (intros n' rm' elem' He; exact (eq_sym (Hkind _ _ _ _ He))).
    rewrite !in_app_iff, !In_singleton_if. split.
    + intros [[_ He]|[[_ He]|[[_ He]|[Hc _]]]]; try discriminate.
      apply andb_prop in Hc. destruct Hc as [Hnn Hle].
      destruct mx as [m|]; [|discriminate]. exists m. split; [reflexivity|].
      apply Z.leb_le in Hle. exact Hle.
    + intros (m & -> & Hle). do 3 right. split; [|reflexivity].
      simpl. apply Z.leb_le. exact Hle.
Qed.

(** The checks of every element of a branch page are part of what the loop
    sends; the first element is checked against the inherited lower bound. *)
Lemma branch_loop_checks rec pg mx stack i elems rm res out :
  bloop rec pg mx stack i elems rm res = Some out ->
  (forall n elem, elems !! n = Some elem ->
     exists rm', (n = 0%nat -> rm' = rm) /\
       forall e, In e (branch_checks keyToString pg mx stack (i + n) rm' elem) ->
                 In e out.1) /\
  (forall e, In e out.1 ->
     (exists n rm' elem, elems !! n = Some elem /\ (n = 0%nat -> rm' = rm) /\
        In e (branch_checks keyToString pg mx stack (i + n) rm' elem)) \/
     (exists elem mn' mx' errs' r', In elem elems /\
        rec (bpgid elem) mn' mx' stack = Some (errs', r') /\ In e errs')).
Proof.
  revert i rm res out. induction elems as [|elem0 rest IH]; intros i rm res [errs r] Hrun.
  - injection Hrun as <- _. split.
    + intros n elem Hn. rewrite lookup_nil in Hn. discriminate.
    + intros e [].
  - apply branch_loop_cons_inv in Hrun.
    destruct Hrun as (errs1 & sub & errs2 & Hcall & Hrest & ->).
    destruct (IH _ _ _ _ Hrest) as [Hfwd Hbwd]. simpl in *. split.
    + intros [|n] elem Hn; simpl in Hn.
      * injection Hn as <-. exists rm. split; [reflexivity|].
        intros e He. rewrite Nat.add_0_r in He. apply in_or_app. auto.
      * destruct (Hfwd n elem Hn) as (rm' & _ & Hincl). exists rm'.
        split; [discriminate|]. intros e He. rewrite <- Nat.add_succ_comm in He.
        apply in_or_app. right. apply in_or_app. right. exact (Hincl e He).
    + intros e He. apply in_app_or in He. destruct He as [He|He].
      { left. exists 0%nat, rm, elem0. rewrite Nat.add_0_r. auto. }
      apply in_app_or in He. destruct He as [He|He].
      { right. exists elem0. do 4 eexists. split; [left; reflexivity|]. eauto. }
      destruct (Hbwd e He) as [(n & rm' & el & Hn & _ & Hin)|(el & a & b & c & d & Hel & Hc & Hin)].
      * left. exists (Datatypes.S n), rm', el. rewrite <- Nat.add_succ_comm.
        split; [exact Hn|]. split; [discriminate|exact Hin].
      * right. exists el, a, b, c, d. split; [right; exact Hel|]. auto.
Qed.

(** The stack of a finding is longer than the stack the validation was
    started with. *)
Lemma rcpi_stack_longer fuel tx pg mn mx stack errs r e q st :
  rcpi fuel tx pg mn mx stack = Some (errs, r) ->
  In e errs -> error_place e = Some (q, st) -> (length stack < length st)%nat.
Proof.
  revert pg mn mx stack errs r. induction fuel as [|fuel IH]; intros pg mn mx stack errs r;
    [discriminate|].
  simpl. destruct (is_branch (tx_page tx pg)).
  - intros Hrun He Hplace.
    destruct (branch_loop_errors_inv _ _ _ _ _ _ _ _ _ _ Hrun He)
      as [(n & rm' & elem & _ & Hin)|(elem & a & b & c & d & Hel & Hcall & Hin)].
    + apply branch_checks_inv in Hin.
      destruct Hin as [(k & -> & _)|(k & m & ->)]; injection Hplace as <- <-;
        rewrite length_app; simpl; lia.
    + pose proof (IH _ _ _ _ _ _ Hcall Hin Hplace) as Hlen.
      rewrite length_app in Hlen. simpl in Hlen. lia.
  - destruct (is_leaf (tx_page tx pg)).
    + intros [= <- _] He Hplace. apply leaf_loop_inv in He.
      destruct He as (n & rm' & elem & _ & Hin). apply leaf_checks_inv in Hin.
      destruct Hin as [(k & -> & _)|[(k & m & [->| ->] & _)|(k & m & ->)]];
        injection Hplace as <- <-; rewrite length_app; simpl; lia.
    + intros [= <- _] [<-|[]] Hplace. discriminate.
Qed.

(** X16. On a branch page the validation sends, for the element with index
    [n] and key [k]: "below ancestor" exactly when [n = 0] and [k] is below
    the inherited lower bound, and "above max" exactly when [k] is not below
    the inherited upper bound. *)
Theorem branch_findings_exact (fuel : nat) (tx : Tx) (pg : pgid)
    (mn mx : option (list byte)) (stack : list pgid) (errs : list error)
    (r : option (list byte)) (n : nat) (elem : branchPageElement) :
  is_branch (tx_page tx pg) = true ->
  rcpi (Datatypes.S fuel) tx pg mn mx stack = Some (errs, r) ->
  branchPageElements (tx_page tx pg) !! n = Some elem ->
  let k := keyToString (bkey elem) in
  let stk := stack ++ [pg] in
  (In (ErrBranchKeyBelowAncestor n k pg stk) errs <->
   n = 0%nat /\ exists m, mn = Some m /\ (0 < bytes_compare m (bkey elem))%Z) /\
  (In (ErrBranchKeyAboveMax n k pg (keyToString (slice_bytes mx)) stk) errs <->
   exists m, mx = Some m /\ (0 <= bytes_compare (bkey elem) m)%Z).
Proof.
  intros Hbr Hrun Hn k stk. simpl in Hrun. rewrite Hbr in Hrun. fold stk in Hrun.
  destruct (branch_loop_checks _ _ _ _ _ _ _ _ _ Hrun) as [Hfwd Hbwd].
  cbn [fst Nat.add] in Hfwd, Hbwd.
  assert (Hown : forall e, error_place e = Some (pg, stk) -> In e errs ->
            exists n' rm' elem',
              branchPageElements (tx_page tx pg) !! n' = Some elem' /\
              (n' = 0%nat -> rm' = mn) /\
              In e (branch_checks keyToString pg mx stk n' rm' elem')).
  { intros e Hplace He.
    destruct (Hbwd e He) as [Hchk|(el & a & b & c & d & _ & Hcall & Hin)]; [exact Hchk|].
    pose proof (rcpi_stack_longer _ _ _ _ _ _ _ _ _ _ _ Hcall Hin Hplace). lia. }
  destruct (Hfwd n elem Hn) as (rm0 & Hrm0 & Hincl).
  unfold branch_checks in *. unfold compareKeys.
  change (slice_bytes (Some (bkey elem))) with (bkey elem).
  split.
  - split.
    + intros He.
      destruct (Hown (ErrBranchKeyBelowAncestor n k pg stk) eq_refl He)
        as (n' & rm' & elem' & Hn' & Hrm & Hin).
      rewrite in_app_iff, !In_singleton_if in Hin.
      destruct Hin as [[Hc Heq]|[_ Heq]]; [|discriminate].
      injection Heq as Hidx _. subst n'. rewrite Hn in Hn'. injection Hn' as <-.
      apply andb_prop in Hc. destruct Hc as [Hc Hlt]. apply andb_prop in Hc.
      destruct Hc as [H0 Hnn]. apply Nat.eqb_eq in H0. subst n.
      rewrite (Hrm eq_refl) in Hnn, Hlt. destruct mn as [m|]; [|discriminate].
      split; [reflexivity|]. exists m. split; [reflexivity|].
      apply Z.ltb_lt in Hlt. exact Hlt.
    + intros (-> & m & -> & Hlt). apply Hincl. rewrite (Hrm0 eq_refl).
      rewrite in_app_iff, !In_singleton_if. left. split; [|reflexivity].
      simpl. apply Z.ltb_lt. exact Hlt.
  - split.
    + intros He.
      destruct (Hown (ErrBranchKeyAboveMax n k pg (keyToString (slice_bytes mx)) stk)
                  eq_refl He) as (n' & rm' & elem' & Hn' & Hrm & Hin).
      rewrite in_app_iff, !In_singleton_if in Hin.
      destruct Hin as [[_ Heq]|[Hc Heq]]; [discriminate|].
      injection Heq as Hidx _. subst n'. rewrite Hn in Hn'. injection Hn' as <-.
      apply andb_prop in Hc. destruct Hc as [Hnn Hle].
      destruct mx as [m|]; [|discriminate]. exists m. split; [reflexivity|].
      apply Z.leb_le in Hle. exact Hle.
    + intros (m & -> & Hle). apply Hincl.
      rewrite in_app_iff, !In_singleton_if. right. split; [|reflexivity].
      simpl. apply Z.leb_le. exact Hle.
Qed.

(** ** Where the bound of the previous sibling is kept *)

Lemma bytes_compare_antisym a b : bytes_compare b a = (- bytes_compare a b)%Z.
Proof.
  revert b. induction a as [|x a IH]; intros [|y b]; simpl; try reflexivity.
  rewrite (N.compare_antisym (Byte.to_N x)).
  destruct (Byte.to_N x ?= Byte.to_N y); simpl; auto.
Qed.

Lemma bytes_compare_eq a b : bytes_compare a b = 0%Z -> a = b.
Proof.
  revert b. induction a as [|x a IH]; intros [|y b]; simpl; try discriminate;
    [reflexivity|].
  destruct (N.compare_spec (Byte.to_N x) (Byte.to_N y)) as [Heq| |]; try discriminate.
  intros Hrest. rewrite (IH _ Hrest). f_equal.
  pose proof (Byte.of_to_N x) as Hx. pose proof (Byte.of_to_N y) as Hy.
  rewrite Heq in Hx. congruence.
Qed.

Lemma bytes_compare_le_lt a b c :
  (bytes_compare a b < 0)%Z -> (bytes_compare b c <= 0)%Z -> (bytes_compare a c < 0)%Z.
Proof.
  intros Hab Hbc. destruct (Z.eq_dec (bytes_compare b c) 0%Z) as [Heq|Hne].
  - apply bytes_compare_eq in Heq. subst c. exact Hab.
  - eapply bytes_compare_trans; [exact Hab|lia].
Qed.

Lemma ascends_from_above prev ks k :
  ascends_from prev ks -> In k ks -> (bytes_compare prev k < 0)%Z.
Proof.
  revert prev. induction ks as [|a rest IH]; intros prev Hasc Hin; [destruct Hin|].
  destruct Hasc as [Hlt Hrest]. destruct Hin as [<-|Hin]; [exact Hlt|].
  eapply bytes_compare_trans; [exact Hlt|]. exact (IH _ Hrest Hin).
Qed.

(** The keys of a leaf page that is validated without a finding are not
    below the closed lower bound of the validation. *)
Lemma leaf_keys_above_lower_bound fuel tx pg m mx stack r ks x :
  is_branch (tx_page tx pg) = false ->
  rcpi fuel tx pg (Some m) mx stack = Some ([], r) ->
  subtree_keys fuel tx pg = Some ks -> In x ks -> (bytes_compare m x <= 0)%Z.
Proof.
  intros Hnb Hrun Hks Hx. destruct fuel as [|fuel]; [discriminate|].
  rewrite subtree_keys_unfold in Hks. simpl in Hrun. rewrite Hnb in Hrun, Hks.
  destruct (is_leaf (tx_page tx pg)); [|discriminate].
  injection Hrun as Hloop _. injection Hks as <-.
  apply leaf_loop_nil_0 in Hloop. destruct Hloop as [Hasc [Hlow _]].
  destruct (map lkey (leafPageElements (tx_page tx pg))) as [|k0 rest]; [destruct Hx|].
  pose proof (Hlow m k0 eq_refl eq_refl) as H0.
  destruct Hx as [<-|Hx]; [exact H0|].
  pose proof (ascends_from_above _ _ _ Hasc Hx) as H1.
  destruct (Z.eq_dec (bytes_compare m k0) 0%Z) as [Heq|Hne].
  - apply bytes_compare_eq in Heq. subst k0. lia.
  - assert (Hm : (bytes_compare m k0 < 0)%Z) by lia.
    pose proof (bytes_compare_trans _ _ _ Hm H1). lia.
Qed.

(** Where the child of the next element is a leaf page, the key returned
    for the subtree of an element does bound the keys of the next subtree
    from below: the next separator lies strictly above the returned key,
    and the leaf path compares every key of the page with the one before
    it, the first one with the separator. *)
Lemma sibling_bound_leaf_child fuel tx pg mn mx stack errs r i prev elem errs_prev k ks x :
  is_branch (tx_page tx pg) = true ->
  is_branch (tx_page tx (bpgid elem)) = false ->
  rcpi (Datatypes.S fuel) tx pg mn mx stack = Some (errs, r) ->
  branchPageElements (tx_page tx pg) !! i = Some prev ->
  branchPageElements (tx_page tx pg) !! Datatypes.S i = Some elem ->
  rcpi fuel tx (bpgid prev) (Some (bkey prev)) (Some (bkey elem)) (stack ++ [pg])
  = Some (errs_prev, Some k) ->
  subtree_keys fuel tx (bpgid elem) = Some ks ->
  In x ks -> (bytes_compare x k < 0)%Z ->
  errs <> [].
Proof.
  intros Hbr Hnb Hrun Hi HSi Hprev Hks Hx Hlt ->.
  simpl in Hrun. rewrite Hbr in Hrun.
  destruct (branch_loop_calls _ _ _ _ _ _ _ _ _ _ Hrun _ _ Hi)
    as (e1 & r1 & Hc1 & Hin1 & _).
  destruct (branch_loop_calls _ _ _ _ _ _ _ _ _ _ Hrun _ _ HSi)
    as (e2 & r2 & Hc2 & Hin2 & _).
  simpl in Hin1, Hin2.
  assert (Hdrop : exists rest,
             drop (Datatypes.S i) (branchPageElements (tx_page tx pg)) = elem :: rest).
  { pose proof (lookup_drop (branchPageElements (tx_page tx pg)) (Datatypes.S i) 0) as Hl.
    rewrite Nat.add_0_r, HSi in Hl.
    destruct (drop _ _) as [|e0 rest]; [discriminate|].
    injection Hl as ->. eauto. }
  destruct Hdrop as [rest Hdrop]. rewrite Hdrop in Hc1. simpl in Hc1.
  rewrite Hprev in Hc1. injection Hc1 as <- <-.
  destruct errs_prev as [|e errs_prev]; [|exact (Hin1 e (or_introl eq_refl))].
  destruct e2 as [|e e2]; [|exact (Hin2 e (or_introl eq_refl))].
  assert (Hk : (bytes_compare k (bkey elem) < 0)%Z).
  { destruct (Z.lt_ge_cases (bytes_compare k (bkey elem)) 0%Z) as [H1|H1]; [exact H1|].
    destruct (above_max_reported _ _ _ _ _ _ _ _ _ Hprev H1 eq_refl). }
  pose proof (leaf_keys_above_lower_bound _ _ _ _ _ _ _ _ _ Hnb Hc2 Hks Hx) as Hlow.
  pose proof (bytes_compare_le_lt _ _ _ Hk Hlow) as Hkx.
  rewrite (bytes_compare_antisym k x) in Hlt. lia.
Qed.

End OrderFacts.

(** ** The hexadecimal stringer *)

Lemma hex_value_of_byte (b : byte) :
  16 * hex_value (hex_digit (Byte.to_N b / 16)) + hex_value (hex_digit (Byte.to_N b mod 16))
  = Byte.to_N b.
Proof. destruct b; vm_compute; reflexivity. Qed.

Lemma hex_digit_of_byte (b : byte) :
  In (hex_digit (Byte.to_N b / 16)) (list_ascii_of_string "0123456789abcdef") /\
  In (hex_digit (Byte.to_N b mod 16)) (list_ascii_of_string "0123456789abcdef").
Proof.
  assert (Hd : forall n, n < 16 ->
            In (hex_digit n) (list_ascii_of_string "0123456789abcdef")).
  { intros n Hn. unfold hex_digit. apply nth_In. simpl. lia. }
  pose proof (Byte.to_N_bounded b) as Hb. split; apply Hd.
  - apply N.Div0.div_lt_upper_bound. lia.
  - apply N.mod_lt. discriminate.
Qed.

Lemma EncodeToString_inj k1 k2 : EncodeToString k1 = EncodeToString k2 -> k1 = k2.
Proof.
  revert k2. induction k1 as [|b1 k1 IH]; intros [|b2 k2]; simpl; try discriminate;
    [reflexivity|].
  intros [= Hhi Hlo Hrest]. f_equal; [|apply IH; exact Hrest].
  pose proof (hex_value_of_byte b1) as H1. pose proof (hex_value_of_byte b2) as H2.
  rewrite Hhi, Hlo in H1. rewrite H1 in H2.
  pose proof (Byte.of_to_N b1) as Ho1. pose proof (Byte.of_to_N b2) as Ho2.
  rewrite H2 in Ho1. congruence.
Qed.

(** X17. The hexadecimal stringer writes two characters of "0123456789abcdef"
    for every byte, formats keys and values alike, and formats different
    keys differently. *)
Theorem hex_stringer_faithful (k1 k2 : list byte) :
  (KeyToString HexKeyValueStringer k1 = KeyToString HexKeyValueStringer k2 -> k1 = k2) /\
  String.length (KeyToString HexKeyValueStringer k1) = (2 * length k1)%nat /\
  (forall c, In c (list_ascii_of_string (KeyToString HexKeyValueStringer k1)) ->
             In c (list_ascii_of_string "0123456789abcdef")) /\
  ValueToString HexKeyValueStringer k1 = KeyToString HexKeyValueStringer k1.
Proof.
  split; [apply EncodeToString_inj|]. split; [|split; [|reflexivity]].
  - simpl. induction k1 as [|b k IH]; simpl; [reflexivity|]. rewrite IH. lia.
  - simpl KeyToString. induction k1 as [|b k IH]; [intros c []|].
    intros c [<-|[<-|Hc]]; [apply hex_digit_of_byte|apply hex_digit_of_byte|exact (IH c Hc)].
Qed.

(** ** When the check does not return *)

Section Completion.
Context `{PageConsts}.

Lemma foldl_bind_None {A B : Type} (f : A -> B -> option A) (l : list B) :
  foldl (fun acc x => s ← acc; f s x) None l = None.
Proof. induction l as [|x l IH]; [reflexivity|exact IH]. Qed.

(** The page walk returns only on a finite tree. *)
Lemma page_tree_of_walk fuel tx pg depth (fn : page -> nat -> CheckState -> CheckState)
    st st' :
  forEachPage fuel tx pg depth fn st = Some st' -> page_tree tx pg.
Proof.
  revert pg depth st st'. induction fuel as [|fuel IH]; intros pg depth st st';
    [discriminate|].
  simpl. intros Hrun. constructor. intros c [Hbr (elem & Hin & <-)].
  rewrite Hbr in Hrun. revert Hin Hrun.
  generalize (fn (tx_page tx pg) depth st) (branchPageElements (tx_page tx pg)).
  intros s elems. revert s. induction elems as [|e0 rest IHl]; intros s Hin Hrun;
    [destruct Hin|].
  simpl in Hrun.
  destruct (forEachPage fuel tx (bpgid e0) (Datatypes.S depth) fn s) as [s1|] eqn:Hstep.
  - destruct Hin as [->|Hin]; [exact (IH _ _ _ _ Hstep)|]. exact (IHl _ Hin Hrun).
  - rewrite foldl_bind_None in Hrun. discriminate.
Qed.

Lemma walkable_of_result fuel tx ks b st st' :
  checkBucket fuel tx b ks st = Some st' -> walkable tx b.
Proof.
  revert b st st'. induction fuel as [|fuel IH]; intros b st st'; simpl.
  - destruct (root b =? 0) eqn:Hroot; [|discriminate].
    intros _. apply walkable_inline, N.eqb_eq, Hroot.
  - destruct (root b =? 0) eqn:Hroot; [intros _; apply walkable_inline, N.eqb_eq, Hroot|].
    destruct (forEachPage fuel tx (root b) 0 _ st) as [st1|] eqn:Hwalk; simpl; [|discriminate].
    destruct (recursivelyCheckPages _ fuel tx (root b)) as [[errs r]|]; simpl; [|discriminate].
    generalize (sends errs st1). intros st2 Hrun.
    apply walkable_pages; [exact (page_tree_of_walk _ _ _ _ _ _ _ Hwalk)|].
    revert st2 Hrun. generalize (ForEach b).
    induction l as [|kv0 rest IHl]; intros s Hrun kv child Hin Hat; [destruct Hin|].
    simpl in Hrun.
    destruct (match Bucket_at b kv0.1 with
              | Some child => checkBucket fuel tx child ks s
              | None => Some s
              end) as [s1|] eqn:Hstep.
    + destruct Hin as [->|Hin]; [|exact (IHl _ Hrun kv child Hin Hat)].
      rewrite Hat in Hstep. exact (IH _ _ _ Hstep).
    + rewrite foldl_bind_None in Hrun. discriminate.
Qed.

(** X18. The check does not return when the seeding loop cannot end (the
    free list is persisted and the overflow of the free-list page is the
    largest 32-bit value, which the 32-bit counter of lines 42-44 never
    exceeds), or when a bucket cannot be walked: the root bucket, or a
    nested bucket the iteration finds, is not inline and the pages under
    its root do not form a finite tree.  No amount of fuel gives a
    result. *)
Theorem check_never_returns (ks : KeyValueStringer) (tx : Tx) :
  (meta_freelist (tx_meta tx) <> pgidNoFreelist /\
   2 ^ 32 - 1 <= overflow (tx_page tx (meta_freelist (tx_meta tx)))) \/
  ~ walkable tx (tx_root tx) ->
  forall fuel, check fuel ks tx = None.
Proof.
  intros Hcause fuel. destruct (check fuel ks tx) as [errs|] eqn:Hrun; [|reflexivity].
  exfalso. unfold check in Hrun.
  destruct (seed_reachable fuel tx _) as [st1|] eqn:Hseed; simpl in Hrun; [|discriminate].
  destruct (checkBucket fuel tx (tx_root tx) ks st1) as [st2|] eqn:Hwalk; simpl in Hrun;
    [|discriminate].
  destruct Hcause as [[Hne Hge]|Hnw]; [|exact (Hnw (walkable_of_result _ _ _ _ _ _ Hwalk))].
  unfold seed_reachable in Hseed.
  destruct (decide (meta_freelist (tx_meta tx) = pgidNoFreelist)) as [Heq|_];
    [contradiction|].
  rewrite seed_freelist_diverges in Hseed; [discriminate|exact Hge|reflexivity].
Qed.

End Completion.

(** * The properties on concrete transactions *)

#[local] Existing Instance bbolt_consts.

(** Scenario D: page 9 below a high-water mark of 10, neither reachable nor
    freed, is reported once; page 3, reachable, is not. *)
Lemma sweep_unreachable_unfreed_witness :
  exists new, ch (sweep 10 st_below_9) = ch st_below_9 ++ new /\
    count_occ error_eq_dec new (ErrUnreachableUnfreed 9) = 1%nat /\
    count_occ error_eq_dec new (ErrUnreachableUnfreed 3) = 0%nat.
Proof.
  destruct (sweep_unreachable_unfreed 10 st_below_9) as (_ & _ & new & Hch & _ & Hcount).
  exists new. split; [exact Hch|]. rewrite !Hcount. split; vm_compute; reflexivity.
Defined.

Example sweep_scenario_D : ch (sweep 10 st_below_9) = [ErrUnreachableUnfreed 9].
Proof. vm_compute. reflexivity. Qed.

(** Page 6 is visited while id 6 is owned by page 5: the owner changes. *)
Lemma first_owner_not_kept : ~ keeps_first_owner (leaf_page 6 0 []) st_span_5.
Proof.
  intros Hc. specialize (Hc 0 ltac:(vm_compute; discriminate)).
  vm_compute in Hc. destruct Hc as [_ Hc]. discriminate.
Qed.

Lemma claim_span_overwrites_witness :
  let p := leaf_page 6 0 [] in
  overflow p < 2 ^ 32 /\ 0 <= overflow p /\
  reachable (claim_span p st_span_5) !! wrap64 (id p + 0) = Some p /\
  count_occ error_eq_dec (sent_since st_span_5 (claim_span p st_span_5))
    (ErrMultipleReferences (wrap64 (id p + 0)))
  = if is_reachable st_span_5 (wrap64 (id p + 0)) then 1%nat else 0%nat.
Proof.
  intros p.
  assert (H1 : overflow p < 2 ^ 32) by (vm_compute; reflexivity).
  assert (H2 : 0 <= overflow p) by (vm_compute; discriminate).
  split; [exact H1|]. split; [exact H2|].
  exact (claim_span_overwrites p st_span_5 0 H1 H2).
Defined.

Example page_typ_unknown :
  page_typ 8 = "unknown<08>"%string /\ page_typ 264 = "unknown<108>"%string /\
  page_typ 4 = "meta"%string.
Proof. repeat split. Qed.

Example claim_span_second_visit :
  ch (claim_span (leaf_page 6 0 []) st_span_5) = [ErrMultipleReferences 6].
Proof. vm_compute. reflexivity. Qed.

(** C3 (what the code does on unsorted siblings). The running lower bound
    of the branch loop is written after every child (line 141) and read
    only for the first element (line 124): the keys of a branch page are
    not compared with one another, and the key returned for a child bounds
    nothing.  In [tx_siblings] page 4 holds the separators "m", "b" out of
    order, and its second child holds "b", a key below the "c" returned for
    the subtree of the first element of page 2 and below the separator "m"
    under which page 4 hangs.  The validation of the root returns without a
    finding and the whole check reports nothing, so the bound of the claim
    is not enforced. *)
Example unsorted_siblings_pass_silently :
  map bkey (branchPageElements (tx_page tx_siblings 4)) = [key_of "m"; key_of "b"] /\
  recursivelyCheckPagesInternal EncodeToString 2 tx_siblings 3
    (Some (key_of "a")) (Some (key_of "m")) [2] = Some ([], Some (key_of "c")) /\
  subtree_keys 2 tx_siblings 4 = Some [key_of "b"] /\
  (bytes_compare (key_of "b") (key_of "c") < 0)%Z /\
  (bytes_compare (key_of "b") (key_of "m") < 0)%Z /\
  recursivelyCheckPages EncodeToString 3 tx_siblings 2 = Some ([], Some (key_of "b")) /\
  check 4 HexKeyValueStringer tx_siblings = Some [] /\
  ~ sibling_bound_enforced EncodeToString 2 tx_siblings 2.
Proof.
  split; [reflexivity|]. split; [vm_compute; reflexivity|].
  split; [vm_compute; reflexivity|]. split; [reflexivity|]. split; [reflexivity|].
  split; [vm_compute; reflexivity|]. split; [vm_compute; reflexivity|].
  intros Hc.
  apply (Hc None None [] [] (Some (key_of "b")) 0%nat
            (mkBranchElem (key_of "a") 3) (mkBranchElem (key_of "m") 4)
            [] (key_of "c") [key_of "b"] (key_of "b"));
    first [ vm_compute; reflexivity | left; reflexivity ].
Qed.

(** With a leaf page in the place of page 4 the same keys are reported: the
    leaf path compares every key with the one before it. *)
Example unsorted_leaf_is_reported :
  let tx := mkTx (pages_of [meta_page 0; meta_page 1;
                            branch_page 2 [("a", 3); ("m", 4)];
                            leaf_page 3 0 ["a"; "c"];
                            leaf_page 4 0 ["m"; "b"]])
                 (mkMeta 5 18446744073709551615) [] (plain_bucket 2) in
  recursivelyCheckPages EncodeToString 2 tx 2
  = Some ([ErrLeafKeyLess 1 "62" 4 "6d" [2; 4]], Some (key_of "b")).
Proof. vm_compute. reflexivity. Qed.

Lemma branch_children_bounds_witness :
  let elem := mkBranchElem (key_of "a") 3 in
  let errs := [ErrLeafKeyAboveMax 1 "7a" 3 "6d" [2; 3]] in
  is_branch (tx_page tx_above 2) = true /\
  recursivelyCheckPagesInternal EncodeToString 2 tx_above 2 None None []
  = Some (errs, Some (key_of "m")) /\
  branchPageElements (tx_page tx_above 2) !! 0%nat = Some elem /\
  exists errs_i r_i,
    recursivelyCheckPagesInternal EncodeToString 1 tx_above 3 (Some (key_of "a"))
      (Some (key_of "m")) [2] = Some (errs_i, r_i) /\
    (forall e, In e errs_i -> In e errs) /\
    (forall k next, r_i = Some k ->
       branchPageElements (tx_page tx_above 2) !! 1%nat = Some next ->
       (0 <= bytes_compare k (bkey next))%Z -> errs <> []) /\
    (forall ks x next, subtree_keys 1 tx_above 3 = Some ks -> In x ks ->
       branchPageElements (tx_page tx_above 2) !! 1%nat = Some next ->
       (0 <= bytes_compare x (bkey next))%Z -> errs <> []).
Proof.
  intros elem errs.
  assert (H1 : is_branch (tx_page tx_above 2) = true) by reflexivity.
  assert (H2 : recursivelyCheckPagesInternal EncodeToString 2 tx_above 2 None None []
               = Some (errs, Some (key_of "m"))) by (vm_compute; reflexivity).
  assert (H3 : branchPageElements (tx_page tx_above 2) !! 0%nat = Some elem) by reflexivity.
  split; [exact H1|]. split; [exact H2|]. split; [exact H3|].
  exact (branch_children_bounds EncodeToString 1 tx_above 2 None None [] errs
           (Some (key_of "m")) 0 elem H1 H2 H3).
Defined.

(** C4 (what the code does at the high-water mark). A visited page whose
    id equals the high-water mark is not reported as out of bounds: the
    visitor sends nothing for page 10 under a mark of 10, and the whole
    check reports only the pages it never reached. *)
Example visited_page_at_high_water_mark :
  ch (checkBucket_fn tx_hwm_10 (tx_page tx_hwm_10 10) st_empty) = [] /\
  check 2 HexKeyValueStringer tx_hwm_10
  = Some (map ErrUnreachableUnfreed [2; 3; 4; 5; 6; 7; 8; 9]).
Proof. split; vm_compute; reflexivity. Qed.

(** Scenario C: the free list [5; 5; 7]. *)
Lemma scan_freed_double_freed_witness :
  let st := scan_freed [5; 5; 7] (mkState [] ∅ ∅) in
  count_occ error_eq_dec (ch st) (ErrAlreadyFreed 5) = 1%nat /\
  count_occ error_eq_dec (ch st) (ErrAlreadyFreed 7) = 0%nat /\
  is_freed st 7 = true /\ is_freed st 6 = false.
Proof.
  destruct (scan_freed_double_freed [5; 5; 7]) as (Hcount & _ & Hfreed).
  cbv zeta. rewrite !Hcount, !Hfreed. vm_compute. auto.
Defined.

Example scan_scenario_C : ch (scan_freed [5; 5; 7] st_empty) = [ErrAlreadyFreed 5].
Proof. vm_compute. reflexivity. Qed.

(** On the leaf with the keys "b", "a" the validation returns "a". *)
Lemma greatest_key_not_returned : ~ returns_greatest_key EncodeToString 1 tx_unsorted 2.
Proof.
  intros Hc.
  destruct (Hc None None [] [ErrLeafKeyLess 1 "61" 2 "62" [2]] (Some (key_of "a"))
              [key_of "b"; key_of "a"]) as [_ Hg];
    [vm_compute; reflexivity|vm_compute; reflexivity|].
  destruct Hg as (k & Hk & _ & Hmax); [discriminate|].
  injection Hk as <-. specialize (Hmax (key_of "b") (or_introl eq_refl)).
  vm_compute in Hmax. apply Hmax. reflexivity.
Qed.

Lemma validation_returns_rightmost_key_witness :
  let ks := [key_of "a"; key_of "c"; key_of "m"; key_of "z"] in
  subtree_keys 2 tx_tree 2 = Some ks /\
  exists errs r,
    recursivelyCheckPagesInternal EncodeToString 2 tx_tree 2 None None [] = Some (errs, r) /\
    rightmost_key 2 tx_tree 2 = Some r /\
    (ks = [] -> r = None) /\
    (forall k, r = Some k -> last ks = Some k /\ (ascending ks -> greatest_of ks k)).
Proof.
  intros ks.
  assert (H1 : subtree_keys 2 tx_tree 2 = Some ks) by (vm_compute; reflexivity).
  split; [exact H1|].
  exact (validation_returns_rightmost_key EncodeToString 2 tx_tree 2 None None [] ks H1).
Defined.

(** Scenario B with the hexadecimal and with the raw stringer. *)
Lemma stringer_only_formats_witness :
  map erase_text <$> check 3 HexKeyValueStringer tx_unsorted
  = map erase_text <$> check 3 rawKeyValueStringer tx_unsorted.
Proof. exact (stringer_only_formats 3 HexKeyValueStringer rawKeyValueStringer tx_unsorted). Defined.

Example check_scenario_B :
  check 3 HexKeyValueStringer tx_unsorted = Some [ErrLeafKeyLess 1 "61" 2 "62" [2]] /\
  check 3 rawKeyValueStringer tx_unsorted = Some [ErrLeafKeyLess 1 "a" 2 "b" [2]].
Proof. split; vm_compute; reflexivity. Qed.

(** Scenario A: the empty database. *)
Lemma inline_bucket_skipped_witness :
  root (tx_root tx_empty) = 0 /\
  tx_freelist_all tx_empty = [] /\
  meta_freelist (tx_meta tx_empty) = pgidNoFreelist /\
  meta_pgid (tx_meta tx_empty) <= 2 /\
  check 0 HexKeyValueStringer tx_empty = Some [].
Proof.
  assert (H4 : meta_pgid (tx_meta tx_empty) <= 2) by (vm_compute; discriminate).
  split; [reflexivity|]. split; [reflexivity|]. split; [reflexivity|]. split; [exact H4|].
  exact (proj2 (inline_bucket_skipped 0 tx_empty HexKeyValueStringer)
           eq_refl eq_refl eq_refl H4).
Defined.

Lemma tx_tree_is_tree : page_tree tx_tree 2.
Proof.
  constructor. intros c (_ & elem & Hin & <-).
  destruct Hin as [<-|[<-|[]]]; constructor; intros c (Hbr & _); discriminate Hbr.
Qed.

Lemma tx_cycle_has_cycle : reaches tx_cycle 2 2 /\ on_cycle tx_cycle 2.
Proof.
  assert (Hchild : child_of tx_cycle 2 2).
  { split; [reflexivity|]. eexists. split; [left; reflexivity|reflexivity]. }
  split; [constructor|]. econstructor; [exact Hchild|constructor].
Qed.

(** The tree of [tx_tree] is validated with some fuel; the self-reference
    of [tx_cycle] with none. *)
Lemma validation_terminates_iff_tree_witness :
  finite_acyclic tx_tree 2 /\
  (exists fuel, forall fuel', (fuel <= fuel')%nat ->
     forall mn mx stack,
       is_Some (recursivelyCheckPagesInternal EncodeToString fuel' tx_tree 2 mn mx stack)) /\
  (forall fuel mn mx stack,
     recursivelyCheckPagesInternal EncodeToString fuel tx_cycle 2 mn mx stack = None).
Proof.
  split; [exact (proj2 (finite_acyclic_iff_page_tree tx_tree 2) tx_tree_is_tree)|].
  split.
  - exact (proj1 (proj1 (validation_terminates_iff_tree EncodeToString tx_tree 2))
             (proj2 (finite_acyclic_iff_page_tree tx_tree 2) tx_tree_is_tree)).
  - exact (proj2 (validation_terminates_iff_tree EncodeToString tx_cycle 2) 2
             (proj1 tx_cycle_has_cycle) (proj2 tx_cycle_has_cycle)).
Defined.

(** A free list said to start at page 0 with one overflow page: page 1 ends
    up owned by the free-list page, and nothing is sent. *)
Lemma seeding_is_silent_witness :
  (meta_freelist (tx_meta tx_freelist_at_0) = pgidNoFreelist \/
   overflow (tx_page tx_freelist_at_0 (meta_freelist (tx_meta tx_freelist_at_0)))
   < 2 ^ 32 - 1) /\
  exists st', seed_reachable 3 tx_freelist_at_0 st_empty = Some st' /\
    ch st' = [] /\ reachable st' !! 1 = Some (tx_page tx_freelist_at_0 0).
Proof.
  assert (Hterm : meta_freelist (tx_meta tx_freelist_at_0) = pgidNoFreelist \/
                  overflow (tx_page tx_freelist_at_0 (meta_freelist (tx_meta tx_freelist_at_0)))
                  < 2 ^ 32 - 1) by (right; vm_compute; reflexivity).
  split; [exact Hterm|].
  destruct (seeding_is_silent tx_freelist_at_0 st_empty) as [Hpost Hret].
  destruct (Hret Hterm) as [st' Hrun]. exists st'. split; [exact Hrun|].
  destruct (Hpost _ _ Hrun) as (Hch & _ & _ & _ & Hspan & _).
  split; [exact Hch|].
  apply (Hspan ltac:(vm_compute; discriminate) 1). vm_compute. discriminate.
Defined.

(** ** The further properties on concrete transactions *)

Lemma tx_tree_reaches_3 : reaches tx_tree 2 3.
Proof.
  econstructor; [constructor|]. split; [reflexivity|].
  eexists. split; [left; reflexivity|reflexivity].
Qed.

Lemma checkBucket_only_extends_witness :
  exists st',
    checkBucket 2 tx_unsorted (tx_root tx_unsorted) HexKeyValueStringer st_empty = Some st' /\
    freed st' = freed st_empty /\
    (forall i, is_reachable st_empty i = true -> is_reachable st' i = true) /\
    exists new, ch st' = ch st_empty ++ new /\
      forall e, In e new -> is_visit_error e || is_order_error e = true.
Proof.
  destruct (checkBucket 2 tx_unsorted (tx_root tx_unsorted) HexKeyValueStringer st_empty)
    as [st'|] eqn:Hrun; [|vm_compute in Hrun; discriminate].
  exists st'. split; [reflexivity|].
  exact (checkBucket_only_extends 2 tx_unsorted (tx_root tx_unsorted) HexKeyValueStringer
           st_empty st' Hrun).
Defined.

Lemma visit_type_findings_witness :
  let p := meta_page 5 in
  let new := sent_since st_empty (checkBucket_fn tx_hwm_10 p st_empty) in
  overflow p < 2 ^ 32 /\
  count_occ error_eq_dec new (ErrReachableFreed 5) = 0%nat /\
  count_occ error_eq_dec new (ErrInvalidType 5 "meta") = 1%nat.
Proof.
  intros p new.
  assert (Hov : overflow p < 2 ^ 32) by (vm_compute; reflexivity).
  split; [exact Hov|].
  destruct (visit_type_findings tx_hwm_10 p st_empty Hov) as [Hfreed Htype].
  unfold new. rewrite Hfreed, Htype. split; vm_compute; reflexivity.
Defined.

Lemma overlapping_spans_reported_witness :
  let p := leaf_page 5 1 [] in
  let q := leaf_page 6 0 [] in
  let st1 := checkBucket_fn tx_hwm_10 p st_empty in
  overflow p < 2 ^ 32 /\ overflow q < 2 ^ 32 /\ 6 ∈ span p /\ 6 ∈ span q /\
  count_occ error_eq_dec (sent_since st1 (checkBucket_fn tx_hwm_10 q st1))
    (ErrMultipleReferences 6) = 1%nat.
Proof.
  intros p q st1.
  assert (Hp : overflow p < 2 ^ 32) by (vm_compute; reflexivity).
  assert (Hq : overflow q < 2 ^ 32) by (vm_compute; reflexivity).
  assert (Hxp : 6 ∈ span p) by (apply list_elem_of_In; vm_compute; auto).
  assert (Hxq : 6 ∈ span q) by (apply list_elem_of_In; vm_compute; auto).
  repeat (split; [assumption|]).
  exact (overlapping_spans_reported tx_hwm_10 p q st_empty 6 Hp Hq Hxp Hxq).
Defined.

Lemma tx_hwm_10_check :
  check 2 HexKeyValueStringer tx_hwm_10
  = Some (map ErrUnreachableUnfreed [2; 3; 4; 5; 6; 7; 8; 9]).
Proof. vm_compute. reflexivity. Qed.

Lemma unreachable_unfreed_is_unaccounted_witness :
  let errs := map ErrUnreachableUnfreed [2; 3; 4; 5; 6; 7; 8; 9] in
  check 2 HexKeyValueStringer tx_hwm_10 = Some errs /\
  In (ErrUnreachableUnfreed 9) errs /\
  9 < meta_pgid (tx_meta tx_hwm_10) /\ 9 <> 0 /\ 9 <> 1 /\
  (9 ∉ tx_freelist_all tx_hwm_10) /\
  count_occ error_eq_dec errs (ErrUnreachableUnfreed 9) = 1%nat.
Proof.
  intros errs.
  assert (Hin : In (ErrUnreachableUnfreed 9) errs) by (vm_compute; auto 10).
  split; [exact tx_hwm_10_check|]. split; [exact Hin|].
  destruct (unreachable_unfreed_is_unaccounted 2 HexKeyValueStringer tx_hwm_10 errs 9
              tx_hwm_10_check Hin) as (H1 & H2 & H3 & H4 & _ & H6).
  auto.
Defined.

Lemma unreachable_unfreed_exclusive_witness :
  let errs := map ErrUnreachableUnfreed [2; 3; 4; 5; 6; 7; 8; 9] in
  meta_pgid (tx_meta tx_hwm_10) < 2 ^ 64 /\
  check 2 HexKeyValueStringer tx_hwm_10 = Some errs /\
  In (ErrUnreachableUnfreed 9) errs /\
  ~ In (ErrAlreadyFreed 9) errs /\
  ~ In (ErrMultipleReferences 9) errs /\
  ~ In (ErrReachableFreed 9) errs /\
  (forall h, ~ In (ErrOutOfBounds 9 h) errs) /\
  (forall t, ~ In (ErrInvalidType 9 t) errs).
Proof.
  intros errs.
  assert (Hhwm : meta_pgid (tx_meta tx_hwm_10) < 2 ^ 64) by (vm_compute; reflexivity).
  assert (Hin : In (ErrUnreachableUnfreed 9) errs) by (vm_compute; auto 10).
  split; [exact Hhwm|]. split; [exact tx_hwm_10_check|]. split; [exact Hin|].
  exact (unreachable_unfreed_exclusive 2 HexKeyValueStringer tx_hwm_10 errs 9
           Hhwm tx_hwm_10_check Hin).
Defined.

Lemma tx_double_free_check :
  check 2 HexKeyValueStringer tx_double_free
  = Some [ErrAlreadyFreed 5; ErrUnreachableUnfreed 3; ErrUnreachableUnfreed 4;
          ErrUnreachableUnfreed 6].
Proof. vm_compute. reflexivity. Qed.


Lemma check_sends_in_phases_witness :
  let errs := [ErrAlreadyFreed 5; ErrUnreachableUnfreed 3; ErrUnreachableUnfreed 4;
               ErrUnreachableUnfreed 6] in
  check 2 HexKeyValueStringer tx_double_free = Some errs /\
  exists scan walk ids,
    errs = scan ++ walk ++ map ErrUnreachableUnfreed ids /\
    scan = ch (scan_freed (tx_freelist_all tx_double_free) (mkState [] ∅ ∅)) /\
    (forall e, In e scan -> exists x, e = ErrAlreadyFreed x) /\
    (forall e, In e walk -> is_visit_error e || is_order_error e = true) /\
    StronglySorted N.lt ids.
Proof.
  intros errs. split; [exact tx_double_free_check|].
  exact (check_sends_in_phases 2 HexKeyValueStringer tx_double_free errs
           tx_double_free_check).
Defined.

Lemma seeded_ids_reported_witness :
  let p := leaf_page 1 0 [] in
  exists st1,
    overflow p < 2 ^ 32 /\
    seed_reachable 0 tx_tree st_empty = Some st1 /\
    (1 ∈ span p) /\
    count_occ error_eq_dec (sent_since st1 (checkBucket_fn tx_tree p st1))
      (ErrMultipleReferences 1) = 1%nat.
Proof.
  intros p.
  destruct (seed_reachable 0 tx_tree st_empty) as [st1|] eqn:Hseed;
    [|vm_compute in Hseed; discriminate].
  exists st1.
  assert (Hov : overflow p < 2 ^ 32) by (vm_compute; reflexivity).
  assert (Hx : 1 ∈ span p) by (apply list_elem_of_In; vm_compute; auto).
  split; [exact Hov|]. split; [reflexivity|]. split; [exact Hx|].
  exact (seeded_ids_reported 0 tx_tree st_empty st1 st1 p 1 Hov Hseed
           (fun i Hi => Hi) Hx (or_intror (or_introl eq_refl))).
Defined.

Lemma leaf_page_clean_iff_in_order_witness :
  let keys := map lkey (leafPageElements (tx_page tx_tree 3)) in
  is_branch (tx_page tx_tree 3) = false /\ is_leaf (tx_page tx_tree 3) = true /\
  exists errs,
    recursivelyCheckPagesInternal EncodeToString 1 tx_tree 3
      (Some (key_of "a")) (Some (key_of "m")) [2] = Some (errs, last keys) /\
    (errs = [] <->
     strictly_ascending keys /\ within_bounds (Some (key_of "a")) (Some (key_of "m")) keys).
Proof.
  intros keys. split; [reflexivity|]. split; [reflexivity|].
  exact (leaf_page_clean_iff_in_order EncodeToString 0 tx_tree 3
           (Some (key_of "a")) (Some (key_of "m")) [2] eq_refl eq_refl).
Defined.

Lemma tx_tree_validation :
  recursivelyCheckPagesInternal EncodeToString 2 tx_tree 2 None None []
  = Some ([], Some (key_of "z")).
Proof. vm_compute. reflexivity. Qed.

Lemma clean_validation_pages_witness :
  recursivelyCheckPagesInternal EncodeToString 2 tx_tree 2 None None []
  = Some ([], Some (key_of "z")) /\
  reaches tx_tree 2 3 /\
  (is_branch (tx_page tx_tree 3) = true \/ is_leaf (tx_page tx_tree 3) = true) /\
  (is_branch (tx_page tx_tree 3) = false ->
   strictly_ascending (map lkey (leafPageElements (tx_page tx_tree 3)))).
Proof.
  split; [exact tx_tree_validation|]. split; [exact tx_tree_reaches_3|].
  exact (clean_validation_pages EncodeToString 2 tx_tree 2 None None []
           (Some (key_of "z")) 3 tx_tree_validation tx_tree_reaches_3).
Defined.

Lemma tx_bad_type_validation :
  recursivelyCheckPagesInternal EncodeToString 2 tx_bad_type 2 None None []
  = Some ([ErrUnexpectedPageType 3], None).
Proof. vm_compute. reflexivity. Qed.

Lemma unexpected_page_type_iff_witness :
  recursivelyCheckPagesInternal EncodeToString 2 tx_bad_type 2 None None []
  = Some ([ErrUnexpectedPageType 3], None) /\
  (In (ErrUnexpectedPageType 3) [ErrUnexpectedPageType 3] <->
   reaches tx_bad_type 2 3 /\ is_branch (tx_page tx_bad_type 3) = false /\
   is_leaf (tx_page tx_bad_type 3) = false).
Proof.
  split; [exact tx_bad_type_validation|].
  exact (unexpected_page_type_iff EncodeToString 2 tx_bad_type 2 None None []
           [ErrUnexpectedPageType 3] None 3 tx_bad_type_validation).
Defined.

Lemma tx_tree_validation_3 :
  recursivelyCheckPagesInternal EncodeToString 1 tx_tree 3
    (Some (key_of "a")) (Some (key_of "m")) [2] = Some ([], Some (key_of "c")).
Proof. vm_compute. reflexivity. Qed.

Lemma clean_validation_bounds_witness :
  recursivelyCheckPagesInternal EncodeToString 1 tx_tree 3
    (Some (key_of "a")) (Some (key_of "m")) [2] = Some ([], Some (key_of "c")) /\
  (forall m k, Some (key_of "a") = Some m -> first_key (tx_page tx_tree 3) = Some k ->
               (bytes_compare m k <= 0)%Z) /\
  exists ks, subtree_keys 1 tx_tree 3 = Some ks /\
    (forall m x, Some (key_of "m") = Some m -> In x ks -> (bytes_compare x m < 0)%Z) /\
    (forall m k, Some (key_of "m") = Some m -> Some (key_of "c") = Some k ->
                 (bytes_compare k m < 0)%Z).
Proof.
  split; [exact tx_tree_validation_3|].
  exact (clean_validation_bounds EncodeToString 1 tx_tree 3 (Some (key_of "a"))
           (Some (key_of "m")) [2] (Some (key_of "c")) tx_tree_validation_3).
Defined.

Lemma tx_above_validation :
  recursivelyCheckPagesInternal EncodeToString 2 tx_above 2 None None []
  = Some ([ErrLeafKeyAboveMax 1 "7a" 3 "6d" [2; 3]], Some (key_of "m")).
Proof. vm_compute. reflexivity. Qed.

Lemma finding_stack_is_path_witness :
  let e := ErrLeafKeyAboveMax 1 "7a" 3 "6d" [2; 3] in
  recursivelyCheckPagesInternal EncodeToString 2 tx_above 2 None None []
  = Some ([e], Some (key_of "m")) /\
  In e [e] /\ error_place e = Some (3, [2; 3]) /\
  exists path, [2; 3] = [] ++ path /\ page_path tx_above 2 path 3.
Proof.
  intros e. split; [exact tx_above_validation|]. split; [left; reflexivity|].
  split; [reflexivity|].
  exact (finding_stack_is_path EncodeToString 2 tx_above 2 None None [] [e]
           (Some (key_of "m")) e 3 [2; 3] tx_above_validation (or_introl eq_refl) eq_refl).
Defined.

Lemma findings_name_elements_witness :
  let e := ErrLeafKeyAboveMax 1 "7a" 3 "6d" [2; 3] in
  recursivelyCheckPagesInternal EncodeToString 2 tx_above 2 None None []
  = Some ([e], Some (key_of "m")) /\
  In e [e] /\ names_element tx_above e.
Proof.
  intros e. split; [exact tx_above_validation|]. split; [left; reflexivity|].
  exact (findings_name_elements EncodeToString 2 tx_above 2 None None [] [e]
           (Some (key_of "m")) e tx_above_validation (or_introl eq_refl)).
Defined.

Lemma tx_unsorted_validation :
  recursivelyCheckPagesInternal EncodeToString 1 tx_unsorted 2 None None []
  = Some ([ErrLeafKeyLess 1 "61" 2 "62" [2]], Some (key_of "a")).
Proof. vm_compute. reflexivity. Qed.

(** Scenario B: the leaf with the keys "b", "a" is reported for element 1,
    found below the element before, and for nothing else about it. *)
Lemma leaf_findings_exact_witness :
  let elem := mkLeafElem (key_of "a") [] in
  let errs := [ErrLeafKeyLess 1 "61" 2 "62" [2]] in
  is_branch (tx_page tx_unsorted 2) = false /\ is_leaf (tx_page tx_unsorted 2) = true /\
  recursivelyCheckPagesInternal EncodeToString 1 tx_unsorted 2 None None []
  = Some (errs, Some (key_of "a")) /\
  leafPageElements (tx_page tx_unsorted 2) !! 1%nat = Some elem /\
  (In (ErrLeafKeyLess 1 "61" 2 "62" [2]) errs <->
   (0 < 1)%nat /\ (0 < bytes_compare (key_of "b") (key_of "a"))%Z) /\
  (In (ErrLeafKeyEqual 1 "61" 2 "62" [2]) errs <->
   (0 < 1)%nat /\ bytes_compare (key_of "b") (key_of "a") = 0%Z).
Proof.
  intros elem errs.
  assert (Hbr : is_branch (tx_page tx_unsorted 2) = false) by reflexivity.
  assert (Hleaf : is_leaf (tx_page tx_unsorted 2) = true) by reflexivity.
  assert (Hn : leafPageElements (tx_page tx_unsorted 2) !! 1%nat = Some elem)
    by reflexivity.
  split; [exact Hbr|]. split; [exact Hleaf|].
  split; [exact tx_unsorted_validation|]. split; [exact Hn|].
  destruct (leaf_findings_exact EncodeToString 0 tx_unsorted 2 None None [] errs
              (Some (key_of "a")) 1 elem Hbr Hleaf tx_unsorted_validation Hn)
    as (_ & Hless & Hequal & _).
  split; [exact Hless|exact Hequal].
Defined.

Lemma branch_findings_exact_witness :
  let elem := mkBranchElem (key_of "m") 4 in
  is_branch (tx_page tx_tree 2) = true /\
  recursivelyCheckPagesInternal EncodeToString 2 tx_tree 2 None None []
  = Some ([], Some (key_of "z")) /\
  branchPageElements (tx_page tx_tree 2) !! 1%nat = Some elem /\
  (In (ErrBranchKeyBelowAncestor 1 "6d" 2 [2]) [] <->
   1%nat = 0%nat /\ exists m, None = Some m /\ (0 < bytes_compare m (bkey elem))%Z) /\
  (In (ErrBranchKeyAboveMax 1 "6d" 2 (EncodeToString (slice_bytes None)) [2]) [] <->
   exists m, None = Some m /\ (0 <= bytes_compare (bkey elem) m)%Z).
Proof.
  intros elem. split; [reflexivity|]. split; [exact tx_tree_validation|].
  split; [reflexivity|].
  exact (branch_findings_exact EncodeToString 1 tx_tree 2 None None [] []
           (Some (key_of "z")) 1 elem eq_refl tx_tree_validation eq_refl).
Defined.

Lemma hex_stringer_faithful_witness :
  (KeyToString HexKeyValueStringer (key_of "a") = KeyToString HexKeyValueStringer (key_of "b")
   -> key_of "a" = key_of "b") /\
  String.length (KeyToString HexKeyValueStringer (key_of "a")) = (2 * 1)%nat.
Proof.
  destruct (hex_stringer_faithful (key_of "a") (key_of "b")) as (Hinj & Hlen & _).
  split; [exact Hinj|exact Hlen].
Defined.

Lemma tx_cycle_not_walkable : ~ walkable tx_cycle (tx_root tx_cycle).
Proof.
  intros Hw. inversion Hw as [b Hroot|b Htree _]; [discriminate Hroot|].
  exact (page_tree_no_cycle _ _ Htree (proj2 tx_cycle_has_cycle)).
Qed.

Lemma check_never_returns_witness :
  ~ walkable tx_cycle (tx_root tx_cycle) /\
  forall fuel, check fuel HexKeyValueStringer tx_cycle = None.
Proof.
  split; [exact tx_cycle_not_walkable|].
  exact (check_never_returns HexKeyValueStringer tx_cycle (or_intror tx_cycle_not_walkable)).
Defined.
